(** * Email notification microservice: consumer, email service, shutdown

    A shallow embedding of the message-intake pipeline of the repository:
    - [Js]: the JavaScript values the pipeline inspects (strings as
      sequences of UTF-16 code units, JSON values, truthiness, [trim]);
    - [Regex]: the regular expressions that occur in the sources, with
      the backtracking matcher behind [test] and [replace];
    - [Async]: a small monad for the effects of the services (a clock,
      a timed event trace, exceptions, promises that never settle);
    - [EmailService]: [src/services/emailService.js];
    - [NotificationConsumer]: [src/consumers/notificationConsumer.js];
    - [NotificationService]: [src/index.js] and [disconnectConsumer] of
      [src/config/kafka.js];
    - [NotificationService] also holds the start of the service, with
      [createKafkaClient], [createConsumer] and [connectConsumer] of
      [src/config/kafka.js]; [Mail]: [src/config/mail.js];
    - [Observe], [Scenario] and [Notions]: the notions the statements
      use, and concrete services, records and backends;
    - [RegexFacts] to [ConsumerFacts]: lemmas on the matcher, the
      validation loop, the retry loop and the effects of a computation;
    - [Dispatch], [Validation], [Content], [Timeout], [ConsumerLoop],
      [Shutdown] and [Retries]: the properties of the pipeline;
    - [Requests], [Delivery], [Lifecycle], [Environment],
      [ServiceStart], [Signals] and [Text]: further properties, of the
      validations, of a record from decoding to delivery, of the start
      and the end of the services, and of the strings they build. *)

From Stdlib Require Import String Ascii.
From Stdlib Require Import List ZArith NArith Bool Lia PrimFloat.
From Stdlib Require Import DecimalString.
From Stdlib Require DecimalZ DecimalPos.
Import ListNotations.
Local Open Scope string_scope.
Local Open Scope list_scope.

Set Implicit Arguments.
Set Warnings "-register-all".

(* ================================================================= *)
(** ** JavaScript data *)

Module Js.

(** A JavaScript string is a sequence of UTF-16 code units. *)
Definition jsstring := list N.

Definition str (s : string) : jsstring :=
  map N_of_ascii (list_ascii_of_string s).
Arguments str s%_string.

(** Decimal rendering of an integer, as template literals do it. *)
Definition num (z : Z) : jsstring := str (NilZero.string_of_int (Z.to_int z)).

Definition jsstring_eqb (a b : jsstring) : bool :=
  if list_eq_dec N.eq_dec a b then true else false.

(** ECMAScript [WhiteSpace] and [LineTerminator] code points: the set
    removed by [String.prototype.trim] and matched by the class [\s]. *)
Definition is_whitespace (c : N) : bool :=
  ((9 <=? c) && (c <=? 13)        (* TAB LF VT FF CR *)
   || (c =? 32)                   (* SPACE *)
   || (c =? 160)                  (* NO-BREAK SPACE *)
   || (c =? 5760)                 (* U+1680 *)
   || (8192 <=? c) && (c <=? 8202)  (* U+2000 .. U+200A *)
   || (c =? 8232) || (c =? 8233)  (* U+2028, U+2029 *)
   || (c =? 8239)                 (* U+202F *)
   || (c =? 8287)                 (* U+205F *)
   || (c =? 12288)                (* U+3000 *)
   || (c =? 65279))%N.            (* U+FEFF *)

Fixpoint trimStart (s : jsstring) : jsstring :=
  match s with
  | c :: s' => if is_whitespace c then trimStart s' else s
  | [] => []
  end.

Definition trimEnd (s : jsstring) : jsstring := rev (trimStart (rev s)).

(** [String.prototype.trim] *)
Definition trim (s : jsstring) : jsstring := trimEnd (trimStart s).

(** The values [JSON.parse] produces, together with [undefined], which
    is what reading an absent property gives.  An object is the list of
    its own properties. *)
Inductive value : Type :=
| VUndefined
| VNull
| VBool (b : bool)
| VNum (n : float)
| VStr (s : jsstring)
| VArr (elems : list value)
| VObj (props : list (jsstring * value)).

(** ToBoolean: [!v] is [negb (truthy v)]. *)
Definition truthy (v : value) : bool :=
  match v with
  | VUndefined | VNull => false
  | VBool b => b
  | VNum n => negb (is_zero n || is_nan n)
  | VStr s => match s with [] => false | _ => true end
  | VArr _ | VObj _ => true
  end.

(** [typeof v === 'string'] *)
Definition is_string (v : value) : bool :=
  match v with VStr _ => true | _ => false end.

Fixpoint own_property (props : list (jsstring * value)) (key : jsstring)
  : option value :=
  match props with
  | [] => None
  | (k, v) :: rest => if jsstring_eqb k key then Some v else own_property rest key
  end.

(** A thrown JavaScript error: its [name] and its [message]. *)
Record error : Type := mkError { name : jsstring; message : jsstring }.

Definition Error (msg : jsstring) : error := mkError (str "Error") msg.
Definition TypeError (msg : jsstring) : error := mkError (str "TypeError") msg.

(** [base[key]] for a key that is not defined on the built-in
    prototypes (the pipeline only reads [to], [subject] and [message]):
    [undefined] and [null] have no properties and reading one throws;
    an object yields its own property or [undefined]; any other value
    yields [undefined]. *)
Definition get (base : value) (key : jsstring) : error + value :=
  match base with
  | VUndefined =>
      inl (TypeError (str "Cannot read properties of undefined (reading '"
                        ++ key ++ str "')"))
  | VNull =>
      inl (TypeError (str "Cannot read properties of null (reading '"
                        ++ key ++ str "')"))
  | VObj props =>
      inr (match own_property props key with Some v => v | None => VUndefined end)
  | _ => inr VUndefined
  end.

(** [Array.prototype.join] on an array of strings. *)
Fixpoint join (sep : jsstring) (parts : list jsstring) : jsstring :=
  match parts with
  | [] => []
  | part :: rest =>
      match rest with
      | [] => part
      | _ :: _ => part ++ sep ++ join sep rest
      end
  end.

(** [String.prototype.split] with a separator of one code unit. *)
Fixpoint split (sep : N) (s : jsstring) : list jsstring :=
  match s with
  | [] => [[]]
  | c :: s' =>
      if (c =? sep)%N then [] :: split sep s'
      else
        match split sep s' with
        | part :: parts => (c :: part) :: parts
        | [] => [[c]]
        end
  end.

(** A string or [undefined] inside a template literal. *)
Definition template (o : option jsstring) : jsstring :=
  match o with Some s => s | None => str "undefined" end.

End Js.
Export Js.

(* ================================================================= *)
(** ** Regular expressions *)

Module Regex.

(** The patterns of the sources are sequences of single-character
    atoms, each taken once or under a greedy [*] or [+]. *)
Inductive quantifier : Type := One | Star | Plus.

Record atom : Type := mkAtom { accepts : N -> bool; quant : quantifier }.

Record regex : Type := mkRegex {
  anchored_start : bool;   (* ^ *)
  atoms : list atom;
  anchored_end : bool      (* $ *)
}.

Definition chr (c : N) : N -> bool := N.eqb c.
Definition nonchr (cs : list (N -> bool)) : N -> bool :=
  fun c => negb (existsb (fun p => p c) cs).

Section Matcher.
Variable A : Type.

(** Greedy iteration of a character class: take as many characters
    as possible, giving one back at a time while the continuation
    fails. *)
Fixpoint star (cls : N -> bool) (k : jsstring -> option A) (s : jsstring)
  : option A :=
  match s with
  | c :: s' =>
      if cls c then
        match star cls k s' with
        | Some r => Some r
        | None => k s
        end
      else k s
  | [] => k s
  end.

Fixpoint match_atoms (p : list atom) (k : jsstring -> option A) (s : jsstring)
  : option A :=
  match p with
  | [] => k s
  | a :: p' =>
      match quant a with
      | One =>
          match s with
          | c :: s' => if accepts a c then match_atoms p' k s' else None
          | [] => None
          end
      | Star => star (accepts a) (match_atoms p' k) s
      | Plus =>
          match s with
          | c :: s' =>
              if accepts a c then star (accepts a) (match_atoms p' k) s'
              else None
          | [] => None
          end
      end
  end.
End Matcher.

(** A match of [r] starting at the head of [s]: the number of code
    units it consumes. *)
Definition match_here (r : regex) (s : jsstring) : option nat :=
  match_atoms (atoms r)
    (fun rest =>
       if anchored_end r
       then match rest with [] => Some (length s - length rest)%nat | _ => None end
       else Some (length s - length rest)%nat)
    s.

Fixpoint search (r : regex) (s : jsstring) : bool :=
  match match_here r s with
  | Some _ => true
  | None => match s with [] => false | _ :: s' => search r s' end
  end.

(** [RegExp.prototype.test] on a regex whose [lastIndex] is 0. *)
Definition test (r : regex) (s : jsstring) : bool :=
  if anchored_start r
  then match match_here r s with Some _ => true | None => false end
  else search r s.

(** [String.prototype.replace] with a global regex and a fixed
    replacement: matches are found left to right and do not overlap;
    [skip] counts the code units of the current match still to drop.
    (The patterns of the sources match at least one code unit; an empty
    match, which they cannot produce, is treated as no match.) *)
Fixpoint replace_from (r : regex) (by_ : jsstring) (skip : nat) (s : jsstring)
  : jsstring :=
  match s with
  | [] => []
  | c :: s' =>
      match skip with
      | S n => replace_from r by_ n s'
      | O =>
          match match_here r s with
          | Some (S n) => by_ ++ replace_from r by_ n s'
          | _ => c :: replace_from r by_ 0 s'
          end
      end
  end.

Definition replace_all (r : regex) (by_ : jsstring) (s : jsstring) : jsstring :=
  replace_from r by_ 0 s.

End Regex.
Export Regex.

(* ================================================================= *)
(** ** Objects of the service and the effects of its methods *)

Module Async.

(** The mail object handed to [transporter.sendMail]. *)
Record emailData : Type := mkEmailData {
  from : option jsstring;     (* [None] is [undefined] *)
  to : jsstring;
  subject : jsstring;
  html : jsstring;
  text : jsstring
}.

(** What the delivery backend does with one [sendMail] call: it calls
    back after [latency] milliseconds with an error or with the info of
    the accepted mail, or it never calls back. *)
Record info : Type := mkInfo { messageId : jsstring }.

Inductive response : Type :=
| Replies (latency : N) (r : error + info)
| NoReply.

(** The behaviour of the backend during one dispatch: the answer to the
    [attempt]-th [sendMail] call of that dispatch. *)
Definition backend := nat -> emailData -> response.

(** A nodemailer transporter: the outcome of [verify()] and, when the
    transport has a [close] method, the outcome of [close()]. *)
Record transporter : Type := mkTransporter {
  verify : option error;
  close_method : option (option error)
}.

(** The KafkaJS consumer handle: the outcome of [disconnect()]. *)
Record kafka_consumer : Type := mkKafkaConsumer {
  disconnect : option error
}.

Record EmailService : Type := mkEmailService {
  svc_transporter : option transporter;
  isInitialized : bool;
  retryAttempts : nat;
  retryDelay : Z
}.

Record NotificationConsumer : Type := mkNotificationConsumer {
  nc_consumer : kafka_consumer;
  isRunning : bool;
  messageProcessingTimeout : Z
}.

Record NotificationService : Type := mkNotificationService {
  ns_consumer : option kafka_consumer;
  notificationConsumer : option NotificationConsumer;
  isShuttingDown : bool
}.

Inductive level : Type := debug | info_ | warn | error_.

Inductive meta : Type :=
| MStr (s : jsstring)
| MNum (n : Z)
| MVal (v : value)
| MUndefined.

Inductive event : Type :=
| Log (lv : level) (msg : jsstring) (fields : list (string * meta))
| SendMail (attempt : nat) (d : emailData)
| TransporterClose
| ConsumerDisconnect.

(** The state the methods run in: the clock (milliseconds), the events
    so far with the time of each, [process.env], the [emailService]
    singleton and the [notificationService] instance. *)
Record world : Type := mkWorld {
  clock : Z;
  trace : list (Z * event);
  env : string -> option jsstring;
  emailService : EmailService;
  notificationService : NotificationService
}.

Definition set_clock (t : Z) (w : world) : world :=
  mkWorld t (trace w) (env w) (emailService w) (notificationService w).
Definition set_trace (tr : list (Z * event)) (w : world) : world :=
  mkWorld (clock w) tr (env w) (emailService w) (notificationService w).
Definition set_emailService (s : EmailService) (w : world) : world :=
  mkWorld (clock w) (trace w) (env w) s (notificationService w).
Definition set_notificationService (s : NotificationService) (w : world) : world :=
  mkWorld (clock w) (trace w) (env w) (emailService w) s.

(** How an (async) call ends: it returns, it throws, or its promise
    never settles. *)
Inductive completion (A : Type) : Type :=
| Resolves (v : A)
| Rejects (e : error)
| Never.
Arguments Rejects {A} e.
Arguments Never {A}.

Definition M (A : Type) : Type := world -> completion A * world.

Definition ret {A} (v : A) : M A := fun w => (Resolves v, w).

Definition bind {A B} (m : M A) (f : A -> M B) : M B :=
  fun w =>
    match m w with
    | (Resolves v, w') => f v w'
    | (Rejects e, w') => (Rejects e, w')
    | (Never, w') => (Never, w')
    end.

Definition throw {A} (e : error) : M A := fun w => (Rejects e, w).

(** [try { body } catch (error) { handler error }] *)
Definition try_catch {A} (body : M A) (handler : error -> M A) : M A :=
  fun w =>
    match body w with
    | (Rejects e, w') => handler e w'
    | r => r
    end.

Definition emit (ev : event) : M unit :=
  fun w => (Resolves tt, set_trace (trace w ++ [(clock w, ev)]) w).

Definition log (lv : level) (msg : jsstring) (fields : list (string * meta))
  : M unit :=
  emit (Log lv msg fields).

(** Time passing while a promise is awaited. *)
Definition sleep (ms : Z) : M unit :=
  fun w => (Resolves tt, set_clock (clock w + ms) w).

Definition never {A} : M A := fun w => (Never, w).

(** The promise pattern
    [new Promise(async (resolve, reject) => {
       const id = setTimeout(() => reject(onTimeout), ms);
       try { const r = await body; clearTimeout(id); resolve(r) }
       catch (error) { clearTimeout(id); reject(error) } })]:
    the promise settles with whichever comes first, the outcome of
    [body] or the timer, [ms] after the start.  Once the timer has fired
    the caller resumes at the deadline; [body] is not cancelled, so what
    it still does stays in the trace, at its own (later) times.
    [timer_wins_tie] says which callback runs first when both fall due in
    the same millisecond. *)
Definition settles_before (timer_wins_tie : bool) (t deadline : Z) : bool :=
  (t <? deadline)%Z || ((t =? deadline)%Z && negb timer_wins_tie).

Definition with_timeout {A} (timer_wins_tie : bool) (ms : Z) (onTimeout : error)
    (body : M A) : M A :=
  fun w =>
    let deadline := (clock w + ms)%Z in
    match body w with
    | (Never, w') => (Rejects onTimeout, set_clock deadline w')
    | (c, w') =>
        if settles_before timer_wins_tie (clock w') deadline
        then (c, w')
        else (Rejects onTimeout, set_clock deadline w')
    end.

Definition read {A} (f : world -> A) : M A := fun w => (Resolves (f w), w).
Definition update (f : world -> world) : M unit := fun w => (Resolves tt, f w).

(** Lifting of a synchronous result. *)
Definition lift {A} (r : error + A) : M A :=
  match r with inl e => throw e | inr v => ret v end.

Declare Scope async_scope.
Delimit Scope async_scope with async.
Notation "x <- m ;; k" := (bind m (fun x => k))
  (at level 100, m at next level, right associativity) : async_scope.
Notation "m ;; k" := (bind m (fun _ => k))
  (at level 100, right associativity) : async_scope.

End Async.
Export Async.
Local Open Scope async_scope.

(* ================================================================= *)
(** ** src/services/emailService.js *)

Module EmailService.

(** [new EmailService()] *)
Definition constructor : Async.EmailService :=
  mkEmailService None false 3 1000.

Definition set_transporter (t : option transporter) : M unit :=
  update (fun w =>
    let s := emailService w in
    set_emailService
      (mkEmailService t (isInitialized s) (retryAttempts s) (retryDelay s)) w).

Definition set_isInitialized (b : bool) : M unit :=
  update (fun w =>
    let s := emailService w in
    set_emailService
      (mkEmailService (svc_transporter s) b (retryAttempts s) (retryDelay s)) w).

(** [verifyMailTransporter] of [src/config/mail.js].  The time
    [transporter.verify()] takes is left out: the clock is not advanced,
    and nothing is stated about the duration of [initialize()]. *)
Definition verifyMailTransporter (t : transporter) : M bool :=
  try_catch
    (log info_ (str "Verifying mail transporter connection...") [] ;;
     match verify t with Some e => throw e | None => ret tt end ;;
     log info_ (str "Mail transporter connection verified successfully") [] ;;
     ret true)
    (fun error =>
       log error_ (str "Failed to verify mail transporter connection")
         [("error", MStr (message error))] ;;
       ret false).

(** [initialize()]; [getMailTransporter] stands for the outcome of
    [getMailTransporter()] of [src/config/mail.js]. *)
Definition initialize (getMailTransporter : error + transporter) : M unit :=
  try_catch
    (log info_ (str "Initializing email service...") [] ;;
     t <- lift getMailTransporter ;;
     set_transporter (Some t) ;;
     isVerified <- verifyMailTransporter t ;;
     (if negb isVerified
      then throw (Error (str "Failed to verify mail transporter connection"))
      else ret tt) ;;
     set_isInitialized true ;;
     log info_ (str "Email service initialized successfully") [])
    (fun error =>
       log error_ (str "Failed to initialize email service")
         [("error", MStr (message error))] ;;
       throw error).

(** [/^[^\s@]+@[^\s@]+\.[^\s@]+$/] *)
Definition not_space_or_at : N -> bool :=
  nonchr [is_whitespace; chr 64].

Definition emailRegex : regex :=
  mkRegex true
    [mkAtom not_space_or_at Plus; mkAtom (chr 64) One;
     mkAtom not_space_or_at Plus; mkAtom (chr 46) One;
     mkAtom not_space_or_at Plus]
    true.

Definition _isValidEmail (email : jsstring) : bool := test emailRegex email.

(** [/<[^>]*>/g].  The literal is evaluated at each call of the methods
    below, so that [test] always starts at [lastIndex] 0. *)
Definition htmlTagRegex : regex :=
  mkRegex false
    [mkAtom (chr 60) One; mkAtom (nonchr [chr 62]) Star; mkAtom (chr 62) One]
    false.

Definition _isHtmlContent (content : jsstring) : bool :=
  test htmlTagRegex content.

(** [/\n/g] and [/  /g] *)
Definition newlineRegex : regex := mkRegex false [mkAtom (chr 10) One] false.
Definition twoSpacesRegex : regex :=
  mkRegex false [mkAtom (chr 32) One; mkAtom (chr 32) One] false.

Definition _convertToHtml (text : jsstring) : jsstring :=
  replace_all twoSpacesRegex (str "&nbsp;&nbsp;")
    (replace_all newlineRegex (str "<br>") text).

Definition _stripHtml (html : jsstring) : jsstring :=
  replace_all htmlTagRegex [] html.

(** [_validateEmailParams]; on success the three arguments are known to
    be strings, which is what the result carries. *)
Definition _validateEmailParams (to subject message : value)
  : error + (jsstring * jsstring * jsstring) :=
  match to with
  | VStr to' =>
      if negb (truthy to) || negb (_isValidEmail to')
      then inl (Error (str "Invalid recipient email address"))
      else
        match subject with
        | VStr subject' =>
            if negb (truthy subject) || (length (trim subject') =? 0)%nat
            then inl (Error (str "Email subject is required and cannot be empty"))
            else
              match message with
              | VStr message' =>
                  if negb (truthy message) || (length (trim message') =? 0)%nat
                  then inl (Error (str "Email message is required and cannot be empty"))
                  else inr (to', subject', message')
              | _ => inl (Error (str "Email message is required and cannot be empty"))
              end
        | _ => inl (Error (str "Email subject is required and cannot be empty"))
        end
  | _ => inl (Error (str "Invalid recipient email address"))
  end.

(** [_delay(ms)] *)
Definition _delay (ms : Z) : M unit := sleep ms.

(** [_sendEmailWithRetry(emailData)]: one [transporter.sendMail] call,
    the [attempt]-th of the dispatch, answered by [b]. *)
Definition _sendEmailWithRetry (b : backend) (attempt : nat) (d : emailData)
  : M info :=
  t <- read (fun w => svc_transporter (emailService w)) ;;
  match t with
  | None =>
      throw (TypeError (str "Cannot read properties of null (reading 'sendMail')"))
  | Some _ =>
      emit (SendMail attempt d) ;;
      match b attempt d with
      | Replies latency r => sleep (Z.of_N latency) ;; lift r
      | NoReply => never
      end
  end.

(** What [sendEmail] returns. *)
Record sent : Type := mkSent {
  success : bool;
  sent_messageId : jsstring;
  sent_attempt : nat
}.

(** The retry loop of [sendEmail]:
    [for (let attempt = 1; attempt <= this.retryAttempts; attempt++)];
    [remaining] is the number of iterations left.  Leaving the loop
    returns [undefined] ([None]). *)
Fixpoint retry_loop (b : backend) (to subject : jsstring) (d : emailData)
    (remaining attempt : nat) : M (option sent) :=
  match remaining with
  | O => ret None
  | S remaining' =>
      try_catch
        (result <- _sendEmailWithRetry b attempt d ;;
         log info_ (str "Email sent successfully")
           [("to", MStr to); ("subject", MStr subject);
            ("messageId", MStr (messageId result));
            ("attempt", MNum (Z.of_nat attempt))] ;;
         ret (Some (mkSent true (messageId result) attempt)))
        (fun error =>
           log warn (str "Email send attempt " ++ num (Z.of_nat attempt) ++ str " failed")
             [("to", MStr to); ("subject", MStr subject);
              ("error", MStr (message error));
              ("attempt", MNum (Z.of_nat attempt))] ;;
           this <- read emailService ;;
           if (attempt =? retryAttempts this)%nat
           then
             log error_ (str "All email send attempts failed")
               [("to", MStr to); ("subject", MStr subject);
                ("error", MStr (message error));
                ("totalAttempts", MNum (Z.of_nat (retryAttempts this)))] ;;
             throw error
           else
             _delay (retryDelay this * Z.of_nat attempt) ;;
             retry_loop b to subject d remaining' (S attempt))
  end.

(** [process.env.MAIL_FROM || process.env.MAIL_USER] *)
Definition mail_from (e : string -> option jsstring) : option jsstring :=
  match e "MAIL_FROM" with
  | Some (c :: s) => Some (c :: s)
  | _ => e "MAIL_USER"
  end.

(** [sendEmail(to, subject, message)] *)
Definition sendEmail (b : backend) (to subject message : value)
  : M (option sent) :=
  this <- read emailService ;;
  if negb (isInitialized this)
  then throw (Error (str "Email service not initialized. Call initialize() first."))
  else
    p <- lift (_validateEmailParams to subject message) ;;
    let '(to, subject, message) := p in
    e <- read env ;;
    let emailData :=
      mkEmailData (mail_from e) to subject
        (if _isHtmlContent message then message else _convertToHtml message)
        (if _isHtmlContent message then _stripHtml message else message) in
    log info_ (str "Attempting to send email")
      [("to", MStr to); ("subject", MStr subject);
       ("messageLength", MNum (Z.of_nat (length message)))] ;;
    retry_loop b to subject emailData (retryAttempts this) 1.

(** [close()] *)
Definition close : M unit :=
  this <- read emailService ;;
  match svc_transporter this with
  | Some t =>
      match close_method t with
      | Some outcome =>
          try_catch
            (emit TransporterClose ;;
             match outcome with Some e => throw e | None => ret tt end ;;
             log info_ (str "Email service transporter closed") [])
            (fun error =>
               log error_ (str "Error closing email service transporter")
                 [("error", MStr (message error))])
      | None => ret tt
      end
  | None => ret tt
  end.

End EmailService.

(* ================================================================= *)
(** ** src/consumers/notificationConsumer.js *)

Module NotificationConsumer.

(** A record handed over by the broker client; [msg_value] and [key] are
    the buffers read as text ([None] is [null]). *)
Record kafka_message : Type := mkMessage {
  msg_value : option jsstring;
  offset : jsstring;
  timestamp : jsstring;
  key : option jsstring
}.

(** [new NotificationConsumer(consumer)] *)
Definition constructor (consumer : kafka_consumer) : Async.NotificationConsumer :=
  mkNotificationConsumer consumer false 30000.

Definition opt_meta (o : option jsstring) : meta :=
  match o with Some s => MStr s | None => MUndefined end.

Section Handlers.
(** [JSON.parse] *)
Variable JSON_parse : jsstring -> error + value.
(** Which of two callbacks due in the same millisecond runs first. *)
Variable timer_wins_tie : bool.

Definition _generateMessageId (topic : jsstring) (partition : Z)
    (offset : jsstring) : jsstring :=
  topic ++ str "-" ++ num partition ++ str "-" ++ offset.

Definition _parseMessage (message : kafka_message) : M value :=
  try_catch
    (let payload := msg_value message in
     match payload with
     | None | Some [] => throw (Error (str "Message payload is empty or null"))
     | Some payload =>
         messageData <- lift (JSON_parse payload) ;;
         log debug (str "Message parsed successfully")
           [("payload", MStr payload); ("parsedData", MVal messageData)] ;;
         ret messageData
     end)
    (fun error =>
       log error_ (str "Failed to parse message payload")
         [("error", MStr (Js.message error));
          ("payload", opt_meta (msg_value message))] ;;
       throw (Error (str "Invalid JSON payload: " ++ Js.message error))).

Definition requiredFields : list jsstring :=
  [str "to"; str "subject"; str "message"].

(** The loop of [_validateMessage] over the required fields. *)
Fixpoint check_required (messageData : value) (fields : list jsstring)
  : M unit :=
  match fields with
  | [] => ret tt
  | field :: rest =>
      v <- lift (get messageData field) ;;
      if negb (truthy v)
      then throw (Error (str "Missing required field: " ++ field))
      else
        match v with
        | VStr s =>
            if (length (trim s) =? 0)%nat
            then throw (Error (str "Field '" ++ field ++ str "' cannot be empty"))
            else check_required messageData rest
        | _ => throw (Error (str "Field '" ++ field ++ str "' must be a string"))
        end
  end.

(** [_validateMessage(messageData)].  After the loop [messageData.to]
    is a string (lemma [check_required_to_string] below), so the last
    branch is never taken. *)
Definition _validateMessage (messageData : value) : M unit :=
  check_required messageData requiredFields ;;
  to <- lift (get messageData (str "to")) ;;
  match to with
  | VStr to =>
      (if negb (test EmailService.emailRegex to)
       then throw (Error (str "Invalid email address format: " ++ to))
       else ret tt) ;;
      subject <- lift (get messageData (str "subject")) ;;
      message <- lift (get messageData (str "message")) ;;
      log debug (str "Message validation passed")
        [("to", MStr to); ("subject", MVal subject);
         ("messageLength",
           match message with
           | VStr m => MNum (Z.of_nat (length m))
           | _ => MUndefined
           end)]
  | _ => throw (Error (str "Invalid email address format: "))
  end.

(** The call awaited in the [try] block of [_sendEmailWithTimeout]. *)
Definition _sendEmailWithTimeout_try (b : backend) (messageData : value)
  : M (option EmailService.sent) :=
  to <- lift (get messageData (str "to")) ;;
  subject <- lift (get messageData (str "subject")) ;;
  message <- lift (get messageData (str "message")) ;;
  EmailService.sendEmail b to subject message.

Definition timeout_error (this : Async.NotificationConsumer) : error :=
  Error (str "Email sending timeout after "
           ++ num (messageProcessingTimeout this) ++ str "ms").

(** [_sendEmailWithTimeout(messageData)] *)
Definition _sendEmailWithTimeout (this : Async.NotificationConsumer)
    (b : backend) (messageData : value) : M (option EmailService.sent) :=
  with_timeout timer_wins_tie (messageProcessingTimeout this)
    (timeout_error this)
    (_sendEmailWithTimeout_try b messageData).

Definition _handleProcessingError (error : Js.error) (messageId : jsstring)
  : M unit :=
  log error_ (str "Message processing error details")
    [("messageId", MStr messageId);
     ("error.name", MStr (name error));
     ("error.message", MStr (Js.message error))].

(** The first log entry of [_processMessage]. *)
Definition opening_log (topic : jsstring) (partition : Z)
    (message : kafka_message) (messageId : jsstring) : event :=
  Log info_ (str "Processing Kafka message")
    [("messageId", MStr messageId); ("topic", MStr topic);
     ("partition", MNum partition); ("offset", MStr (offset message));
     ("timestamp", MStr (timestamp message));
     ("key", opt_meta (key message))].

(** What the [try] block of [_processMessage] does after that entry. *)
Definition _processMessage_steps (this : Async.NotificationConsumer)
    (b : backend) (message : kafka_message) (messageId : jsstring)
  : M unit :=
  messageData <- _parseMessage message ;;
  _validateMessage messageData ;;
  result <- _sendEmailWithTimeout this b messageData ;;
  to <- lift (get messageData (str "to")) ;;
  subject <- lift (get messageData (str "subject")) ;;
  match result with
  | None =>
      throw (TypeError
               (str "Cannot read properties of undefined (reading 'messageId')"))
  | Some result =>
      log info_ (str "Message processed successfully")
        [("messageId", MStr messageId); ("to", MVal to);
         ("subject", MVal subject);
         ("emailMessageId", MStr (EmailService.sent_messageId result))]
  end.

(** The [try] block of [_processMessage]. *)
Definition _processMessage_try (this : Async.NotificationConsumer)
    (b : backend) (topic : jsstring) (partition : Z)
    (message : kafka_message) (messageId : jsstring) : M unit :=
  emit (opening_log topic partition message messageId) ;;
  _processMessage_steps this b message messageId.

(** The second log entry of the [catch] block, written by
    [_handleProcessingError]. *)
Definition details_log (messageId : jsstring) (error : Js.error) : event :=
  Log error_ (str "Message processing error details")
    [("messageId", MStr messageId);
     ("error.name", MStr (name error));
     ("error.message", MStr (Js.message error))].

(** The log entry of the [catch] block of [_processMessage]. *)
Definition failed_log (topic : jsstring) (partition : Z)
    (message : kafka_message) (messageId : jsstring) (error : Js.error)
  : event :=
  Log error_ (str "Failed to process message")
    [("messageId", MStr messageId); ("topic", MStr topic);
     ("partition", MNum partition); ("offset", MStr (offset message));
     ("error", MStr (Js.message error))].

(** [_processMessage(topic, partition, message)]; [b] is the behaviour
    of the delivery backend while this record is dispatched. *)
Definition _processMessage (this : Async.NotificationConsumer) (b : backend)
    (topic : jsstring) (partition : Z) (message : kafka_message) : M unit :=
  let messageId := _generateMessageId topic partition (offset message) in
  try_catch
    (_processMessage_try this b topic partition message messageId)
    (fun error =>
       emit (failed_log topic partition message messageId error) ;;
       _handleProcessingError error messageId).

(** The [eachMessage] handler under [consumer.run]: the broker client
    hands the records over one at a time, in order, the next one once
    the handler's promise has resolved; a rejection of the handler
    leaves the loop. *)
Fixpoint run (this : Async.NotificationConsumer) (topic : jsstring)
    (partition : Z) (records : list (kafka_message * backend)) : M unit :=
  match records with
  | [] => ret tt
  | (message, b) :: rest =>
      _processMessage this b topic partition message ;;
      run this topic partition rest
  end.
End Handlers.

(** [stop()], on the consumer held by the service. *)
Definition set_isRunning (b : bool) : M unit :=
  update (fun w =>
    let s := notificationService w in
    match notificationConsumer s with
    | Some c =>
        set_notificationService
          (mkNotificationService (ns_consumer s)
             (Some (mkNotificationConsumer (nc_consumer c) b
                      (messageProcessingTimeout c)))
             (isShuttingDown s)) w
    | None => w
    end).

Definition stop : M unit :=
  try_catch
    (log info_ (str "Stopping notification consumer...") [] ;;
     set_isRunning false ;;
     EmailService.close ;;
     log info_ (str "Notification consumer stopped successfully") [])
    (fun error =>
       log error_ (str "Error stopping notification consumer")
         [("error", MStr (Js.message error))] ;;
       throw error).

(** [start(topic)]; [getMailTransporter] is the outcome of
    [getMailTransporter()] and [consumer_run] the outcome of the call
    [this.consumer.run(...)], which hands the [eachMessage] handler to the
    broker client. *)
Definition start (getMailTransporter : error + transporter)
    (consumer_run : option error) (topic : option jsstring) : M unit :=
  try_catch
    (log info_ (str "Starting notification consumer...") [] ;;
     EmailService.initialize getMailTransporter ;;
     set_isRunning true ;;
     match consumer_run with Some e => throw e | None => ret tt end ;;
     log info_ (str "Notification consumer started successfully")
       [("topic", opt_meta topic)])
    (fun error =>
       log error_ (str "Failed to start notification consumer")
         [("error", MStr (message error)); ("topic", opt_meta topic)] ;;
       throw error).

(** [isConsumerRunning()], on the consumer held by the service; [None]
    when the service holds no consumer. *)
Definition isConsumerRunning (w : world) : option bool :=
  option_map isRunning (notificationConsumer (notificationService w)).

End NotificationConsumer.

(* ================================================================= *)
(** ** src/config/kafka.js and src/index.js *)

Module NotificationService.

(** [disconnectConsumer(consumer)] of [src/config/kafka.js] *)
Definition disconnectConsumer (consumer : kafka_consumer) : M unit :=
  try_catch
    (log info_ (str "Disconnecting consumer from Kafka cluster...") [] ;;
     emit ConsumerDisconnect ;;
     match disconnect consumer with Some e => throw e | None => ret tt end ;;
     log info_ (str "Consumer disconnected successfully") [])
    (fun error =>
       log error_ (str "Error disconnecting consumer")
         [("error", MStr (Js.message error))] ;;
       throw error).

(** [new NotificationService()] *)
Definition constructor : Async.NotificationService :=
  mkNotificationService None None false.

Definition set_isShuttingDown (b : bool) : M unit :=
  update (fun w =>
    let s := notificationService w in
    set_notificationService
      (mkNotificationService (ns_consumer s) (notificationConsumer s) b) w).

(** [shutdown()] *)
Definition shutdown : M unit :=
  this <- read notificationService ;;
  if isShuttingDown this
  then
    log warn
      (str "Shutdown already in progress, ignoring duplicate shutdown request") []
  else
    set_isShuttingDown true ;;
    try_catch
      (log info_ (str "Shutting down Email Notification Microservice...") [] ;;
       (match notificationConsumer this with
        | Some _ => NotificationConsumer.stop
        | None => ret tt
        end) ;;
       (match ns_consumer this with
        | Some consumer => disconnectConsumer consumer
        | None => ret tt
        end) ;;
       log info_
         (str "Email Notification Microservice shutdown completed successfully") [])
      (fun error =>
         log error_ (str "Error during shutdown")
           [("error", MStr (Js.message error))]).

(** [createKafkaClient()] of [src/config/kafka.js]; [new_kafka] is the
    outcome of [new Kafka(...)]. *)
Definition createKafkaClient (new_kafka : option error) : M unit :=
  try_catch
    (e <- read env ;;
     match e "KAFKA_BROKER" with
     | None =>
         throw (TypeError
                  (str "Cannot read properties of undefined (reading 'split')"))
     | Some brokers =>
         match new_kafka with Some err => throw err | None => ret tt end ;;
         log info_ (str "Kafka client created successfully")
           [("brokers", MVal (VArr (map VStr (split 44 brokers))));
            ("clientId", MStr (str "email-notification-service"))]
     end)
    (fun error =>
       log error_ (str "Failed to create Kafka client")
         [("error", MStr (message error))] ;;
       throw error).

(** [createConsumer(kafka)] of [src/config/kafka.js]; [made] is the
    outcome of [kafka.consumer(...)]. *)
Definition createConsumer (made : error + kafka_consumer) : M kafka_consumer :=
  try_catch
    (consumer <- lift made ;;
     e <- read env ;;
     log info_ (str "Kafka consumer created successfully")
       [("groupId", NotificationConsumer.opt_meta (e "KAFKA_GROUP_ID"));
        ("topic", NotificationConsumer.opt_meta (e "KAFKA_TOPIC"))] ;;
     ret consumer)
    (fun error =>
       log error_ (str "Failed to create Kafka consumer")
         [("error", MStr (message error))] ;;
       throw error).

(** [connectConsumer(consumer, topic)] of [src/config/kafka.js];
    [connect] and [subscribe] are the outcomes of [consumer.connect()]
    and [consumer.subscribe(...)]. *)
Definition connectConsumer (connect subscribe : option error)
    (consumer : kafka_consumer) (topic : option jsstring)
  : M kafka_consumer :=
  try_catch
    (log info_ (str "Connecting consumer to Kafka cluster...") [] ;;
     match connect with Some e => throw e | None => ret tt end ;;
     log info_ (str "Consumer connected to Kafka cluster successfully") [] ;;
     match subscribe with Some e => throw e | None => ret tt end ;;
     log info_ (str "Consumer subscribed to topic: " ++ template topic) [] ;;
     ret consumer)
    (fun error =>
       log error_ (str "Failed to connect consumer to Kafka")
         [("error", MStr (message error));
          ("topic", NotificationConsumer.opt_meta topic)] ;;
       throw error).

(** What the process meets outside the repository while it starts: the
    outcomes of the calls into the broker client and the mail
    transport. *)
Record externals : Type := mkExternals {
  new_kafka : option error;
  new_consumer : error + kafka_consumer;
  consumer_connect : option error;
  consumer_subscribe : option error;
  mail_transporter : error + transporter;  (* of [getMailTransporter()] *)
  consumer_run : option error
}.

Definition set_consumer (c : option kafka_consumer) : M unit :=
  update (fun w =>
    let s := notificationService w in
    set_notificationService
      (mkNotificationService c (notificationConsumer s) (isShuttingDown s)) w).

Definition set_notificationConsumer (c : option Async.NotificationConsumer)
  : M unit :=
  update (fun w =>
    let s := notificationService w in
    set_notificationService
      (mkNotificationService (ns_consumer s) c (isShuttingDown s)) w).

(** A variable of [process.env] that is set to a non-empty string. *)
Definition env_set (e : string -> option jsstring) (v : string) : bool :=
  match e v with
  | Some (_ :: _) => true
  | _ => false
  end.

Definition requiredEnvVars : list string :=
  ["KAFKA_BROKER"; "KAFKA_GROUP_ID"; "KAFKA_TOPIC"; "EMAIL_PROVIDER"].
Definition smtpRequiredVars : list string :=
  ["MAIL_HOST"; "MAIL_PORT"; "MAIL_USER"; "MAIL_PASS"].
Definition sesRequiredVars : list string :=
  ["AWS_REGION"; "AWS_ACCESS_KEY_ID"; "AWS_SECRET_ACCESS_KEY"].

(** The pattern [_validateEnvironment] applies to each of its three
    lists: [vars.filter(varName => !process.env[varName])], and a throw
    when the result is not empty. *)
Definition require_vars (what : jsstring) (vars : list string) : M unit :=
  e <- read env ;;
  let missingVars := filter (fun varName => negb (env_set e varName)) vars in
  if (0 <? length missingVars)%nat
  then throw (Error (what ++ join (str ", ") (map str missingVars)))
  else ret tt.

Section Startup.
(** [String.prototype.toUpperCase] *)
Variable toUpperCase : jsstring -> jsstring.

(** [process.env.EMAIL_PROVIDER.toUpperCase() === name] *)
Definition provider_is (name : jsstring) : M bool :=
  e <- read env ;;
  match e "EMAIL_PROVIDER" with
  | Some provider => ret (jsstring_eqb (toUpperCase provider) name)
  | None =>
      throw (TypeError
               (str "Cannot read properties of undefined (reading 'toUpperCase')"))
  end.

(** [_validateEnvironment()] *)
Definition _validateEnvironment : M unit :=
  require_vars (str "Missing required environment variables: ")
    requiredEnvVars ;;
  smtp <- provider_is (str "SMTP") ;;
  (if smtp
   then require_vars (str "Missing SMTP environment variables: ")
          smtpRequiredVars
   else ret tt) ;;
  ses <- provider_is (str "SES") ;;
  (if ses
   then require_vars (str "Missing AWS SES environment variables: ")
          sesRequiredVars
   else ret tt) ;;
  log info_ (str "Environment validation passed") [].

(** [start()].  The result is [None] when the method returns and
    [Some code] when it ends the process with [process.exit(code)].
    [_setupGracefulShutdown()] only registers the handlers below. *)
Definition start (x : externals) : M (option Z) :=
  try_catch
    (log info_ (str "Starting Email Notification Microservice...") [] ;;
     _validateEnvironment ;;
     createKafkaClient (new_kafka x) ;;
     consumer <- createConsumer (new_consumer x) ;;
     set_consumer (Some consumer) ;;
     e <- read env ;;
     connectConsumer (consumer_connect x) (consumer_subscribe x) consumer
       (e "KAFKA_TOPIC") ;;
     set_notificationConsumer
       (Some (NotificationConsumer.constructor consumer)) ;;
     NotificationConsumer.start (mail_transporter x) (consumer_run x)
       (e "KAFKA_TOPIC") ;;
     log info_ (str "Email Notification Microservice started successfully")
       [("kafkaBroker", NotificationConsumer.opt_meta (e "KAFKA_BROKER"));
        ("kafkaTopic", NotificationConsumer.opt_meta (e "KAFKA_TOPIC"));
        ("kafkaGroupId", NotificationConsumer.opt_meta (e "KAFKA_GROUP_ID"));
        ("emailProvider", NotificationConsumer.opt_meta (e "EMAIL_PROVIDER"))] ;;
     ret None)
    (fun error =>
       log error_ (str "Failed to start Email Notification Microservice")
         [("error", MStr (message error))] ;;
       shutdown ;;
       ret (Some 1%Z)).

End Startup.



End NotificationService.

(* ================================================================= *)
(** ** src/config/mail.js *)

Module Mail.

(** [createSMTPTransporter()]; [created] is the outcome of
    [nodemailer.createTransport(...)]. *)
Definition createSMTPTransporter (created : error + transporter)
  : M transporter :=
  try_catch
    (transporter <- lift created ;;
     e <- read env ;;
     log info_ (str "SMTP transporter created successfully")
       [("host", NotificationConsumer.opt_meta (e "MAIL_HOST"));
        ("port", NotificationConsumer.opt_meta (e "MAIL_PORT"));
        ("user", NotificationConsumer.opt_meta (e "MAIL_USER"))] ;;
     ret transporter)
    (fun error =>
       log error_ (str "Failed to create SMTP transporter")
         [("error", MStr (message error))] ;;
       throw error).

(** [createSESTransporter()]; [created] is the outcome of the calls into
    the AWS SDK and of [nodemailer.createTransport(...)]. *)
Definition createSESTransporter (created : error + transporter)
  : M transporter :=
  try_catch
    (transporter <- lift created ;;
     e <- read env ;;
     log info_ (str "AWS SES transporter created successfully")
       [("region", NotificationConsumer.opt_meta (e "AWS_REGION"))] ;;
     ret transporter)
    (fun error =>
       log error_ (str "Failed to create AWS SES transporter")
         [("error", MStr (message error))] ;;
       throw error).

Section Provider.
(** [String.prototype.toUpperCase] *)
Variable toUpperCase : jsstring -> jsstring.

(** [getMailTransporter()]; [smtp] and [ses] are what creating each
    transport would give. *)
Definition getMailTransporter (smtp ses : error + transporter)
  : M transporter :=
  e <- read env ;;
  let emailProvider := option_map toUpperCase (e "EMAIL_PROVIDER") in
  log info_ (str "Initializing mail transporter")
    [("provider", NotificationConsumer.opt_meta emailProvider)] ;;
  let default :=
    log warn (str "Unknown email provider, defaulting to SMTP")
      [("provider", NotificationConsumer.opt_meta emailProvider)] ;;
    createSMTPTransporter smtp in
  match emailProvider with
  | Some provider =>
      if jsstring_eqb provider (str "SMTP") then createSMTPTransporter smtp
      else if jsstring_eqb provider (str "SES") then createSESTransporter ses
      else default
  | None => default
  end.
End Provider.

End Mail.

(* ================================================================= *)
(** ** Reading the results: notions the statements below use *)

Module Observe.

(** The [sendMail] calls of a trace: when each was made and as which
    attempt of its dispatch. *)
Fixpoint sends (tr : list (Z * event)) : list (Z * nat) :=
  match tr with
  | [] => []
  | (t, SendMail attempt _) :: rest => (t, attempt) :: sends rest
  | _ :: rest => sends rest
  end.

(** The mails handed to [sendMail] in a trace. *)
Fixpoint mails (tr : list (Z * event)) : list emailData :=
  match tr with
  | [] => []
  | (_, SendMail _ d) :: rest => d :: mails rest
  | _ :: rest => mails rest
  end.

Definition is_log (lv : level) (msg : jsstring) (ev : event) : bool :=
  match ev with
  | Log lv' msg' _ =>
      match lv, lv' with
      | debug, debug | info_, info_ | warn, warn | error_, error_ =>
          jsstring_eqb msg msg'
      | _, _ => false
      end
  | _ => false
  end.

(** How many times a message was logged at a level. *)
Definition count_log (lv : level) (msg : jsstring) (tr : list (Z * event)) : nat :=
  length (filter (fun p => is_log lv msg (snd p)) tr).

Definition is_close (ev : event) : bool :=
  match ev with TransporterClose => true | _ => false end.
Definition is_disconnect (ev : event) : bool :=
  match ev with ConsumerDisconnect => true | _ => false end.

Definition count_event (p : event -> bool) (tr : list (Z * event)) : nat :=
  length (filter (fun e => p (snd e)) tr).

(** The language of a sequence of atoms: the strings it matches in
    full. *)
Definition repeats (q : quantifier) (u : jsstring) : Prop :=
  match q with
  | One => length u = 1%nat
  | Star => True
  | Plus => u <> []
  end.

Fixpoint lang (p : list atom) (s : jsstring) : Prop :=
  match p with
  | [] => s = []
  | a :: p' =>
      exists u v, s = u ++ v
                  /\ Forall (fun c => accepts a c = true) u
                  /\ repeats (quant a) u
                  /\ lang p' v
  end.

(** The address shape in the words of the specification: one or more
    characters that are neither whitespace nor [@], then [@], then one
    or more such characters, then a dot, then one or more such
    characters. *)
Definition plain_char (c : N) : Prop :=
  is_whitespace c = false /\ c <> 64%N.

Definition address_shape (s : jsstring) : Prop :=
  exists local domain tld,
    s = local ++ [64%N] ++ domain ++ [46%N] ++ tld
    /\ local <> [] /\ domain <> [] /\ tld <> []
    /\ Forall plain_char local /\ Forall plain_char domain
    /\ Forall plain_char tld.

(** The value of a property of a decoded object ([undefined] when the
    object has no such property). *)
Definition field_of (props : list (jsstring * value)) (key : jsstring) : value :=
  match own_property props key with Some v => v | None => VUndefined end.

(** A required field that passes the three checks of the validation
    loop: a string that does not trim to the empty string. *)
Definition field_ok (v : value) : bool :=
  match v with
  | VStr s => negb (length (trim s) =? 0)%nat
  | _ => false
  end.

(** The errors of the validation, by kind. *)
Definition MissingField (field : jsstring) : error :=
  Error (str "Missing required field: " ++ field).
Definition WrongType (field : jsstring) : error :=
  Error (str "Field '" ++ field ++ str "' must be a string").
Definition EmptyField (field : jsstring) : error :=
  Error (str "Field '" ++ field ++ str "' cannot be empty").
Definition InvalidAddressFormat (to : jsstring) : error :=
  Error (str "Invalid email address format: " ++ to).

Definition NotInitialized : error :=
  Error (str "Email service not initialized. Call initialize() first.").

(** The mail [sendEmail] builds for a valid request. *)
Definition emailData_for (e : string -> option jsstring)
    (to subject message : jsstring) : emailData :=
  mkEmailData (EmailService.mail_from e) to subject
    (if EmailService._isHtmlContent message then message
     else EmailService._convertToHtml message)
    (if EmailService._isHtmlContent message
     then EmailService._stripHtml message else message).

(** "Newlines converted to [<br>]", and nothing else. *)
Definition newlines_to_br (s : jsstring) : jsstring :=
  replace_all EmailService.newlineRegex (str "<br>") s.

(** The log entries of the retry loop. *)
Definition attempting_log (to subject message : jsstring) : event :=
  Log info_ (str "Attempting to send email")
    [("to", MStr to); ("subject", MStr subject);
     ("messageLength", MNum (Z.of_nat (length message)))].

Definition sent_log (to subject : jsstring) (i : info) (attempt : nat) : event :=
  Log info_ (str "Email sent successfully")
    [("to", MStr to); ("subject", MStr subject);
     ("messageId", MStr (messageId i));
     ("attempt", MNum (Z.of_nat attempt))].

Definition attempt_failed_log (to subject : jsstring) (e : error)
    (attempt : nat) : event :=
  Log warn (str "Email send attempt " ++ num (Z.of_nat attempt) ++ str " failed")
    [("to", MStr to); ("subject", MStr subject);
     ("error", MStr (message e));
     ("attempt", MNum (Z.of_nat attempt))].

Definition all_failed_log (to subject : jsstring) (e : error)
    (totalAttempts : nat) : event :=
  Log error_ (str "All email send attempts failed")
    [("to", MStr to); ("subject", MStr subject);
     ("error", MStr (message e));
     ("totalAttempts", MNum (Z.of_nat totalAttempts))].

(** Each pair of consecutive spaces converted to [&nbsp;&nbsp;]. *)
Definition space_pairs_to_nbsp (s : jsstring) : jsstring :=
  replace_all EmailService.twoSpacesRegex (str "&nbsp;&nbsp;") s.

(** A backend call that has not been answered [ms] milliseconds after it
    was made. *)
Definition exceeds (ms : Z) (r : response) : Prop :=
  match r with
  | Replies latency _ => (ms < Z.of_N latency)%Z
  | NoReply => True
  end.

(** The reading of the timeout as a timeout of each attempt: during a
    dispatch, an attempt that is not answered within the timeout does
    not end the dispatch; unless it was the last one, the next attempt
    is made. *)
Definition each_attempt_has_its_own_timeout (tie : bool)
    (this : Async.NotificationConsumer) (b : backend) (messageData : value)
    (w : world) : Prop :=
  let w' :=
    snd (NotificationConsumer._sendEmailWithTimeout tie this b messageData w) in
  forall attempt t d,
    In (t, SendMail attempt d) (trace w') ->
    exceeds (messageProcessingTimeout this) (b attempt d) ->
    (attempt < retryAttempts (emailService w))%nat ->
    exists t', In (t', SendMail (S attempt) d) (trace w').

(** The world once [_processMessage] has written its first log entry. *)
Definition opened (tp : jsstring) (partition : Z)
    (message : NotificationConsumer.kafka_message) (w : world) : world :=
  set_trace
    (trace w ++
     [(clock w,
       NotificationConsumer.opening_log tp partition message
         (NotificationConsumer._generateMessageId tp partition
            (NotificationConsumer.offset message)))])
    w.

(** The error [e], thrown in the world [wx] while the record was
    processed, was caught by [_processMessage]: the call returns, having
    logged the failure (twice) and done nothing else. *)
Definition caught_and_logged (JSON_parse : jsstring -> error + value)
    (tie : bool) (this : Async.NotificationConsumer) (b : backend)
    (tp : jsstring) (partition : Z)
    (message : NotificationConsumer.kafka_message) (w : world)
    (e : error) (wx : world) : Prop :=
  let messageId :=
    NotificationConsumer._generateMessageId tp partition
      (NotificationConsumer.offset message) in
  NotificationConsumer._processMessage JSON_parse tie this b tp partition
    message w
  = (Resolves tt,
     set_trace
       (trace wx ++
        [(clock wx,
          NotificationConsumer.failed_log tp partition message messageId e);
         (clock wx, NotificationConsumer.details_log messageId e)])
       wx).


(** A computation whose promise always settles. *)
Definition settles {A} (m : M A) : Prop :=
  forall w, fst (m w) <> Never.

(** A computation that only adds events to the trace, each of them
    satisfying [P]. *)
Definition emits {A} (P : event -> Prop) (m : M A) : Prop :=
  forall w, exists evs,
    trace (snd (m w)) = trace w ++ evs
    /\ Forall (fun te => P (snd te)) evs.

End Observe.
Export Observe.

(* ================================================================= *)
(** ** Concrete services, records and backends *)

Module Scenario.

Definition a_transporter : transporter := mkTransporter None (Some None).
Definition a_consumer : kafka_consumer := mkKafkaConsumer None.

(** The process before [start()]. *)
Definition fresh_world : world :=
  mkWorld 0 [] (fun _ => None) EmailService.constructor
    NotificationService.constructor.

(** The process once [emailService.initialize()] has succeeded. *)
Definition ready_world : world :=
  snd (EmailService.initialize (inr a_transporter) fresh_world).


Definition boom : error := Error (str "Connection refused").
Definition accepted : info := mkInfo (str "<1@mail>").

Definition always_failing : backend :=
  fun _ _ => Replies 40 (inl boom).

Definition failing_once : backend :=
  fun attempt _ =>
    match attempt with
    | 1%nat => Replies 40 (inl boom)
    | _ => Replies 25 (inr accepted)
    end.

(** The first call is answered after 31 seconds, the later ones at
    once. *)
Definition slow_first : backend :=
  fun attempt _ =>
    match attempt with
    | 1%nat => Replies 31000 (inr accepted)
    | _ => Replies 5 (inr accepted)
    end.

Definition request (to subject message : value) : value :=
  VObj [(str "to", to); (str "subject", subject); (str "message", message)].

Definition hello : value :=
  request (VStr (str "a@b.com")) (VStr (str "Hi")) (VStr (str "hello")).

(** Records: a number, a blank string and the empty string where the
    recipient should be. *)
Definition zero_to : value :=
  request (VNum 0%float) (VStr (str "Hi")) (VStr (str "hello")).
Definition blank_to : value :=
  request (VStr (str " ")) (VStr (str "Hi")) (VStr (str "hello")).
Definition empty_to : value :=
  request (VStr []) (VStr (str "Hi")) (VStr (str "hello")).
Definition not_an_email : value :=
  request (VStr (str "not-an-email")) (VStr (str "Hi")) (VStr (str "hello")).
Definition two_spaces : value :=
  request (VStr (str "a@b.com")) (VStr (str "Hi")) (VStr (str "a  b")).

(** Payloads, and a [JSON.parse] that knows them. *)
Definition payload_hello : jsstring := str "hello.json".
Definition payload_not_an_email : jsstring := str "not-an-email.json".
Definition payload_garbage : jsstring := str "{to:".

Definition SyntaxError (msg : jsstring) : error :=
  mkError (str "SyntaxError") msg.

Definition parse_known (payload : jsstring) : error + value :=
  if jsstring_eqb payload payload_hello then inr hello
  else if jsstring_eqb payload payload_not_an_email then inr not_an_email
  else inl (SyntaxError (str "Unexpected token t in JSON at position 1")).

Definition record (payload : jsstring) (offset : string) :
  NotificationConsumer.kafka_message :=
  NotificationConsumer.mkMessage (Some payload) (str offset)
    (str "1700000000000") None.

Definition accepting : backend :=
  fun _ _ => Replies 25 (inr accepted).

(** Every call fails after 14.6 seconds. *)
Definition sluggish : backend :=
  fun _ _ => Replies 14600 (inl boom).

(** A transporter whose [verify()] fails. *)
Definition unreachable_transporter : transporter :=
  mkTransporter (Some boom) (Some None).

Definition the_consumer : Async.NotificationConsumer :=
  NotificationConsumer.constructor a_consumer.

Definition topic : jsstring := str "email-notifications".

(** The first call fails after 20 seconds, the second is accepted after
    15 seconds. *)
Definition late_second : backend :=
  fun attempt _ =>
    match attempt with
    | 1%nat => Replies 20000 (inl boom)
    | _ => Replies 15000 (inr accepted)
    end.

(** The properties of [hello]. *)
Definition hello_props : list (jsstring * value) :=
  [(str "to", VStr (str "a@b.com")); (str "subject", VStr (str "Hi"));
   (str "message", VStr (str "hello"))].

(** The process once the consumer has been created, before it is
    started. *)
Definition created_world : world :=
  set_notificationService
    (mkNotificationService (Some a_consumer) (Some the_consumer) false)
    fresh_world.

End Scenario.
Export Scenario.

(* ================================================================= *)
(** ** Further notions: requests, attempts, environments *)

Module Notions.

(** A decoded object that holds a request: its three required fields
    are strings that do not trim to the empty string, and [to] has the
    address shape. *)
Definition valid_request (props : list (jsstring * value))
    (to subject message : jsstring) : Prop :=
  field_of props (str "to") = VStr to
  /\ field_of props (str "subject") = VStr subject
  /\ field_of props (str "message") = VStr message
  /\ trim to <> [] /\ trim subject <> [] /\ trim message <> []
  /\ address_shape to.

(** The log entry of a validation that passes. *)
Definition validation_passed_log (to subject message : jsstring) : event :=
  Log debug (str "Message validation passed")
    [("to", MStr to); ("subject", MVal (VStr subject));
     ("messageLength", MNum (Z.of_nat (length message)))].

(** The log entries of [_parseMessage]. *)
Definition parsed_log (payload : jsstring) (messageData : value) : event :=
  Log debug (str "Message parsed successfully")
    [("payload", MStr payload); ("parsedData", MVal messageData)].


(** The last log entry of a record that was delivered. *)
Definition processed_log (messageId to subject emailMessageId : jsstring)
  : event :=
  Log info_ (str "Message processed successfully")
    [("messageId", MStr messageId); ("to", MVal (VStr to));
     ("subject", MVal (VStr subject));
     ("emailMessageId", MStr emailMessageId)].

(** How the retry loop ended, [last] being the number of its last
    attempt: with the id the backend gave to that attempt, with the
    error of that attempt, which was the last one allowed, or pending on
    that attempt. *)
Definition ended_on (b : backend) (d : emailData) (allowed : nat)
    (last : nat) (c : completion (option EmailService.sent)) : Prop :=
  match c with
  | Resolves (Some sent) =>
      EmailService.success sent = true
      /\ EmailService.sent_attempt sent = last
      /\ exists latency i,
           b last d = Replies latency (inr i)
           /\ EmailService.sent_messageId sent = messageId i
  | Resolves None => False
  | Rejects e => last = allowed /\ exists latency, b last d = Replies latency (inl e)
  | Never => b last d = NoReply
  end.

(** The attempts before [last] all failed. *)
Definition failed_before (b : backend) (d : emailData) (first last : nat)
  : Prop :=
  forall j, (first <= j < last)%nat ->
    exists latency e, b j d = Replies latency (inl e).

(** A string that contains [<] and, later, [>]. *)
Definition has_tag (s : jsstring) : Prop :=
  exists before inside after,
    s = before ++ [60%N] ++ inside ++ [62%N] ++ after.

(** [a] is what is left of [b] once some of its code units are removed:
    the same code units, in the same order. *)
Inductive subsequence : jsstring -> jsstring -> Prop :=
| subsequence_nil : subsequence [] []
| subsequence_drop c a b : subsequence a b -> subsequence a (c :: b)
| subsequence_keep c a b : subsequence a b -> subsequence (c :: a) (c :: b).

(** Two consecutive spaces somewhere in a string. *)
Definition has_space_pair (s : jsstring) : Prop :=
  exists before after, s = before ++ [32%N; 32%N] ++ after.

(** All the variables of a list are set in [process.env]. *)
Definition all_set (e : string -> option jsstring) (vars : list string)
  : Prop :=
  forall v, In v vars -> NotificationService.env_set e v = true.

(** An offset as the broker client gives it: decimal digits. *)
Definition is_digit (c : N) : bool := ((48 <=? c) && (c <=? 57))%N.
Definition digits (s : jsstring) : Prop := forallb is_digit s = true.

(** The error of the validation for a decoded value that is not an
    object: reading a property of [null] throws; any other value has no
    property [to]. *)
Definition non_object_error (messageData : value) : error :=
  match messageData with
  | VUndefined =>
      TypeError (str "Cannot read properties of undefined (reading 'to')")
  | VNull => TypeError (str "Cannot read properties of null (reading 'to')")
  | _ => MissingField (str "to")
  end.

(** The transporter of the email service has a [close] method. *)
Definition has_close (w : world) : bool :=
  match svc_transporter (emailService w) with
  | Some t => match close_method t with Some _ => true | None => false end
  | None => false
  end.

(** A transporter was created and its connection verified. *)
Definition mail_ready (g : error + transporter) : Prop :=
  exists t, g = inr t /\ verify t = None.

Definition verify_failed : error :=
  Error (str "Failed to verify mail transporter connection").

(** The variables of a list that are missing from [process.env], in the
    order of the list. *)
Definition missing_vars (e : string -> option jsstring) (vars : list string)
  : list string :=
  filter (fun v => negb (NotificationService.env_set e v)) vars.

(** The environment [_validateEnvironment] asks for: the four variables
    of the service, and those of the mail provider when it is, in upper
    case, [SMTP] or [SES]. *)
Definition env_valid (toUpperCase : jsstring -> jsstring)
    (e : string -> option jsstring) : Prop :=
  all_set e NotificationService.requiredEnvVars
  /\ (forall provider,
        e "EMAIL_PROVIDER" = Some provider ->
        toUpperCase provider = str "SMTP" ->
        all_set e NotificationService.smtpRequiredVars)
  /\ (forall provider,
        e "EMAIL_PROVIDER" = Some provider ->
        toUpperCase provider = str "SES" ->
        all_set e NotificationService.sesRequiredVars).

Definition env_passed_log : event :=
  Log info_ (str "Environment validation passed") [].

(** The outcome of a call as a completion. *)
Definition outcome_of {A} (g : error + A) : completion A :=
  match g with inl e => Rejects e | inr v => Resolves v end.

(** The process when [index.js] is loaded: nothing has happened, the
    email service and the notification service are new. *)
Definition process_start (e : string -> option jsstring) : world :=
  mkWorld 0 [] e EmailService.constructor NotificationService.constructor.

(** Everything the start of the service calls outside the repository
    succeeds. *)
Definition externals_ok (x : NotificationService.externals) : Prop :=
  NotificationService.new_kafka x = None
  /\ (exists consumer, NotificationService.new_consumer x = inr consumer)
  /\ NotificationService.consumer_connect x = None
  /\ NotificationService.consumer_subscribe x = None
  /\ mail_ready (NotificationService.mail_transporter x)
  /\ NotificationService.consumer_run x = None.

(** [process.env.EMAIL_PROVIDER?.toUpperCase()] is the string [name]. *)
Definition provider_named (toUpperCase : jsstring -> jsstring)
    (e : string -> option jsstring) (name : string) : bool :=
  match option_map toUpperCase (e "EMAIL_PROVIDER") with
  | Some provider => jsstring_eqb provider (str name)
  | None => false
  end.

Definition unknown_provider_log (provider : option jsstring) : event :=
  Log warn (str "Unknown email provider, defaulting to SMTP")
    [("provider", NotificationConsumer.opt_meta provider)].

End Notions.
Export Notions.

(* ================================================================= *)
(** ** The matcher against the language of a pattern *)

Module RegexFacts.

Section Star.
Variable A : Type.
Variable cls : N -> bool.
Variable k : jsstring -> option A.

Lemma star_sound s r :
  star cls k s = Some r ->
  exists u v, s = u ++ v /\ Forall (fun c => cls c = true) u /\ k v = Some r.
Proof.
  induction s as [|c s IH]; simpl.
  - intros H. exists [], []. auto.
  - destruct (cls c) eqn:Hc.
    + destruct (star cls k s) as [r'|] eqn:Hs.
      * intros H. injection H as ->.
        destruct (IH eq_refl) as (u & v & -> & Hu & Hk).
        exists (c :: u), v. repeat split; auto.
      * intros H. exists [], (c :: s). auto.
    + intros H. exists [], (c :: s). auto.
Qed.

Lemma star_complete u : forall v r,
  Forall (fun c => cls c = true) u -> k v = Some r ->
  exists r', star cls k (u ++ v) = Some r'.
Proof.
  induction u as [|c u IH]; intros v r Hu Hk.
  - simpl. destruct v as [|c v]; simpl.
    + eauto.
    + destruct (cls c); [destruct (star cls k v)|]; eauto.
  - inversion Hu as [|? ? Hc Hu']; subst. simpl. rewrite Hc.
    destruct (IH v r Hu' Hk) as [r' ->]. eauto.
Qed.
End Star.

Lemma match_atoms_sound A (p : list atom) : forall (k : jsstring -> option A) s r,
  match_atoms p k s = Some r ->
  exists u v, s = u ++ v /\ lang p u /\ k v = Some r.
Proof.
  induction p as [|a p IH]; intros k s r; simpl.
  - intros H. exists [], s. auto.
  - destruct (quant a) eqn:Hq.
    + destruct s as [|c s]; [discriminate|].
      destruct (accepts a c) eqn:Hc; [|discriminate].
      intros H. destruct (IH _ _ _ H) as (u & v & -> & Hu & Hk).
      exists (c :: u), v. repeat split; auto.
      exists [c], u. repeat split; auto.
    + intros H. destruct (star_sound _ _ _ H) as (u & v & -> & Hu & Hm).
      destruct (IH _ _ _ Hm) as (u' & v' & -> & Hu' & Hk).
      exists (u ++ u'), v'. rewrite app_assoc. repeat split; auto.
      exists u, u'. repeat split; auto.
    + destruct s as [|c s]; [discriminate|].
      destruct (accepts a c) eqn:Hc; [|discriminate].
      intros H. destruct (star_sound _ _ _ H) as (u & v & -> & Hu & Hm).
      destruct (IH _ _ _ Hm) as (u' & v' & -> & Hu' & Hk).
      exists ((c :: u) ++ u'), v'. split; [simpl; now rewrite app_assoc|].
      split; auto.
      exists (c :: u), u'. repeat split; auto. discriminate.
Qed.

Lemma match_atoms_complete A (p : list atom) :
  forall (k : jsstring -> option A) u v r,
  lang p u -> k v = Some r ->
  exists r', match_atoms p k (u ++ v) = Some r'.
Proof.
  induction p as [|a p IH]; intros k u v r; simpl.
  - intros -> Hk. simpl. eauto.
  - intros (u1 & u2 & -> & Hu1 & Hrep & Hu2) Hk.
    rewrite <- app_assoc.
    destruct (IH k u2 v r Hu2 Hk) as [r1 Hr1].
    destruct (quant a) eqn:Hq; simpl in Hrep.
    + destruct u1 as [|c [|c' u1]]; try discriminate.
      inversion Hu1; subst. simpl. rewrite H1. eauto.
    + eapply star_complete; eauto.
    + destruct u1 as [|c u1]; [congruence|].
      inversion Hu1; subst. simpl. rewrite H1.
      eapply star_complete; eauto.
Qed.

(** A pattern anchored at both ends accepts exactly its language. *)
Lemma test_anchored (p : list atom) (s : jsstring) :
  test (mkRegex true p true) s = true <-> lang p s.
Proof.
  unfold test, match_here; simpl. split.
  - destruct (match_atoms _ _ _) as [n|] eqn:H; [|discriminate]. intros _.
    destruct (match_atoms_sound _ _ _ H) as (u & v & -> & Hu & Hk).
    destruct v; [|discriminate]. now rewrite app_nil_r.
  - intros H.
    destruct (match_atoms_complete p
                (fun rest => match rest with
                             | [] => Some (length s - length rest)%nat
                             | _ :: _ => None
                             end) s [] H eq_refl) as [r Hr].
    rewrite app_nil_r in Hr. now rewrite Hr.
Qed.

Lemma not_space_or_at_plain c :
  EmailService.not_space_or_at c = true <-> plain_char c.
Proof.
  unfold EmailService.not_space_or_at, nonchr, chr, plain_char.
  cbn [existsb].
  rewrite orb_false_r, negb_true_iff, orb_false_iff, N.eqb_neq.
  split; intros [Hw Ha]; split; auto; congruence.
Qed.

Lemma Forall_plain u :
  Forall (fun c => EmailService.not_space_or_at c = true) u <-> Forall plain_char u.
Proof.
  split; intros H; eapply Forall_impl; try exact H;
    intros c; apply not_space_or_at_plain.
Qed.

Lemma singleton_chr (c : N) (u : jsstring) :
  Forall (fun x => chr c x = true) u -> length u = 1%nat -> u = [c].
Proof.
  destruct u as [|x [|y u]]; try discriminate. intros H _.
  inversion H as [|? ? Hx _]; subst. unfold chr in Hx.
  apply N.eqb_eq in Hx. now subst.
Qed.

(** The address regex of the sources accepts exactly the address shape
    of the specification. *)
Lemma emailRegex_shape (s : jsstring) :
  test EmailService.emailRegex s = true <-> address_shape s.
Proof.
  unfold EmailService.emailRegex. rewrite test_anchored.
  cbn [lang accepts quant repeats]. split.
  - intros (l & r1 & -> & Hl & Hln & a & r2 & -> & Ha & Han
            & d & r3 & -> & Hd & Hdn & dot & r4 & -> & Hdot & Hdotn
            & t & r5 & -> & Ht & Htn & ->).
    apply singleton_chr in Ha; auto. apply singleton_chr in Hdot; auto. subst.
    exists l, d, t. rewrite app_nil_r.
    rewrite Forall_plain in Hl, Hd, Ht. repeat split; auto.
  - intros (l & d & t & -> & Hl & Hd & Ht & Fl & Fd & Ft).
    rewrite <- Forall_plain in Fl, Fd, Ft.
    exists l, ([64%N] ++ d ++ [46%N] ++ t). repeat split; auto.
    exists [64%N], (d ++ [46%N] ++ t). repeat split; auto.
    exists d, ([46%N] ++ t). repeat split; auto.
    exists [46%N], t. repeat split; auto.
    exists t, []. rewrite app_nil_r. repeat split; auto.
Qed.

End RegexFacts.

(* ================================================================= *)
(** ** Validation of a decoded record *)

Module ValidationFacts.
Import NotificationConsumer.

Ltac run_async :=
  unfold log;
  unfold bind, try_catch, lift, ret, throw, read, update, emit, sleep, never;
  cbn beta iota.

Ltac run_world :=
  unfold set_clock, set_trace, set_emailService, set_notificationService;
  cbn [clock trace env emailService notificationService].

Lemma get_object props key : get (VObj props) key = inr (field_of props key).
Proof. reflexivity. Qed.

Lemma field_ok_truthy v : field_ok v = true -> truthy v = true.
Proof.
  destruct v as [| | | |s| |]; simpl; try discriminate.
  destruct s; [discriminate|reflexivity].
Qed.

Lemma check_required_cons props field rest w :
  check_required (VObj props) (field :: rest) w =
    if negb (truthy (field_of props field))
    then (Rejects (MissingField field), w)
    else match field_of props field with
         | VStr s =>
             if (length (trim s) =? 0)%nat
             then (Rejects (EmptyField field), w)
             else check_required (VObj props) rest w
         | _ => (Rejects (WrongType field), w)
         end.
Proof.
  cbn [check_required]. rewrite get_object. run_async.
  destruct (truthy (field_of props field)); [|reflexivity].
  cbn [negb]. destruct (field_of props field) as [| | | |s| |]; try reflexivity.
  destruct (length (trim s) =? 0)%nat; reflexivity.
Qed.

Lemma check_required_ok props field rest w :
  field_ok (field_of props field) = true ->
  check_required (VObj props) (field :: rest) w =
    check_required (VObj props) rest w.
Proof.
  intros H. rewrite check_required_cons, (field_ok_truthy _ H).
  destruct (field_of props field) as [| | | |s| |]; try discriminate.
  simpl in H. apply negb_true_iff in H. now rewrite H.
Qed.

Lemma check_required_prefix props pre : forall rest w,
  (forall f, In f pre -> field_ok (field_of props f) = true) ->
  check_required (VObj props) (pre ++ rest) w =
    check_required (VObj props) rest w.
Proof.
  induction pre as [|f pre IH]; intros rest w H; [reflexivity|].
  cbn [app]. rewrite check_required_ok by (apply H; now left).
  apply IH. intros g Hg. apply H. now right.
Qed.

(** The loop has no effect and its outcome does not depend on the
    world: it returns or throws in the world it started in. *)
Lemma check_required_pure props fields :
  exists c : completion unit,
    c <> Never /\ forall w, check_required (VObj props) fields w = (c, w).
Proof.
  induction fields as [|f fields IH].
  - exists (Resolves tt). split; [discriminate|reflexivity].
  - destruct IH as (c & Hc & IH).
    pose proof (check_required_cons props f fields) as Hcons.
    revert Hcons.
    destruct (negb (truthy (field_of props f))); intros Hcons.
    { eexists; split; [|intros w; apply Hcons]; discriminate. }
    revert Hcons.
    destruct (field_of props f) as [| | | |s| |]; intros Hcons;
      try (eexists; split; [|intros w; apply Hcons]; discriminate).
    revert Hcons.
    destruct (length (trim s) =? 0)%nat; intros Hcons.
    + eexists; split; [|intros w; apply Hcons]; discriminate.
    + exists c. split; [exact Hc|]. intros w. rewrite Hcons. apply IH.
Qed.

(** A rejection by the loop is the rejection of the validation. *)
Lemma validate_rejected_by_loop props e w :
  check_required (VObj props) requiredFields w = (Rejects e, w) ->
  _validateMessage (VObj props) w = (Rejects e, w).
Proof. intros H. unfold _validateMessage, bind. now rewrite H. Qed.

(** Once the loop has passed, [messageData.to] is a string: the last
    branch of [_validateMessage] is never taken. *)
Lemma check_required_to_string messageData w w' :
  check_required messageData requiredFields w = (Resolves tt, w') ->
  exists s, get messageData (str "to") = inr (VStr s).
Proof.
  unfold requiredFields. cbn [check_required]. unfold bind at 1.
  destruct (get messageData (str "to")) as [e|v]; [discriminate|].
  unfold lift at 1, ret at 1.
  destruct (negb (truthy v)); [discriminate|].
  destruct v as [| | | |s| |]; try discriminate. eauto.
Qed.

Lemma check_required_all_ok props w :
  field_ok (field_of props (str "to")) = true ->
  field_ok (field_of props (str "subject")) = true ->
  field_ok (field_of props (str "message")) = true ->
  check_required (VObj props) requiredFields w = (Resolves tt, w).
Proof.
  intros H1 H2 H3. unfold requiredFields.
  now rewrite !check_required_ok.
Qed.

Lemma validate_after_loop props to w :
  check_required (VObj props) requiredFields w = (Resolves tt, w) ->
  field_of props (str "to") = VStr to ->
  test EmailService.emailRegex to = false ->
  _validateMessage (VObj props) w = (Rejects (InvalidAddressFormat to), w).
Proof.
  intros Hloop Hto Htest. unfold _validateMessage, bind at 1. rewrite Hloop.
  rewrite get_object, Hto. run_async. now rewrite Htest.
Qed.

Lemma kinds_differ field :
  MissingField field <> WrongType field
  /\ MissingField field <> EmptyField field.
Proof. split; discriminate. Qed.

End ValidationFacts.

(* ================================================================= *)
(** ** The retry loop of the email service *)

Module EmailServiceFacts.
Import EmailService.
Import ValidationFacts.

Lemma sends_app tr1 tr2 : sends (tr1 ++ tr2) = sends tr1 ++ sends tr2.
Proof.
  induction tr1 as [|[t ev] tr1 IH]; [reflexivity|].
  destruct ev; simpl; now rewrite ?IH.
Qed.

Lemma mails_app tr1 tr2 : mails (tr1 ++ tr2) = mails tr1 ++ mails tr2.
Proof.
  induction tr1 as [|[t ev] tr1 IH]; [reflexivity|].
  destruct ev; simpl; now rewrite ?IH.
Qed.

Lemma count_log_app lv msg tr1 tr2 :
  count_log lv msg (tr1 ++ tr2)
  = (count_log lv msg tr1 + count_log lv msg tr2)%nat.
Proof. unfold count_log. now rewrite filter_app, length_app. Qed.

Lemma count_event_app p tr1 tr2 :
  count_event p (tr1 ++ tr2) = (count_event p tr1 + count_event p tr2)%nat.
Proof. unfold count_event. now rewrite filter_app, length_app. Qed.

Section Loop.
Variable b : backend.
Variables to subject : jsstring.
Variable d : emailData.
Variable e : string -> option jsstring.
Variable s : Async.EmailService.
Variable n : Async.NotificationService.
Variable t : transporter.
Hypothesis Htransporter : svc_transporter s = Some t.

(** An attempt that succeeds ends the loop. *)
Lemma retry_loop_success remaining attempt c tr latency i :
  b attempt d = Replies latency (inr i) ->
  retry_loop b to subject d (S remaining) attempt (mkWorld c tr e s n) =
    (Resolves (Some (mkSent true (messageId i) attempt)),
     mkWorld (c + Z.of_N latency)
       (tr ++ [(c, SendMail attempt d);
               ((c + Z.of_N latency)%Z, sent_log to subject i attempt)])
       e s n).
Proof.
  intros Hb. cbn [retry_loop]. unfold _sendEmailWithRetry. run_async.
  cbn. rewrite Htransporter, Hb. run_async. run_world.
  now rewrite <- app_assoc.
Qed.

(** A failed attempt that is not the last one is followed by a wait of
    [retryDelay * attempt] and by the next attempt. *)
Lemma retry_loop_retry remaining attempt c tr latency err :
  b attempt d = Replies latency (inl err) ->
  (attempt =? retryAttempts s)%nat = false ->
  retry_loop b to subject d (S remaining) attempt (mkWorld c tr e s n) =
    retry_loop b to subject d remaining (S attempt)
      (mkWorld (c + Z.of_N latency + retryDelay s * Z.of_nat attempt)
         (tr ++ [(c, SendMail attempt d);
                 ((c + Z.of_N latency)%Z,
                  attempt_failed_log to subject err attempt)])
         e s n).
Proof.
  intros Hb Hlast. cbn [retry_loop]. unfold _sendEmailWithRetry, _delay.
  run_async. cbn. rewrite Htransporter, Hb. run_async. run_world.
  rewrite Hlast. now rewrite <- app_assoc.
Qed.

(** The last attempt, when it fails, ends the loop with its error and
    without a wait. *)
Lemma retry_loop_give_up remaining attempt c tr latency err :
  b attempt d = Replies latency (inl err) ->
  (attempt =? retryAttempts s)%nat = true ->
  retry_loop b to subject d (S remaining) attempt (mkWorld c tr e s n) =
    (Rejects err,
     mkWorld (c + Z.of_N latency)
       (tr ++ [(c, SendMail attempt d);
               ((c + Z.of_N latency)%Z,
                attempt_failed_log to subject err attempt);
               ((c + Z.of_N latency)%Z,
                all_failed_log to subject err (retryAttempts s))])
       e s n).
Proof.
  intros Hb Hlast. cbn [retry_loop]. unfold _sendEmailWithRetry.
  run_async. cbn. rewrite Htransporter, Hb. run_async. run_world.
  rewrite Hlast. run_world. now rewrite <- !app_assoc.
Qed.

(** A call the backend never answers leaves the loop pending. *)
Lemma retry_loop_pending remaining attempt c tr :
  b attempt d = NoReply ->
  retry_loop b to subject d (S remaining) attempt (mkWorld c tr e s n) =
    (Never, mkWorld c (tr ++ [(c, SendMail attempt d)]) e s n).
Proof.
  intros Hb. cbn [retry_loop]. unfold _sendEmailWithRetry.
  run_async. cbn. rewrite Htransporter, Hb. run_world. reflexivity.
Qed.
End Loop.

(** [sendEmail] on an initialised service and a valid request: the log
    entry, then the retry loop. *)
Lemma sendEmail_valid b to subject message t' s' m' c tr e s n :
  isInitialized s = true ->
  _validateEmailParams to subject message = inr (t', s', m') ->
  sendEmail b to subject message (mkWorld c tr e s n) =
    retry_loop b t' s' (emailData_for e t' s' m') (retryAttempts s) 1
      (mkWorld c (tr ++ [(c, attempting_log t' s' m')]) e s n).
Proof.
  intros Hi Hv. unfold sendEmail. run_async. cbn. rewrite Hi, Hv. reflexivity.
Qed.

Lemma sendEmail_not_initialized b to subject message w :
  isInitialized (emailService w) = false ->
  sendEmail b to subject message w = (Rejects NotInitialized, w).
Proof.
  intros Hi. unfold sendEmail. run_async. now rewrite Hi.
Qed.

End EmailServiceFacts.

(* ================================================================= *)
(** ** Dispatch: attempts, waits and outcome *)

Module Dispatch.
Import EmailService.
Import ValidationFacts EmailServiceFacts.

(** C10. While the service is not initialised, [sendEmail] throws the
    not-initialised error at once: no [sendMail] call, no retry, no
    other effect.  That is the state of a new service, and the state a
    failed [initialize()] leaves a new service in. *)
Theorem sendEmail_requires_initialize
    (b : backend) (to subject message : value) (w : world) :
  isInitialized (emailService w) = false ->
  sendEmail b to subject message w = (Rejects NotInitialized, w)
  /\ forall (g : error + transporter) (e : error) (w' : world),
       initialize g w = (Rejects e, w') ->
       sendEmail b to subject message w' = (Rejects NotInitialized, w').
Proof.
  intros Hi. split; [now apply sendEmail_not_initialized|].
  intros g e w' Hinit. apply sendEmail_not_initialized.
  destruct w as [c tr ev sv n]. cbn [emailService] in Hi.
  revert Hinit. unfold initialize, set_transporter, set_isInitialized,
    verifyMailTransporter.
  destruct g as [err|tp]; run_async; run_world.
  - intros H. injection H as _ <-. exact Hi.
  - destruct (verify tp) as [verr|]; run_async; run_world; cbn.
    + intros H. injection H as _ <-. exact Hi.
    + discriminate.
Qed.

(** A new service, and a service whose [initialize()] failed because
    the transporter could not be verified. *)
Lemma sendEmail_requires_initialize_witness :
  let failed :=
    snd (initialize (inr unreachable_transporter) fresh_world) in
  sendEmail accepting (VStr (str "a@b.com")) (VStr (str "Hi"))
    (VStr (str "hello")) fresh_world
  = (Rejects NotInitialized, fresh_world)
  /\ sendEmail accepting (VStr (str "a@b.com")) (VStr (str "Hi"))
       (VStr (str "hello")) failed
     = (Rejects NotInitialized, failed).
Proof.
  pose proof (@sendEmail_requires_initialize accepting
                (VStr (str "a@b.com")) (VStr (str "Hi")) (VStr (str "hello"))
                fresh_world eq_refl) as H.
  split.
  - exact (proj1 H).
  - exact (proj2 H (inr unreachable_transporter)
             (Error (str "Failed to verify mail transporter connection"))
             _ eq_refl).
Defined.

End Dispatch.

(* ================================================================= *)
(** ** Settling and the events of a computation, compositionally *)

Module AsyncFacts.
Import ValidationFacts.

Section Settles.
Context {A B : Type}.

Lemma settles_ret (v : A) : settles (ret v).
Proof. intros w. discriminate. Qed.

Lemma settles_throw (e : error) : settles (@throw A e).
Proof. intros w. discriminate. Qed.

Lemma settles_lift (r : error + A) : settles (lift r).
Proof. destruct r; intros w; discriminate. Qed.

Lemma settles_bind (m : M A) (f : A -> M B) :
  settles m -> (forall v, settles (f v)) -> settles (bind m f).
Proof.
  intros Hm Hf w. unfold bind. specialize (Hm w).
  destruct (m w) as [[v|e|] w']; cbn [fst] in *.
  - apply Hf.
  - discriminate.
  - congruence.
Qed.

Lemma settles_try_catch (m : M A) (h : error -> M A) :
  settles m -> (forall e, settles (h e)) -> settles (try_catch m h).
Proof.
  intros Hm Hh w. unfold try_catch. specialize (Hm w).
  destruct (m w) as [[v|e|] w']; cbn [fst] in *.
  - discriminate.
  - apply Hh.
  - congruence.
Qed.

(** A promise guarded by a timer settles whatever its body does. *)
Lemma settles_with_timeout tie ms e (m : M A) :
  settles (with_timeout tie ms e m).
Proof.
  intros w. unfold with_timeout.
  destruct (m w) as [[v|e'|] w']; cbn [fst];
    try destruct (settles_before _ _ _); discriminate.
Qed.
End Settles.

Lemma settles_emit ev : settles (emit ev).
Proof. intros w. discriminate. Qed.

Lemma settles_log lv msg fields : settles (log lv msg fields).
Proof. apply settles_emit. Qed.

Lemma settles_read A (f : world -> A) : settles (read f).
Proof. intros w. discriminate. Qed.

Lemma settles_update f : settles (update f).
Proof. intros w. discriminate. Qed.

Lemma settles_sleep ms : settles (sleep ms).
Proof. intros w. discriminate. Qed.

Section Emits.
Context {A B : Type}.
Variable P : event -> Prop.

Lemma emits_ret (v : A) : emits P (ret v).
Proof. intros w. exists []. now rewrite app_nil_r. Qed.

Lemma emits_throw (e : error) : emits P (@throw A e).
Proof. intros w. exists []. now rewrite app_nil_r. Qed.

Lemma emits_never : emits P (@never A).
Proof. intros w. exists []. now rewrite app_nil_r. Qed.

Lemma emits_lift (r : error + A) : emits P (lift r).
Proof. destruct r; [apply emits_throw|apply emits_ret]. Qed.

Lemma emits_bind (m : M A) (f : A -> M B) :
  emits P m -> (forall v, emits P (f v)) -> emits P (bind m f).
Proof.
  intros Hm Hf w. unfold bind. destruct (Hm w) as (evs & Ht & Hp).
  destruct (m w) as [[v|e|] w']; cbn [snd] in *; eauto.
  destruct (Hf v w') as (evs' & Ht' & Hp').
  exists (evs ++ evs'). rewrite Ht', Ht, app_assoc. split; auto.
  apply Forall_app; auto.
Qed.

Lemma emits_try_catch (m : M A) (h : error -> M A) :
  emits P m -> (forall e, emits P (h e)) -> emits P (try_catch m h).
Proof.
  intros Hm Hh w. unfold try_catch. destruct (Hm w) as (evs & Ht & Hp).
  destruct (m w) as [[v|e|] w']; cbn [snd] in *; eauto.
  destruct (Hh e w') as (evs' & Ht' & Hp').
  exists (evs ++ evs'). rewrite Ht', Ht, app_assoc. split; auto.
  apply Forall_app; auto.
Qed.

Lemma emits_with_timeout tie ms e (m : M A) :
  emits P m -> emits P (with_timeout tie ms e m).
Proof.
  intros Hm w. unfold with_timeout. destruct (Hm w) as (evs & Ht & Hp).
  exists evs. split; auto.
  destruct (m w) as [[v|e'|] w']; cbn [snd] in *;
    try destruct (settles_before _ _ _); exact Ht.
Qed.
End Emits.

Lemma emits_emit P ev : P ev -> emits P (emit ev).
Proof.
  intros H w. exists [(clock w, ev)]. split; [reflexivity|].
  constructor; auto.
Qed.

Lemma emits_log P lv msg fields :
  P (Log lv msg fields) -> emits P (log lv msg fields).
Proof. apply emits_emit. Qed.

Lemma emits_read P A (f : world -> A) : emits P (read f).
Proof. intros w. exists []. now rewrite app_nil_r. Qed.

Lemma emits_sleep P ms : emits P (sleep ms).
Proof. intros w. exists []. now rewrite app_nil_r. Qed.

Lemma emits_update P f :
  (forall w, trace (f w) = trace w) -> emits P (update f).
Proof. intros H w. exists []. cbn. now rewrite H, app_nil_r. Qed.

(** Decomposes a goal [settles m] or [emits P m] along the structure of
    [m], leaving the events to be checked against [P]. *)
Ltac async_structure :=
  repeat first
    [ apply settles_ret | apply settles_throw | apply settles_lift
    | apply settles_log | apply settles_emit | apply settles_read
    | apply settles_sleep | apply settles_update
    | apply settles_with_timeout
    | apply settles_bind; [|intros ?]
    | apply settles_try_catch; [|intros ?]
    | apply emits_ret | apply emits_throw | apply emits_lift
    | apply emits_never | apply emits_read | apply emits_sleep
    | apply emits_log | apply emits_emit
    | apply emits_with_timeout
    | apply emits_bind; [|intros ?]
    | apply emits_try_catch; [|intros ?]
    | match goal with
      | |- settles (if ?c then _ else _) => destruct c
      | |- emits _ (if ?c then _ else _) => destruct c
      | |- settles (match ?x with _ => _ end) => destruct x
      | |- emits _ (match ?x with _ => _ end) => destruct x
      | |- settles (let '(_, _) := ?x in _) => destruct x
      | |- emits _ (let '(_, _) := ?x in _) => destruct x
      end ].

End AsyncFacts.

(* ================================================================= *)
(** ** The per-record step of the consumer *)

Module ConsumerFacts.
Import NotificationConsumer EmailService.
Import ValidationFacts EmailServiceFacts AsyncFacts.

(** Every event of the email service is neither the opening log entry of
    a record nor anything but a log entry or a [sendMail] call. *)
Section Events.
Variable P : event -> Prop.
Hypothesis P_log_warn : forall msg fields, P (Log warn msg fields).
Hypothesis P_log_error : forall msg fields, P (Log error_ msg fields).
Hypothesis P_log_debug : forall msg fields, P (Log debug msg fields).
Hypothesis P_attempting : forall fields,
  P (Log info_ (str "Attempting to send email") fields).
Hypothesis P_sent : forall fields,
  P (Log info_ (str "Email sent successfully") fields).
Hypothesis P_processed : forall fields,
  P (Log info_ (str "Message processed successfully") fields).

Lemma emits_sendEmailWithRetry b attempt d :
  P (SendMail attempt d) ->
  emits P (_sendEmailWithRetry b attempt d).
Proof. intros Hd. unfold _sendEmailWithRetry. async_structure; auto. Qed.

Lemma emits_retry_loop b to subject d remaining :
  (forall attempt, P (SendMail attempt d)) ->
  forall attempt, emits P (retry_loop b to subject d remaining attempt).
Proof.
  intros Hd.
  induction remaining as [|remaining IH]; intros attempt; cbn [retry_loop].
  - apply emits_ret.
  - apply emits_try_catch; [|intros e; apply emits_bind; [|intros _]].
    + apply emits_bind; [now apply emits_sendEmailWithRetry|intros i].
      async_structure; auto.
    + async_structure; auto.
    + apply emits_bind; [apply emits_read|intros this].
      destruct (attempt =? retryAttempts this)%nat.
      * async_structure; auto.
      * unfold _delay. apply emits_bind; [apply emits_sleep|intros _].
        apply IH.
Qed.

Lemma emits_sendEmail b to subject message :
  (forall attempt d, P (SendMail attempt d)) ->
  emits P (sendEmail b to subject message).
Proof.
  intros Hd.
  unfold sendEmail. apply emits_bind; [apply emits_read|intros this].
  destruct (negb (isInitialized this)); [apply emits_throw|].
  apply emits_bind; [apply emits_lift|intros [[t s] m]].
  apply emits_bind; [apply emits_read|intros e].
  apply emits_bind; [apply emits_log; auto|intros _].
  apply emits_retry_loop. auto.
Qed.

Hypothesis P_send : forall attempt d, P (SendMail attempt d).

Lemma emits_sendEmailWithTimeout tie this b md :
  emits P (_sendEmailWithTimeout tie this b md).
Proof.
  unfold _sendEmailWithTimeout, _sendEmailWithTimeout_try.
  apply emits_with_timeout.
  do 3 (apply emits_bind; [apply emits_lift|intros ?]).
  now apply emits_sendEmail.
Qed.

Lemma emits_parseMessage JSON_parse message :
  emits P (_parseMessage JSON_parse message).
Proof. unfold _parseMessage. async_structure; auto. Qed.

Lemma emits_check_required md fields :
  emits P (check_required md fields).
Proof.
  induction fields as [|f fields IH]; cbn [check_required].
  - apply emits_ret.
  - apply emits_bind; [apply emits_lift|intros v].
    destruct (negb (truthy v)); [apply emits_throw|].
    destruct v; try apply emits_throw.
    destruct (length (trim s) =? 0)%nat; [apply emits_throw|apply IH].
Qed.

Lemma emits_validateMessage md : emits P (_validateMessage md).
Proof.
  unfold _validateMessage.
  apply emits_bind; [apply emits_check_required|intros _].
  async_structure; auto.
Qed.

(** What follows the opening log entry in the [try] block, and the
    [catch] block. *)
Lemma emits_processMessage_steps JSON_parse tie this b message messageId :
  emits P (_processMessage_steps JSON_parse tie this b message messageId).
Proof.
  unfold _processMessage_steps.
  apply emits_bind; [apply emits_parseMessage|intros md].
  apply emits_bind; [apply emits_validateMessage|intros _].
  apply emits_bind; [apply emits_sendEmailWithTimeout|intros result].
  async_structure; auto.
Qed.

Lemma emits_catch topic partition message messageId e :
  emits P
    (emit (failed_log topic partition message messageId e) ;;
     _handleProcessingError e messageId).
Proof.
  unfold _handleProcessingError, failed_log. async_structure; auto.
Qed.
End Events.

(** The same, for settling. *)
Lemma settles_check_required md fields : settles (check_required md fields).
Proof.
  induction fields as [|f fields IH]; cbn [check_required].
  - apply settles_ret.
  - apply settles_bind; [apply settles_lift|intros v].
    destruct (negb (truthy v)); [apply settles_throw|].
    destruct v; try apply settles_throw.
    destruct (length (trim s) =? 0)%nat; [apply settles_throw|apply IH].
Qed.

Lemma settles_processMessage_try JSON_parse tie this b topic partition
    message messageId :
  settles (_processMessage_try JSON_parse tie this b topic partition
             message messageId).
Proof.
  unfold _processMessage_try, _processMessage_steps, _parseMessage,
    _validateMessage.
  apply settles_bind; [apply settles_emit|intros _].
  apply settles_bind; [async_structure|intros md].
  apply settles_bind;
    [apply settles_bind; [apply settles_check_required|intros _];
     async_structure|intros _].
  apply settles_bind; [apply settles_with_timeout|intros result].
  async_structure.
Qed.

(** The [catch] block logs twice and returns. *)
Lemma catch_resolves topic partition message messageId e w :
  (emit (failed_log topic partition message messageId e) ;;
   _handleProcessingError e messageId) w =
    (Resolves tt,
     set_trace
       (trace w ++
        [(clock w, failed_log topic partition message messageId e);
         (clock w, details_log messageId e)])
       w).
Proof.
  unfold _handleProcessingError. run_async. run_world.
  now rewrite <- app_assoc.
Qed.

Lemma processMessage_resolves JSON_parse tie this b topic partition message w :
  exists w',
    _processMessage JSON_parse tie this b topic partition message w =
      (Resolves tt, w').
Proof.
  unfold _processMessage, try_catch.
  pose proof (settles_processMessage_try JSON_parse tie this b topic partition
                message
                (_generateMessageId topic partition (offset message)) w) as Hs.
  destruct (_processMessage_try _ _ _ _ _ _ _ _ w) as [[[]|e|] w1];
    cbn [fst] in Hs.
  - eauto.
  - rewrite catch_resolves. eauto.
  - congruence.
Qed.

End ConsumerFacts.

(* ================================================================= *)
(** ** Validation: the claims *)

Module Validation.
Import NotificationConsumer EmailService.
Import RegexFacts ValidationFacts EmailServiceFacts AsyncFacts ConsumerFacts.

(** C4, as the code has it.  For a decoded object and a required field
    whose preceding required fields pass their checks: when the field is
    absent, or holds a falsy value ([null], [false], [0], the empty
    string), the validation throws the missing-field error naming the
    field; when it holds a truthy value that is not a string (a non-zero
    number, [true], an array, an object), the validation throws the
    type-mismatch error naming the field; the two errors differ. *)
Theorem validate_missing_or_wrong_type
    (props : list (jsstring * value)) (pre : list jsstring)
    (field : jsstring) (post : list jsstring) (w : world) :
  requiredFields = pre ++ field :: post ->
  (forall f, In f pre -> field_ok (field_of props f) = true) ->
  (own_property props field = None ->
   _validateMessage (VObj props) w = (Rejects (MissingField field), w))
  /\ (truthy (field_of props field) = false ->
      _validateMessage (VObj props) w = (Rejects (MissingField field), w))
  /\ (truthy (field_of props field) = true ->
      is_string (field_of props field) = false ->
      _validateMessage (VObj props) w = (Rejects (WrongType field), w))
  /\ MissingField field <> WrongType field.
Proof.
  intros Hreq Hpre.
  assert (Hloop : check_required (VObj props) requiredFields w =
                  check_required (VObj props) (field :: post) w).
  { rewrite Hreq. now apply check_required_prefix. }
  rewrite check_required_cons in Hloop.
  assert (Hfalsy : truthy (field_of props field) = false ->
                   _validateMessage (VObj props) w =
                     (Rejects (MissingField field), w)).
  { intros Hf. apply validate_rejected_by_loop.
    now rewrite Hloop, Hf. }
  split; [|split; [exact Hfalsy|split]].
  - intros Habsent. apply Hfalsy. unfold field_of. now rewrite Habsent.
  - intros Ht Hs. apply validate_rejected_by_loop.
    rewrite Hloop, Ht. cbn [negb].
    destruct (field_of props field); try reflexivity; discriminate.
  - apply kinds_differ.
Qed.

(** C5, as the code has it.  For a decoded object and a required field
    whose preceding required fields pass their checks, when the field
    holds a string that trims to the empty string: a string of
    whitespace only is rejected with the empty-field error naming the
    field; the empty string itself is rejected with the missing-field
    error; the two errors differ. *)
Theorem validate_blank_field
    (props : list (jsstring * value)) (pre : list jsstring)
    (field : jsstring) (post : list jsstring) (s : jsstring) (w : world) :
  requiredFields = pre ++ field :: post ->
  (forall f, In f pre -> field_ok (field_of props f) = true) ->
  field_of props field = VStr s ->
  trim s = [] ->
  (s <> [] ->
   _validateMessage (VObj props) w = (Rejects (EmptyField field), w))
  /\ (s = [] ->
      _validateMessage (VObj props) w = (Rejects (MissingField field), w))
  /\ MissingField field <> EmptyField field.
Proof.
  intros Hreq Hpre Hs Htrim.
  assert (Hloop : check_required (VObj props) requiredFields w =
                  check_required (VObj props) (field :: post) w).
  { rewrite Hreq. now apply check_required_prefix. }
  rewrite check_required_cons, Hs, Htrim in Hloop.
  split; [|split].
  - intros Hne. apply validate_rejected_by_loop. rewrite Hloop.
    destruct s; [congruence|reflexivity].
  - intros ->. apply validate_rejected_by_loop. now rewrite Hloop.
  - apply kinds_differ.
Qed.

Lemma not_shape_test (to : jsstring) :
  ~ address_shape to -> test emailRegex to = false.
Proof.
  intros H. destruct (test emailRegex to) eqn:Ht; [|reflexivity].
  now apply emailRegex_shape in Ht.
Qed.

(** Processing a record whose decoded object the validation rejects
    makes no [sendMail] call. *)
Lemma rejected_record_is_not_dispatched JSON_parse tie this b tp partition
    message payload props e w :
  msg_value message = Some payload ->
  JSON_parse payload = inr (VObj props) ->
  (forall w1, _validateMessage (VObj props) w1 = (Rejects e, w1)) ->
  sends (trace (snd (_processMessage JSON_parse tie this b tp partition
                       message w)))
  = sends (trace w).
Proof.
  intros Hv Hp Hrej.
  unfold _processMessage, _processMessage_try, _processMessage_steps,
    _parseMessage, try_catch at 1, bind at 1.
  rewrite Hv. destruct payload as [|c payload].
  - run_async. run_world. unfold _handleProcessingError. run_async.
    run_world. cbn [snd trace]. rewrite <- !app_assoc, !sends_app.
    cbn [sends app]. now rewrite app_nil_r.
  - rewrite Hp. unfold emit at 1. cbn beta iota.
    unfold bind at 1, try_catch at 1, bind at 1, lift at 1, ret at 1.
    unfold bind at 1, log at 1, emit at 1, ret at 1. cbn beta iota.
    unfold bind at 1. rewrite Hrej.
    unfold _handleProcessingError. run_async. run_world. cbn [snd trace].
    rewrite <- !app_assoc, !sends_app. cbn [sends app].
    now rewrite app_nil_r.
Qed.

(** C6, as the code has it.  A decoded object whose [to] is a string
    that does not have the address shape is rejected by the validation,
    and processing its record makes no [sendMail] call; the error is the
    invalid-address error when the three required fields pass the
    checks of the loop, which come first. *)
Theorem validate_rejects_malformed_address
    (props : list (jsstring * value)) (to : jsstring) :
  field_of props (str "to") = VStr to ->
  ~ address_shape to ->
  (forall w, exists e, _validateMessage (VObj props) w = (Rejects e, w))
  /\ (field_ok (field_of props (str "to")) = true ->
      field_ok (field_of props (str "subject")) = true ->
      field_ok (field_of props (str "message")) = true ->
      forall w,
        _validateMessage (VObj props) w = (Rejects (InvalidAddressFormat to), w))
  /\ (forall JSON_parse tie this b tp partition message payload w,
        msg_value message = Some payload ->
        JSON_parse payload = inr (VObj props) ->
        sends (trace (snd (_processMessage JSON_parse tie this b tp partition
                             message w)))
        = sends (trace w)).
Proof.
  intros Hto Hshape. apply not_shape_test in Hshape.
  destruct (check_required_pure props requiredFields) as (c & Hc & Hloop).
  assert (Hall : exists e, forall w,
             _validateMessage (VObj props) w = (Rejects e, w)).
  { destruct c as [[]|e|]; [| |congruence].
    - exists (InvalidAddressFormat to). intros w.
      now apply validate_after_loop.
    - exists e. intros w. now apply validate_rejected_by_loop. }
  destruct Hall as [e Hall].
  split; [intros w; exists e; apply Hall|split].
  - intros H1 H2 H3 w. apply validate_after_loop; auto.
    now apply check_required_all_ok.
  - intros JSON_parse tie this b tp partition message payload w Hv Hp.
    now apply rejected_record_is_not_dispatched
      with (payload := payload) (props := props) (e := e).
Qed.

(** C4 as stated fails: a recipient that is the number 0 is present and
    is not a string, and the validation reports it as missing, not as a
    type mismatch. *)
Lemma zero_is_reported_missing :
  get zero_to (str "to") = inr (VNum 0%float)
  /\ is_string (VNum 0%float) = false
  /\ _validateMessage zero_to fresh_world
     = (Rejects (MissingField (str "to")), fresh_world)
  /\ MissingField (str "to") <> WrongType (str "to").
Proof.
  split; [reflexivity|]. split; [reflexivity|]. split; [reflexivity|].
  discriminate.
Qed.

(** A subject that is the number 5, and a record without subject. *)
Lemma validate_missing_or_wrong_type_witness :
  _validateMessage
    (request (VStr (str "a@b.com")) (VNum 5%float) (VStr (str "hello")))
    fresh_world
  = (Rejects (WrongType (str "subject")), fresh_world)
  /\ _validateMessage
       (VObj [(str "to", VStr (str "a@b.com"));
              (str "message", VStr (str "hello"))])
       fresh_world
     = (Rejects (MissingField (str "subject")), fresh_world).
Proof.
  split.
  - refine (proj1 (proj2 (proj2
      (@validate_missing_or_wrong_type
         [(str "to", VStr (str "a@b.com")); (str "subject", VNum 5%float);
          (str "message", VStr (str "hello"))]
         [str "to"] (str "subject") [str "message"] fresh_world eq_refl _)))
      eq_refl eq_refl).
    intros f [<-|[]]. reflexivity.
  - refine (proj1
      (@validate_missing_or_wrong_type
         [(str "to", VStr (str "a@b.com")); (str "message", VStr (str "hello"))]
         [str "to"] (str "subject") [str "message"] fresh_world eq_refl _)
      eq_refl).
    intros f [<-|[]]. reflexivity.
Defined.

(** C5 as stated fails: a recipient that is the empty string is a
    string that trims to zero length, and the validation reports it as
    missing, not as empty. *)
Lemma empty_string_is_reported_missing :
  get empty_to (str "to") = inr (VStr [])
  /\ length (trim []) = 0%nat
  /\ _validateMessage empty_to fresh_world
     = (Rejects (MissingField (str "to")), fresh_world)
  /\ MissingField (str "to") <> EmptyField (str "to").
Proof.
  split; [reflexivity|]. split; [reflexivity|]. split; [reflexivity|].
  discriminate.
Qed.

(** A subject of three spaces. *)
Lemma validate_blank_field_witness :
  _validateMessage
    (request (VStr (str "a@b.com")) (VStr (str "   ")) (VStr (str "hello")))
    fresh_world
  = (Rejects (EmptyField (str "subject")), fresh_world).
Proof.
  refine (proj1
    (@validate_blank_field
       [(str "to", VStr (str "a@b.com")); (str "subject", VStr (str "   "));
        (str "message", VStr (str "hello"))]
       [str "to"] (str "subject") [str "message"] (str "   ") fresh_world
       eq_refl _ eq_refl eq_refl) _).
  - intros f [<-|[]]. reflexivity.
  - discriminate.
Defined.

(** C6 as stated fails: a recipient of one space is a non-empty string
    without the address shape, and the validation rejects it with the
    empty-field error, not with the invalid-address error. *)
Lemma blank_recipient_is_reported_empty :
  get blank_to (str "to") = inr (VStr (str " "))
  /\ str " " <> []
  /\ test emailRegex (str " ") = false
  /\ ~ address_shape (str " ")
  /\ _validateMessage blank_to fresh_world
     = (Rejects (EmptyField (str "to")), fresh_world)
  /\ EmptyField (str "to") <> InvalidAddressFormat (str " ").
Proof.
  split; [reflexivity|]. split; [discriminate|]. split; [reflexivity|].
  split; [|split; [reflexivity|discriminate]].
  intros H. apply emailRegex_shape in H. discriminate.
Qed.

(** The record [not_an_email]: rejected with the invalid-address error,
    and never dispatched. *)
Lemma validate_rejects_malformed_address_witness :
  _validateMessage not_an_email fresh_world
  = (Rejects (InvalidAddressFormat (str "not-an-email")), fresh_world)
  /\ sends (trace (snd (_processMessage parse_known true the_consumer
                          accepting topic 0
                          (record payload_not_an_email "3") ready_world)))
     = sends (trace ready_world).
Proof.
  assert (Hshape : ~ address_shape (str "not-an-email")).
  { intros H. apply emailRegex_shape in H. discriminate. }
  pose proof (@validate_rejects_malformed_address
                [(str "to", VStr (str "not-an-email"));
                 (str "subject", VStr (str "Hi"));
                 (str "message", VStr (str "hello"))]
                (str "not-an-email") eq_refl Hshape) as (_ & Hfmt & Hsend).
  split.
  - exact (Hfmt eq_refl eq_refl eq_refl fresh_world).
  - exact (Hsend parse_known true the_consumer accepting topic 0%Z
             (record payload_not_an_email "3") payload_not_an_email
             ready_world eq_refl eq_refl).
Defined.

End Validation.

(* ================================================================= *)
(** ** The mail handed to the backend *)

Module Content.
Import EmailService.
Import ValidationFacts EmailServiceFacts.

(** The retry loop hands the same mail to the backend at every attempt,
    at least once and at most [remaining] times. *)
Lemma retry_loop_mails b to subject d e s n tp :
  svc_transporter s = Some tp ->
  forall remaining attempt c tr,
    exists k,
      (k <= remaining)%nat
      /\ (remaining <> 0%nat -> k <> 0%nat)
      /\ mails (trace (snd (retry_loop b to subject d remaining attempt
                              (mkWorld c tr e s n))))
         = mails tr ++ repeat d k.
Proof.
  intros Ht. induction remaining as [|remaining IH]; intros attempt c tr.
  - exists 0%nat. cbn. rewrite app_nil_r. auto.
  - destruct (b attempt d) as [latency [err|i]|] eqn:Hb.
    + destruct (attempt =? retryAttempts s)%nat eqn:Hlast.
      * rewrite retry_loop_give_up with (t := tp) (latency := latency)
          (err := err) by assumption.
        exists 1%nat. cbn [snd trace]. rewrite mails_app.
        repeat split; auto; lia.
      * rewrite retry_loop_retry with (t := tp) (latency := latency)
          (err := err) by assumption.
        edestruct IH as (k & Hk & _ & Hm). rewrite Hm.
        exists (S k). rewrite mails_app, <- app_assoc.
        repeat split; auto; lia.
    + rewrite retry_loop_success with (t := tp) (latency := latency) (i := i)
        by assumption.
      exists 1%nat. cbn [snd trace]. rewrite mails_app.
      repeat split; auto; lia.
    + rewrite retry_loop_pending with (t := tp) by assumption.
      exists 1%nat. cbn [snd trace]. rewrite mails_app.
      repeat split; auto; lia.
Qed.

(** C9, as the code has it.  For a valid request on an initialised
    service, every mail handed to the backend during the dispatch (there
    is at least one, and at most [retryAttempts]) is the same mail [d]:
    when the body contains an HTML tag pattern, its HTML part is the
    body and its text part is the body with the tag patterns stripped;
    otherwise its text part is the body and its HTML part is the body
    with newlines converted to [<br>] and then each pair of consecutive
    spaces converted to [&nbsp;&nbsp;]. *)
Theorem mail_parts
    (b : backend) (to subject message : value) (t s m : jsstring)
    (w : world) (tp : transporter) :
  isInitialized (emailService w) = true ->
  svc_transporter (emailService w) = Some tp ->
  _validateEmailParams to subject message = inr (t, s, m) ->
  exists (d : emailData) (k : nat),
    mails (trace (snd (sendEmail b to subject message w)))
      = mails (trace w) ++ repeat d k
    /\ (k <= retryAttempts (emailService w))%nat
    /\ (retryAttempts (emailService w) <> 0%nat -> k <> 0%nat)
    /\ (if _isHtmlContent m
        then html d = m /\ text d = _stripHtml m
        else text d = m
             /\ html d = space_pairs_to_nbsp (newlines_to_br m)).
Proof.
  destruct w as [c tr e sv n]. cbn [emailService trace].
  intros Hi Ht Hv.
  rewrite sendEmail_valid with (t' := t) (s' := s) (m' := m) by assumption.
  destruct (@retry_loop_mails b t s (emailData_for e t s m) e sv n tp Ht
              (retryAttempts sv) 1%nat
              c (tr ++ [(c, attempting_log t s m)])) as (k & Hk & Hk0 & Hm).
  exists (emailData_for e t s m), k. rewrite Hm, mails_app.
  cbn [mails attempting_log]. rewrite app_nil_r.
  repeat split; auto.
  unfold emailData_for. cbn [html text].
  destruct (_isHtmlContent m); split; reflexivity.
Qed.

(** C9 as stated fails: a plain-text body with two consecutive spaces is
    not sent with "newlines converted to [<br>]" as its HTML part. *)
Lemma two_spaces_become_nbsp :
  let r := sendEmail accepting (VStr (str "a@b.com")) (VStr (str "Hi"))
             (VStr (str "a  b")) ready_world in
  _isHtmlContent (str "a  b") = false
  /\ map html (mails (trace (snd r))) = [str "a&nbsp;&nbsp;b"]
  /\ map text (mails (trace (snd r))) = [str "a  b"]
  /\ newlines_to_br (str "a  b") = str "a  b"
  /\ str "a&nbsp;&nbsp;b" <> newlines_to_br (str "a  b").
Proof.
  cbv zeta. split; [reflexivity|]. split; [reflexivity|].
  split; [reflexivity|]. split; [reflexivity|]. discriminate.
Qed.

(** An HTML body, sent twice by [failing_once]. *)
Lemma mail_parts_witness :
  exists (d : emailData) (k : nat),
    mails (trace (snd (sendEmail failing_once (VStr (str "a@b.com"))
                         (VStr (str "Hi")) (VStr (str "<b>Hi</b> there"))
                         ready_world)))
      = repeat d k
    /\ (k <= 3)%nat /\ k <> 0%nat
    /\ html d = str "<b>Hi</b> there" /\ text d = str "Hi there".
Proof.
  destruct (@mail_parts failing_once (VStr (str "a@b.com")) (VStr (str "Hi"))
              (VStr (str "<b>Hi</b> there")) (str "a@b.com") (str "Hi")
              (str "<b>Hi</b> there") ready_world a_transporter
              eq_refl eq_refl eq_refl) as (d & k & Hm & Hk & Hk0 & Hparts).
  exists d, k. split; [exact Hm|]. split; [exact Hk|].
  split; [apply Hk0; discriminate|]. exact Hparts.
Defined.

End Content.

(* ================================================================= *)
(** ** The timeout of a dispatch *)

Module Timeout.
Import NotificationConsumer EmailService.
Import ValidationFacts EmailServiceFacts AsyncFacts.

Ltac deadline_case :=
  cbn [fst snd];
  split; [discriminate|];
  split; [lia|];
  split; [intros ? ?; first [reflexivity | congruence | exfalso; lia]|];
  split;
    [intros [?|?];
     first [discriminate | exfalso; lia | split; reflexivity]|];
  reflexivity.

(** C1, as the code has it.  The whole dispatch of a record, all its
    attempts and the waits between them, runs under one timer of
    [messageProcessingTimeout] (30 seconds) started with the dispatch.
    The dispatch always settles, no later than the deadline; when
    [sendEmail] settles before the deadline its outcome is the outcome
    of the dispatch; when it settles after the deadline, or never, the
    dispatch is rejected with the timeout error at the deadline, and
    whatever the retry loop does, before or after, is without effect on
    that outcome. *)
Theorem dispatch_has_one_deadline
    (tie : bool) (this : Async.NotificationConsumer) (b : backend)
    (messageData : value) (w : world) :
  let deadline := (clock w + messageProcessingTimeout this)%Z in
  let body := _sendEmailWithTimeout_try b messageData w in
  let r := _sendEmailWithTimeout tie this b messageData w in
  fst r <> Never
  /\ (clock (snd r) <= deadline)%Z
  /\ (fst body <> Never -> (clock (snd body) < deadline)%Z -> r = body)
  /\ (fst body = Never \/ (deadline < clock (snd body))%Z ->
      fst r = Rejects (timeout_error this) /\ clock (snd r) = deadline)
  /\ trace (snd r) = trace (snd body).
Proof.
  cbv zeta. unfold _sendEmailWithTimeout, with_timeout, settles_before.
  destruct (_sendEmailWithTimeout_try b messageData w) as [[v|e|] w1];
    cbn [fst snd].
  3: { unfold set_clock. cbn [fst snd clock trace]. deadline_case. }
  all: destruct (clock w1 <? clock w + messageProcessingTimeout this)%Z eqn:Hlt;
    [apply Z.ltb_lt in Hlt|apply Z.ltb_ge in Hlt]; cbn [orb];
    [deadline_case|];
    destruct ((clock w1 =? clock w + messageProcessingTimeout this)%Z
              && negb tie) eqn:Heq; unfold set_clock;
    cbn [fst snd clock trace];
    [apply andb_true_iff in Heq; destruct Heq as [Heq _];
     apply Z.eqb_eq in Heq|];
    deadline_case.
Qed.

(** C1 as stated fails: the first attempt of [slow_first] is answered
    after 31 seconds.  No second attempt is made, and the dispatch is
    rejected with the timeout error, 30 seconds after it started. *)
Lemma slow_attempt_ends_the_dispatch :
  let r := _sendEmailWithTimeout true the_consumer slow_first hello
             ready_world in
  ~ each_attempt_has_its_own_timeout true the_consumer slow_first hello
      ready_world
  /\ fst r = Rejects (timeout_error the_consumer)
  /\ message (timeout_error the_consumer)
     = str "Email sending timeout after 30000ms"
  /\ clock (snd r) = 30000%Z
  /\ sends (trace (snd r)) = [(0%Z, 1%nat)].
Proof.
  cbv zeta. split; [|repeat split; reflexivity].
  intros H.
  destruct (H 1%nat 0%Z
              (emailData_for (env ready_world) (str "a@b.com") (str "Hi")
                 (str "hello")))
    as [t' Hin].
  - vm_compute. repeat (first [left; reflexivity | right]).
  - vm_compute. reflexivity.
  - vm_compute. lia.
  - vm_compute in Hin.
    repeat (destruct Hin as [Hin|Hin]; [discriminate Hin|]).
    exact Hin.
Qed.

(** The deadline spans the attempts: no call of [sluggish] takes longer
    than 14.6 seconds, and the dispatch is rejected with the timeout
    error while the second one is pending. *)
Example timeout_spans_the_attempts :
  let r := _sendEmailWithTimeout true the_consumer sluggish hello
             ready_world in
  fst r = Rejects (timeout_error the_consumer)
  /\ clock (snd r) = 30000%Z
  /\ sends (trace (snd r))
     = [(0%Z, 1%nat); (15600%Z, 2%nat); (32200%Z, 3%nat)].
Proof. cbv zeta. repeat split; reflexivity. Qed.

(** The dispatch of [slow_first]: [sendEmail] settles after the
    deadline. *)
Lemma dispatch_has_one_deadline_witness :
  let r := _sendEmailWithTimeout false the_consumer slow_first hello
             ready_world in
  fst r = Rejects (timeout_error the_consumer)
  /\ clock (snd r) = 30000%Z.
Proof.
  cbv zeta.
  exact (proj1 (proj2 (proj2 (proj2
           (@dispatch_has_one_deadline false the_consumer slow_first hello
              ready_world))))
           (or_intror eq_refl)).
Defined.

End Timeout.

(* ================================================================= *)
(** ** The consumer loop *)

Module ConsumerLoop.
Import NotificationConsumer EmailService.
Import ValidationFacts EmailServiceFacts AsyncFacts ConsumerFacts.

Lemma count_log_none lv msg evs :
  Forall (fun te => is_log lv msg (snd te) = false) evs ->
  count_log lv msg evs = 0%nat.
Proof.
  unfold count_log. induction 1 as [|te evs Hte _ IH]; [reflexivity|].
  cbn [filter]. now rewrite Hte.
Qed.

Lemma emits_keeps_count A lv msg (m : M A) w :
  emits (fun ev => is_log lv msg ev = false) m ->
  count_log lv msg (trace (snd (m w))) = count_log lv msg (trace w).
Proof.
  intros Hm. destruct (Hm w) as (evs & -> & Hevs).
  rewrite count_log_app, (count_log_none _ _ Hevs). lia.
Qed.

(** The step and the rejection of its [try] block. *)
Lemma processMessage_after_opening JSON_parse tie this b tp partition message w :
  _processMessage JSON_parse tie this b tp partition message w
  = try_catch
      (_processMessage_steps JSON_parse tie this b message
         (_generateMessageId tp partition (offset message)))
      (fun error =>
         emit (failed_log tp partition message
                 (_generateMessageId tp partition (offset message)) error) ;;
         _handleProcessingError error
           (_generateMessageId tp partition (offset message)))
      (opened tp partition message w).
Proof. reflexivity. Qed.

Lemma steps_rejection_caught JSON_parse tie this b tp partition message w e wx :
  _processMessage_steps JSON_parse tie this b message
    (_generateMessageId tp partition (offset message))
    (opened tp partition message w) = (Rejects e, wx) ->
  caught_and_logged JSON_parse tie this b tp partition message w e wx.
Proof.
  intros H. unfold caught_and_logged. cbv zeta.
  rewrite processMessage_after_opening. unfold try_catch at 1. rewrite H.
  apply catch_resolves.
Qed.

(** Each step writes its opening log entry once. *)
Lemma processMessage_opens_once JSON_parse tie this b tp partition message w :
  count_log info_ (str "Processing Kafka message")
    (trace (snd (_processMessage JSON_parse tie this b tp partition message w)))
  = S (count_log info_ (str "Processing Kafka message") (trace w)).
Proof.
  rewrite processMessage_after_opening.
  rewrite emits_keeps_count.
  - unfold opened, set_trace. cbn [trace]. rewrite count_log_app.
    cbn. lia.
  - apply emits_try_catch.
    + apply emits_processMessage_steps; reflexivity.
    + intros e. apply emits_catch; reflexivity.
Qed.

Lemma run_cons JSON_parse tie this tp partition message b rest w :
  run JSON_parse tie this tp partition ((message, b) :: rest) w
  = run JSON_parse tie this tp partition rest
      (snd (_processMessage JSON_parse tie this b tp partition message w)).
Proof.
  cbn [run]. unfold bind.
  destruct (processMessage_resolves JSON_parse tie this b tp partition
              message w) as [w' ->].
  reflexivity.
Qed.

(** C3. Processing a record always returns: an error thrown while the
    record is decoded, validated or dispatched is caught in
    [_processMessage], which logs it and returns.  So the loop of the
    broker client goes through all the records it is given, whatever
    the outcome of each. *)
Theorem record_failures_stay_in_the_step
    (JSON_parse : jsstring -> error + value) (tie : bool)
    (this : Async.NotificationConsumer) (tp : jsstring) (partition : Z) :
  (forall b message w,
     exists w',
       _processMessage JSON_parse tie this b tp partition message w
       = (Resolves tt, w'))
  /\ (forall b message w e w1,
        _parseMessage JSON_parse message (opened tp partition message w)
        = (Rejects e, w1) ->
        caught_and_logged JSON_parse tie this b tp partition message w e w1)
  /\ (forall b message w messageData w1 e w2,
        _parseMessage JSON_parse message (opened tp partition message w)
        = (Resolves messageData, w1) ->
        _validateMessage messageData w1 = (Rejects e, w2) ->
        caught_and_logged JSON_parse tie this b tp partition message w e w2)
  /\ (forall b message w messageData w1 w2 e w3,
        _parseMessage JSON_parse message (opened tp partition message w)
        = (Resolves messageData, w1) ->
        _validateMessage messageData w1 = (Resolves tt, w2) ->
        _sendEmailWithTimeout tie this b messageData w2 = (Rejects e, w3) ->
        caught_and_logged JSON_parse tie this b tp partition message w e w3)
  /\ (forall records w,
        exists w',
          run JSON_parse tie this tp partition records w = (Resolves tt, w')
          /\ count_log info_ (str "Processing Kafka message") (trace w')
             = (count_log info_ (str "Processing Kafka message") (trace w)
                + length records)%nat).
Proof.
  split; [intros; apply processMessage_resolves|].
  split; [|split; [|split]].
  - intros b message w e w1 Hp. apply steps_rejection_caught.
    unfold _processMessage_steps, bind at 1. now rewrite Hp.
  - intros b message w md w1 e w2 Hp Hv. apply steps_rejection_caught.
    unfold _processMessage_steps, bind at 1. rewrite Hp.
    unfold bind at 1. now rewrite Hv.
  - intros b message w md w1 w2 e w3 Hp Hv Hs. apply steps_rejection_caught.
    unfold _processMessage_steps, bind at 1. rewrite Hp.
    unfold bind at 1. rewrite Hv. unfold bind at 1. now rewrite Hs.
  - induction records as [|[message b] rest IH]; intros w.
    + exists w. split; [reflexivity|]. cbn [length]. lia.
    + rewrite run_cons.
      destruct (IH (snd (_processMessage JSON_parse tie this b tp partition
                           message w))) as (w' & Hr & Hc).
      exists w'. split; [exact Hr|].
      rewrite Hc, processMessage_opens_once. cbn [length]. lia.
Qed.

(** A record that is not JSON: the error of the decoding is caught and
    logged; and a batch of three records, the first two of which fail,
    is processed to its end. *)
Lemma record_failures_stay_in_the_step_witness :
  let broken := record payload_garbage "7" in
  caught_and_logged parse_known true the_consumer accepting topic 0 broken
    ready_world
    (Error (str "Invalid JSON payload: Unexpected token t in JSON at position 1"))
    (snd (_parseMessage parse_known broken (opened topic 0 broken ready_world)))
  /\ exists w',
       run parse_known true the_consumer topic 0
         [(broken, accepting);
          (record payload_not_an_email "8", accepting);
          (record payload_hello "9", always_failing)]
         ready_world
       = (Resolves tt, w')
       /\ count_log info_ (str "Processing Kafka message") (trace w') = 3%nat.
Proof.
  cbv zeta.
  pose proof (@record_failures_stay_in_the_step parse_known true the_consumer
                topic 0%Z) as (_ & Hdecode & _ & _ & Hrun).
  split.
  - exact (Hdecode accepting (record payload_garbage "7") ready_world _ _
             eq_refl).
  - exact (Hrun [(record payload_garbage "7", accepting);
                 (record payload_not_an_email "8", accepting);
                 (record payload_hello "9", always_failing)]
             ready_world).
Defined.

End ConsumerLoop.

(* ================================================================= *)
(** ** Shutdown *)

Module Shutdown.
Import NotificationService.
Import ValidationFacts EmailServiceFacts.





End Shutdown.

(* ================================================================= *)
(** ** Requests: what the two validations accept *)

Module RequestFacts.
Import NotificationConsumer EmailService.
Import RegexFacts ValidationFacts EmailServiceFacts.

Lemma field_ok_iff v :
  field_ok v = true <-> exists s, v = VStr s /\ trim s <> [].
Proof.
  split.
  - destruct v as [| | | |s| |]; try discriminate. cbn [field_ok].
    intros H. exists s. split; [reflexivity|].
    destruct (trim s); [discriminate|discriminate].
  - intros (s & -> & Hs). cbn [field_ok].
    destruct (trim s); [congruence|reflexivity].
Qed.

Lemma trim_nil_of_nil s : s = [] -> trim s = [].
Proof. now intros ->. Qed.

(** The loop passes exactly when the three fields pass their checks. *)
Lemma check_required_resolves props w w' :
  check_required (VObj props) requiredFields w = (Resolves tt, w') ->
  field_ok (field_of props (str "to")) = true
  /\ field_ok (field_of props (str "subject")) = true
  /\ field_ok (field_of props (str "message")) = true.
Proof.
  unfold requiredFields. rewrite check_required_cons.
  destruct (negb (truthy (field_of props (str "to")))); [discriminate|].
  destruct (field_of props (str "to")) as [| | | |t| |]; try discriminate.
  cbn [field_ok].
  destruct (length (trim t) =? 0)%nat; [discriminate|].
  rewrite check_required_cons.
  destruct (negb (truthy (field_of props (str "subject")))); [discriminate|].
  destruct (field_of props (str "subject")) as [| | | |s| |];
    try discriminate.
  cbn [field_ok].
  destruct (length (trim s) =? 0)%nat; [discriminate|].
  rewrite check_required_cons.
  destruct (negb (truthy (field_of props (str "message")))); [discriminate|].
  destruct (field_of props (str "message")) as [| | | |m| |];
    try discriminate.
  cbn [field_ok].
  destruct (length (trim m) =? 0)%nat; [discriminate|].
  intros _. repeat split.
Qed.

Lemma valid_request_fields_ok props t s m :
  valid_request props t s m ->
  field_ok (field_of props (str "to")) = true
  /\ field_ok (field_of props (str "subject")) = true
  /\ field_ok (field_of props (str "message")) = true.
Proof.
  intros (Ht & Hs & Hm & Htt & Hts & Htm & _).
  repeat split; apply field_ok_iff; eauto.
Qed.

(** A valid request passes the validation, which logs once. *)
Lemma valid_request_validates props t s m w :
  valid_request props t s m ->
  _validateMessage (VObj props) w
  = (Resolves tt,
     set_trace (trace w ++ [(clock w, validation_passed_log t s m)]) w).
Proof.
  intros Hv. destruct (valid_request_fields_ok Hv) as (H1 & H2 & H3).
  destruct Hv as (Ht & Hs & Hm & _ & _ & _ & Hshape).
  apply emailRegex_shape in Hshape.
  unfold _validateMessage, bind at 1.
  rewrite (check_required_all_ok props w H1 H2 H3).
  rewrite !get_object, Ht, Hs, Hm. run_async. rewrite Hshape.
  reflexivity.
Qed.

(** What passes the validation is a valid request. *)
Lemma validates_valid_request props w w' :
  _validateMessage (VObj props) w = (Resolves tt, w') ->
  exists t s m, valid_request props t s m.
Proof.
  destruct (check_required_pure props requiredFields) as (c & Hc & Hloop).
  unfold _validateMessage, bind at 1. rewrite Hloop.
  destruct c as [[]|e|]; [|discriminate|congruence].
  destruct (check_required_resolves props w (Hloop w)) as (H1 & H2 & H3).
  apply field_ok_iff in H1, H2, H3.
  destruct H1 as (t & Ht & Htt), H2 as (s & Hs & Hts), H3 as (m & Hm & Htm).
  rewrite !get_object, Ht. run_async.
  destruct (test emailRegex t) eqn:Hshape; [|discriminate].
  intros _. exists t, s, m. apply emailRegex_shape in Hshape.
  repeat split; assumption.
Qed.

(** A string of the address shape holds no whitespace. *)
Lemma address_shape_no_whitespace t :
  address_shape t -> Forall (fun c => is_whitespace c = false) t.
Proof.
  intros (l & d & tl & -> & _ & _ & _ & Fl & Fd & Ft).
  repeat (apply Forall_app; split);
    try (eapply Forall_impl; [|eassumption]; intros c [Hc _]; exact Hc);
    repeat constructor.
Qed.

Lemma address_shape_not_nil t : address_shape t -> t <> [].
Proof.
  intros (l & d & tl & -> & Hl & _). destruct l; [congruence|discriminate].
Qed.

Lemma trimStart_no_whitespace t :
  Forall (fun c => is_whitespace c = false) t -> trimStart t = t.
Proof.
  destruct t as [|c t]; [reflexivity|]. intros H.
  inversion H as [|? ? Hc _]; subst. cbn [trimStart]. now rewrite Hc.
Qed.

Lemma trim_no_whitespace t :
  Forall (fun c => is_whitespace c = false) t -> trim t = t.
Proof.
  intros H. unfold trim, trimEnd. rewrite (trimStart_no_whitespace H).
  rewrite trimStart_no_whitespace; [apply rev_involutive|].
  now apply Forall_rev.
Qed.

(** A valid request passes the checks of the email service. *)
Lemma valid_request_params props t s m :
  valid_request props t s m ->
  _validateEmailParams (VStr t) (VStr s) (VStr m) = inr (t, s, m).
Proof.
  intros (_ & _ & _ & _ & Hts & Htm & Hshape).
  pose proof (address_shape_not_nil Hshape) as Hne.
  apply emailRegex_shape in Hshape.
  unfold _validateEmailParams, _isValidEmail. rewrite Hshape.
  destruct t as [|c t]; [congruence|]. cbn [truthy negb orb].
  destruct s as [|cs s]; [now rewrite trim_nil_of_nil in Hts|].
  destruct m as [|cm m]; [now rewrite trim_nil_of_nil in Htm|].
  cbn [truthy negb orb].
  destruct (trim (cs :: s)); [congruence|].
  destruct (trim (cm :: m)); [congruence|]. reflexivity.
Qed.

(** What passes the checks of the email service is a valid request. *)
Lemma params_valid_request props p :
  _validateEmailParams (field_of props (str "to"))
    (field_of props (str "subject")) (field_of props (str "message"))
  = inr p ->
  exists t s m, valid_request props t s m.
Proof.
  unfold _validateEmailParams, _isValidEmail.
  destruct (field_of props (str "to")) as [| | | |t| |] eqn:Eto;
    try discriminate.
  destruct (negb (truthy (VStr t)) || negb (test emailRegex t)) eqn:Ht;
    [discriminate|].
  destruct (field_of props (str "subject")) as [| | | |s| |] eqn:Esubject;
    try discriminate.
  destruct (negb (truthy (VStr s)) || (length (trim s) =? 0)%nat) eqn:Hs;
    [discriminate|].
  destruct (field_of props (str "message")) as [| | | |m| |] eqn:Emessage;
    try discriminate.
  destruct (negb (truthy (VStr m)) || (length (trim m) =? 0)%nat) eqn:Hm;
    [discriminate|].
  intros _. exists t, s, m.
  apply orb_false_iff in Ht, Hs, Hm.
  destruct Ht as [_ Ht], Hs as [_ Hs], Hm as [_ Hm].
  apply negb_false_iff, emailRegex_shape in Ht.
  assert (Htrim : trim t = t)
    by (apply trim_no_whitespace, address_shape_no_whitespace, Ht).
  assert (Hts : trim s <> []) by (intros H; now rewrite H in Hs).
  assert (Htm : trim m <> []) by (intros H; now rewrite H in Hm).
  assert (Htt : trim t <> [])
    by (rewrite Htrim; now apply address_shape_not_nil).
  repeat split; assumption.
Qed.

(** The validation passes on objects only. *)
Lemma non_object_rejected messageData w :
  (forall props, messageData <> VObj props) ->
  _validateMessage messageData w
  = (Rejects (non_object_error messageData), w).
Proof.
  intros H. destruct messageData; try reflexivity. now destruct (H props).
Qed.

Lemma validates_object messageData w w' :
  _validateMessage messageData w = (Resolves tt, w') ->
  exists props, messageData = VObj props.
Proof.
  destruct messageData; try discriminate. eauto.
Qed.

(** On an object the validation passes, logging once, or throws without
    any effect. *)
Lemma validate_object_cases props w :
  (exists t s m, valid_request props t s m)
  \/ (exists e, _validateMessage (VObj props) w = (Rejects e, w)).
Proof.
  destruct (check_required_pure props requiredFields) as (c & Hc & Hloop).
  destruct c as [[]|e|]; [| |congruence].
  - destruct (check_required_resolves props w (Hloop w)) as (H1 & H2 & H3).
    apply field_ok_iff in H1, H2, H3.
    destruct H1 as (t & Ht & Htt), H2 as (s & Hs & Hts), H3 as (m & Hm & Htm).
    destruct (test emailRegex t) eqn:Hshape.
    + left. exists t, s, m. apply emailRegex_shape in Hshape.
      repeat split; assumption.
    + right. exists (InvalidAddressFormat t). now apply validate_after_loop.
  - right. exists e. now apply validate_rejected_by_loop.
Qed.

(** Processing a record whose decoded value the validation rejects, in
    whatever world, makes no [sendMail] call. *)
Lemma rejected_value_is_not_dispatched JSON_parse tie this b tp partition
    message payload messageData e w :
  msg_value message = Some payload ->
  JSON_parse payload = inr messageData ->
  (forall w1, _validateMessage messageData w1 = (Rejects e, w1)) ->
  sends (trace (snd (_processMessage JSON_parse tie this b tp partition
                       message w)))
  = sends (trace w).
Proof.
  intros Hv Hp Hrej.
  unfold _processMessage, _processMessage_try, _processMessage_steps,
    _parseMessage, try_catch at 1, bind at 1.
  rewrite Hv. destruct payload as [|c payload].
  - run_async. run_world. unfold _handleProcessingError. run_async.
    run_world. cbn [snd trace]. rewrite <- !app_assoc, !sends_app.
    cbn [sends app]. now rewrite app_nil_r.
  - rewrite Hp. unfold emit at 1. cbn beta iota.
    unfold bind at 1, try_catch at 1, bind at 1, lift at 1, ret at 1.
    unfold bind at 1, log at 1, emit at 1, ret at 1. cbn beta iota.
    unfold bind at 1. rewrite Hrej.
    unfold _handleProcessingError. run_async. run_world. cbn [snd trace].
    rewrite <- !app_assoc, !sends_app. cbn [sends app].
    now rewrite app_nil_r.
Qed.



Lemma parse_success JSON_parse message c payload messageData w :
  msg_value message = Some (c :: payload) ->
  JSON_parse (c :: payload) = inr messageData ->
  _parseMessage JSON_parse message w
  = (Resolves messageData,
     set_trace
       (trace w ++ [(clock w, parsed_log (c :: payload) messageData)]) w).
Proof.
  intros H He. unfold _parseMessage. rewrite H. run_async. rewrite He.
  reflexivity.
Qed.

(** The request [hello] is valid. *)
Lemma hello_is_valid :
  valid_request hello_props (str "a@b.com") (str "Hi") (str "hello").
Proof.
  repeat split; try reflexivity; try discriminate.
  apply emailRegex_shape. reflexivity.
Qed.

End RequestFacts.

Module Requests.
Import NotificationConsumer EmailService.
Import RegexFacts ValidationFacts EmailServiceFacts RequestFacts.

(** X1. The validation of a decoded object passes exactly on the valid
    requests: the three required fields are strings that do not trim to
    the empty string and [to] has the address shape.  When it passes it
    writes one debug log entry and does nothing else; when it does not,
    it throws and has no effect at all. *)
Theorem validation_accepts_exactly_valid_requests
    (props : list (jsstring * value)) (w : world) :
  ((exists w', _validateMessage (VObj props) w = (Resolves tt, w'))
   <-> exists t s m, valid_request props t s m)
  /\ (forall t s m,
        valid_request props t s m ->
        _validateMessage (VObj props) w
        = (Resolves tt,
           set_trace (trace w ++ [(clock w, validation_passed_log t s m)]) w))
  /\ ((forall t s m, ~ valid_request props t s m) ->
      exists e, _validateMessage (VObj props) w = (Rejects e, w)).
Proof.
  split; [split|split].
  - intros [w' H]. now apply validates_valid_request in H.
  - intros (t & s & m & H). eexists. apply (valid_request_validates w H).
  - intros t s m H. apply (valid_request_validates w H).
  - intros H. destruct (validate_object_cases props w)
      as [(t & s & m & Hv)|He]; [now destruct (H t s m)|exact He].
Qed.

(** X2. The consumer and the email service validate alike: a decoded
    object passes [_validateMessage] exactly when its three fields pass
    [_validateEmailParams]; so a record that was validated is never
    refused by the checks [sendEmail] makes on its parameters. *)
Theorem both_validations_accept_the_same_requests
    (props : list (jsstring * value)) (w : world) :
  ((exists w', _validateMessage (VObj props) w = (Resolves tt, w'))
   <-> exists p,
         _validateEmailParams (field_of props (str "to"))
           (field_of props (str "subject")) (field_of props (str "message"))
         = inr p)
  /\ (forall messageData w',
        _validateMessage messageData w = (Resolves tt, w') ->
        exists t s m,
          get messageData (str "to") = inr (VStr t)
          /\ get messageData (str "subject") = inr (VStr s)
          /\ get messageData (str "message") = inr (VStr m)
          /\ _validateEmailParams (VStr t) (VStr s) (VStr m) = inr (t, s, m)).
Proof.
  split; [split|].
  - intros [w' H]. apply validates_valid_request in H.
    destruct H as (t & s & m & H). exists (t, s, m).
    pose proof (valid_request_params H) as Hp.
    destruct H as (-> & -> & -> & _). exact Hp.
  - intros [p H]. apply params_valid_request in H.
    destruct H as (t & s & m & H). eexists.
    apply (valid_request_validates w H).
  - intros md w' H. destruct (validates_object _ _ H) as [props' ->].
    apply validates_valid_request in H. destruct H as (t & s & m & H).
    exists t, s, m. pose proof (valid_request_params H) as Hp.
    destruct H as (Ht & Hs & Hm & _).
    rewrite !get_object, Ht, Hs, Hm. repeat split. exact Hp.
Qed.

(** X3. A payload that decodes to something else than an object (an
    array, a string, a number, a boolean, [null]) is rejected by the
    validation without any effect, as a missing [to] or, for [null],
    with the [TypeError] of the property read; processing its record
    makes no [sendMail] call. *)
Theorem non_object_values_are_rejected
    (JSON_parse : jsstring -> error + value) (tie : bool)
    (this : Async.NotificationConsumer) (b : backend) (tp : jsstring)
    (partition : Z) (message : kafka_message) (payload : jsstring)
    (messageData : value) (w : world) :
  msg_value message = Some payload ->
  JSON_parse payload = inr messageData ->
  (forall props, messageData <> VObj props) ->
  (forall w1,
     _validateMessage messageData w1
     = (Rejects (non_object_error messageData), w1))
  /\ sends (trace (snd (_processMessage JSON_parse tie this b tp partition
                          message w)))
     = sends (trace w).
Proof.
  intros Hv Hp Hno.
  assert (Hrej : forall w1,
             _validateMessage messageData w1
             = (Rejects (non_object_error messageData), w1))
    by (intros w1; now apply non_object_rejected).
  split; [exact Hrej|].
  now apply rejected_value_is_not_dispatched
    with (payload := payload) (messageData := messageData)
         (e := non_object_error messageData).
Qed.

(** A payload that decodes to [null]. *)
Lemma non_object_values_are_rejected_witness :
  _validateMessage VNull fresh_world
  = (Rejects (TypeError (str "Cannot read properties of null (reading 'to')")),
     fresh_world)
  /\ sends (trace (snd (_processMessage (fun _ => inr VNull) true the_consumer
                          accepting topic 0 (record (str "null") "4")
                          ready_world)))
     = sends (trace ready_world).
Proof.
  assert (Hno : forall props, VNull <> VObj props) by discriminate.
  pose proof (@non_object_values_are_rejected
                (fun _ => inr VNull) true the_consumer accepting topic 0%Z
                (record (str "null") "4") (str "null") VNull ready_world
                eq_refl eq_refl Hno) as [Hrej Hsends].
  split; [exact (Hrej fresh_world)|exact Hsends].
Defined.


End Requests.

(* ================================================================= *)
(** ** Dispatch under any backend, and from record to outcome *)

Module DeliveryFacts.
Import NotificationConsumer EmailService.
Import RegexFacts ValidationFacts EmailServiceFacts RequestFacts.

Lemma sent_attempts_app tr1 tr2 :
  map snd (sends (tr1 ++ tr2)) = map snd (sends tr1) ++ map snd (sends tr2).
Proof. now rewrite sends_app, map_app. Qed.

(** The retry loop, from attempt [attempt] on, whatever the backend
    does: it makes the attempts [attempt], [attempt + 1], ... one after
    the other, each but the last one failing, and ends on the last. *)
Lemma retry_loop_attempts b to subject d e s n tp :
  svc_transporter s = Some tp ->
  forall remaining attempt c tr,
    (attempt + remaining = S (retryAttempts s))%nat ->
    remaining <> 0%nat ->
    let r := retry_loop b to subject d remaining attempt (mkWorld c tr e s n) in
    exists k,
      k <> 0%nat /\ (k <= remaining)%nat
      /\ map snd (sends (trace (snd r))) = map snd (sends tr) ++ seq attempt k
      /\ failed_before b d attempt (attempt + k - 1)
      /\ ended_on b d (retryAttempts s) (attempt + k - 1) (fst r).
Proof.
  intros Ht. induction remaining as [|remaining IH];
    intros attempt c tr Hsum Hne; [congruence|]. cbv zeta.
  destruct (b attempt d) as [latency [err|i]|] eqn:Hb.
  - destruct (attempt =? retryAttempts s)%nat eqn:Hlast.
    + rewrite retry_loop_give_up with (t := tp) (latency := latency)
        (err := err) by assumption.
      exists 1%nat. cbn [fst snd trace].
      replace (attempt + 1 - 1)%nat with attempt by lia.
      split; [discriminate|]. split; [lia|]. split; [|split].
      * rewrite sent_attempts_app. reflexivity.
      * intros j Hj. lia.
      * cbn [ended_on]. apply Nat.eqb_eq in Hlast. split; [exact Hlast|].
        eauto.
    + apply Nat.eqb_neq in Hlast.
      rewrite retry_loop_retry with (t := tp) (latency := latency)
        (err := err) by (assumption || now apply Nat.eqb_neq).
      edestruct (IH (S attempt)) as (k & Hk0 & Hk & Hs & Hf & He);
        [lia|lia|].
      exists (S k). split; [discriminate|]. split; [lia|].
      replace (attempt + S k - 1)%nat with (S attempt + k - 1)%nat by lia.
      split; [|split].
      * rewrite Hs, sent_attempts_app, <- app_assoc. reflexivity.
      * intros j Hj. destruct (Nat.eq_dec j attempt) as [->|Hja].
        -- eauto.
        -- apply Hf. lia.
      * exact He.
  - rewrite retry_loop_success with (t := tp) (latency := latency) (i := i)
      by assumption.
    exists 1%nat. cbn [fst snd trace].
    replace (attempt + 1 - 1)%nat with attempt by lia.
    split; [discriminate|]. split; [lia|]. split; [|split].
    + rewrite sent_attempts_app. reflexivity.
    + intros j Hj. lia.
    + cbn [ended_on success sent_attempt sent_messageId]. eauto 6.
  - rewrite retry_loop_pending with (t := tp) by assumption.
    exists 1%nat. cbn [fst snd trace].
    replace (attempt + 1 - 1)%nat with attempt by lia.
    split; [discriminate|]. split; [lia|]. split; [|split].
    + rewrite sent_attempts_app. reflexivity.
    + intros j Hj. lia.
    + exact Hb.
Qed.

(** The timer against a body whose end is known. *)
Lemma with_timeout_in_time A tie ms err (m : M A) w c w' :
  m w = (c, w') -> c <> Never -> (clock w' < clock w + ms)%Z ->
  with_timeout tie ms err m w = (c, w').
Proof.
  intros Hm Hc Hlt. unfold with_timeout, settles_before. rewrite Hm.
  apply Z.ltb_lt in Hlt. rewrite Hlt. cbn [orb].
  destruct c; congruence.
Qed.

Lemma with_timeout_too_late A tie ms err (m : M A) w c w' :
  m w = (c, w') -> (clock w + ms < clock w')%Z ->
  with_timeout tie ms err m w = (Rejects err, set_clock (clock w + ms) w').
Proof.
  intros Hm Hlt. unfold with_timeout, settles_before. rewrite Hm.
  assert (H1 : (clock w' <? clock w + ms)%Z = false) by (apply Z.ltb_ge; lia).
  assert (H2 : (clock w' =? clock w + ms)%Z = false) by (apply Z.eqb_neq; lia).
  rewrite H1, H2. cbn [orb andb]. destruct c; reflexivity.
Qed.

(** The dispatch of a valid request is [sendEmail] on its fields. *)
Lemma dispatch_of_valid_request b props t s m w :
  valid_request props t s m ->
  _sendEmailWithTimeout_try b (VObj props) w
  = sendEmail b (VStr t) (VStr s) (VStr m) w.
Proof.
  intros (Ht & Hs & Hm & _). unfold _sendEmailWithTimeout_try.
  rewrite !get_object, Ht, Hs, Hm. reflexivity.
Qed.

(** The steps of a record that decodes to a valid request, up to the
    dispatch. *)
Lemma steps_of_valid_record JSON_parse tie this b message messageId
    c payload props t s m w :
  msg_value message = Some (c :: payload) ->
  JSON_parse (c :: payload) = inr (VObj props) ->
  valid_request props t s m ->
  _processMessage_steps JSON_parse tie this b message messageId w
  = (result <- _sendEmailWithTimeout tie this b (VObj props) ;;
     match result with
     | None =>
         throw (TypeError
                  (str "Cannot read properties of undefined (reading 'messageId')"))
     | Some result =>
         emit (processed_log messageId t s (sent_messageId result))
     end)
      (set_trace
         (trace w ++
          [(clock w, parsed_log (c :: payload) (VObj props));
           (clock w, validation_passed_log t s m)])
         w).
Proof.
  intros Hv Hp Hvalid. unfold _processMessage_steps, bind at 1.
  rewrite (parse_success JSON_parse message w Hv Hp).
  unfold bind at 1. rewrite (valid_request_validates _ Hvalid).
  destruct Hvalid as (Ht & Hs & Hm & _).
  unfold set_trace. cbn [clock trace env emailService notificationService].
  rewrite <- app_assoc. cbn [app].
  unfold bind.
  destruct (_sendEmailWithTimeout tie this b (VObj props) _)
    as [[[sent|]|e|] w3]; try reflexivity;
    rewrite !get_object, Ht, Hs; reflexivity.
Qed.

(** [sendEmail] on a valid request, for three backends. *)
Section Outcomes.
Variable b : backend.
Variables t s m : jsstring.
Variable c : Z.
Variable tr : list (Z * event).
Variable e : string -> option jsstring.
Variable sv : Async.EmailService.
Variable n : Async.NotificationService.
Variable tp : transporter.
Hypothesis Hinit : isInitialized sv = true.
Hypothesis Htransporter : svc_transporter sv = Some tp.
Hypothesis Hparams : _validateEmailParams (VStr t) (VStr s) (VStr m) = inr (t, s, m).

Let d := emailData_for e t s m.

Lemma sendEmail_first_accepted latency i :
  retryAttempts sv <> 0%nat ->
  b 1%nat d = Replies latency (inr i) ->
  sendEmail b (VStr t) (VStr s) (VStr m) (mkWorld c tr e sv n)
  = (Resolves (Some (mkSent true (messageId i) 1)),
     mkWorld (c + Z.of_N latency)
       (tr ++ [(c, attempting_log t s m); (c, SendMail 1 d);
               ((c + Z.of_N latency)%Z, sent_log t s i 1)])
       e sv n).
Proof.
  intros Hn Hb.
  rewrite sendEmail_valid with (t' := t) (s' := s) (m' := m) by assumption.
  destruct (retryAttempts sv) as [|r]; [congruence|].
  rewrite retry_loop_success with (t := tp) (latency := latency) (i := i)
    by assumption.
  now rewrite <- app_assoc.
Qed.

Lemma sendEmail_second_accepted l1 l2 e1 i2 :
  retryAttempts sv = 3%nat -> retryDelay sv = 1000%Z ->
  b 1%nat d = Replies l1 (inl e1) ->
  b 2%nat d = Replies l2 (inr i2) ->
  sendEmail b (VStr t) (VStr s) (VStr m) (mkWorld c tr e sv n)
  = (Resolves (Some (mkSent true (messageId i2) 2)),
     mkWorld (c + Z.of_N l1 + 1000 + Z.of_N l2)
       (tr ++ [(c, attempting_log t s m); (c, SendMail 1 d);
               ((c + Z.of_N l1)%Z, attempt_failed_log t s e1 1);
               ((c + Z.of_N l1 + 1000)%Z, SendMail 2 d);
               ((c + Z.of_N l1 + 1000 + Z.of_N l2)%Z, sent_log t s i2 2)])
       e sv n).
Proof.
  intros Hn Hd H1 H2.
  rewrite sendEmail_valid with (t' := t) (s' := s) (m' := m) by assumption.
  rewrite Hn.
  rewrite retry_loop_retry with (t := tp) (latency := l1) (err := e1)
    by (assumption || now rewrite Hn).
  rewrite retry_loop_success with (t := tp) (latency := l2) (i := i2)
    by assumption.
  rewrite Hd, <- !app_assoc. cbn [app].
  replace (1000 * Z.of_nat 1)%Z with 1000%Z by reflexivity.
  reflexivity.
Qed.

Lemma sendEmail_three_failures l1 l2 l3 e1 e2 e3 :
  retryAttempts sv = 3%nat -> retryDelay sv = 1000%Z ->
  b 1%nat d = Replies l1 (inl e1) ->
  b 2%nat d = Replies l2 (inl e2) ->
  b 3%nat d = Replies l3 (inl e3) ->
  let t1 := (c + Z.of_N l1)%Z in
  let t2 := (t1 + 1000 + Z.of_N l2)%Z in
  let t3 := (t2 + 2000 + Z.of_N l3)%Z in
  sendEmail b (VStr t) (VStr s) (VStr m) (mkWorld c tr e sv n)
  = (Rejects e3,
     mkWorld t3
       (tr ++ [(c, attempting_log t s m); (c, SendMail 1 d);
               (t1, attempt_failed_log t s e1 1);
               ((t1 + 1000)%Z, SendMail 2 d);
               (t2, attempt_failed_log t s e2 2);
               ((t2 + 2000)%Z, SendMail 3 d);
               (t3, attempt_failed_log t s e3 3);
               (t3, all_failed_log t s e3 3)])
       e sv n).
Proof.
  intros Hn Hd H1 H2 H3. cbv zeta.
  rewrite sendEmail_valid with (t' := t) (s' := s) (m' := m) by assumption.
  rewrite Hn.
  rewrite retry_loop_retry with (t := tp) (latency := l1) (err := e1)
    by (assumption || now rewrite Hn).
  rewrite retry_loop_retry with (t := tp) (latency := l2) (err := e2)
    by (assumption || now rewrite Hn).
  rewrite retry_loop_give_up with (t := tp) (latency := l3) (err := e3)
    by (assumption || now rewrite Hn).
  rewrite Hd, Hn, <- !app_assoc. cbn [app].
  replace (1000 * Z.of_nat 1)%Z with 1000%Z by reflexivity.
  replace (1000 * Z.of_nat 2)%Z with 2000%Z by reflexivity.
  reflexivity.
Qed.
End Outcomes.

End DeliveryFacts.

(* ================================================================= *)
(** ** The retries of a dispatch *)

Module Retries.
Import NotificationConsumer EmailService.
Import RegexFacts ValidationFacts EmailServiceFacts RequestFacts DeliveryFacts.

(** C2, as the code has it.  The dispatch of a valid request on an
    initialised service whose backend fails the three calls.  The retry
    loop of [sendEmail] makes exactly three [sendMail] calls, the second
    1000 ms after the first failure and the third 2000 ms after the
    second failure, throws the error of the third call at the moment
    that call fails (no wait follows it) and records 3 attempts.  The
    dispatch, [_sendEmailWithTimeout], is rejected with that error at
    that moment when the three calls and the two waits end within its
    timeout; when they end after it, the dispatch is rejected with the
    timeout error at the deadline, the three calls being made all the
    same. *)
Theorem dispatch_all_attempts_fail
    (tie : bool) (this : Async.NotificationConsumer) (b : backend)
    (props : list (jsstring * value)) (t s m : jsstring) (w : world)
    (tp : transporter) (l1 l2 l3 : N) (e1 e2 e3 : error) :
  valid_request props t s m ->
  isInitialized (emailService w) = true ->
  svc_transporter (emailService w) = Some tp ->
  retryAttempts (emailService w) = 3%nat ->
  retryDelay (emailService w) = 1000%Z ->
  b 1%nat (emailData_for (env w) t s m) = Replies l1 (inl e1) ->
  b 2%nat (emailData_for (env w) t s m) = Replies l2 (inl e2) ->
  b 3%nat (emailData_for (env w) t s m) = Replies l3 (inl e3) ->
  let t1 := (clock w + Z.of_N l1)%Z in
  let t2 := (t1 + 1000 + Z.of_N l2)%Z in
  let t3 := (t2 + 2000 + Z.of_N l3)%Z in
  let deadline := (clock w + messageProcessingTimeout this)%Z in
  let body := sendEmail b (VStr t) (VStr s) (VStr m) w in
  let r := _sendEmailWithTimeout tie this b (VObj props) w in
  fst body = Rejects e3
  /\ clock (snd body) = t3
  /\ sends (trace (snd r)) =
       sends (trace w) ++ [(clock w, 1%nat); ((t1 + 1000)%Z, 2%nat);
                           ((t2 + 2000)%Z, 3%nat)]
  /\ In (t3, all_failed_log t s e3 3) (trace (snd r))
  /\ ((t3 < deadline)%Z -> fst r = Rejects e3 /\ clock (snd r) = t3)
  /\ ((deadline < t3)%Z ->
      fst r = Rejects (timeout_error this) /\ clock (snd r) = deadline).
Proof.
  intros Hvalid. pose proof (valid_request_params Hvalid) as Hparams.
  destruct w as [c tr e sv n]. cbn [emailService env trace clock].
  intros Hi Ht Hn Hd H1 H2 H3. cbv zeta.
  pose proof (@sendEmail_three_failures b t s m c tr e sv n tp Hi Ht Hparams
                l1 l2 l3 e1 e2 e3 Hn Hd H1 H2 H3) as Hbody.
  cbv zeta in Hbody. rewrite Hbody. cbn [fst snd clock].
  rewrite <- (dispatch_of_valid_request b _ Hvalid) in Hbody.
  unfold _sendEmailWithTimeout.
  split; [reflexivity|]. split; [reflexivity|].
  split; [|split; [|split]].
  - unfold with_timeout. rewrite Hbody.
    destruct (settles_before _ _ _); cbn [snd trace set_clock];
      rewrite sends_app; reflexivity.
  - unfold with_timeout. rewrite Hbody.
    destruct (settles_before _ _ _); cbn [snd trace set_clock];
      apply in_or_app; right; do 7 right; left; reflexivity.
  - intros Hlt. erewrite with_timeout_in_time; [| exact Hbody | discriminate |].
    + split; reflexivity.
    + cbn [clock]. lia.
  - intros Hlt. erewrite with_timeout_too_late; [| exact Hbody |].
    + split; reflexivity.
    + cbn [clock]. lia.
Qed.

(** C2 as stated fails: every call of [sluggish] fails, after 14.6
    seconds, and the dispatch of the valid request [hello] is rejected
    with the timeout error, not with the error of the backend, 30
    seconds after it began; the third call is made after that. *)
Lemma slow_failures_end_in_a_timeout :
  let r := _sendEmailWithTimeout true the_consumer sluggish hello
             ready_world in
  valid_request hello_props (str "a@b.com") (str "Hi") (str "hello")
  /\ (forall attempt d, sluggish attempt d = Replies 14600 (inl boom))
  /\ fst r = Rejects (timeout_error the_consumer)
  /\ fst r <> Rejects boom
  /\ clock (snd r) = 30000%Z
  /\ sends (trace (snd r))
     = [(0%Z, 1%nat); (15600%Z, 2%nat); (32200%Z, 3%nat)].
Proof.
  cbv zeta. split; [exact hello_is_valid|]. split; [reflexivity|].
  split; [reflexivity|]. split; [discriminate|]. split; reflexivity.
Qed.

(** The three failing attempts of [always_failing], on the initialised
    service: calls at 0, 1040 and 3080 ms, rejection of the dispatch at
    3120 ms. *)
Lemma dispatch_all_attempts_fail_witness :
  let r := _sendEmailWithTimeout true the_consumer always_failing hello
             ready_world in
  fst r = Rejects boom
  /\ clock (snd r) = 3120%Z
  /\ sends (trace (snd r)) = [(0%Z, 1%nat); (1040%Z, 2%nat); (3080%Z, 3%nat)]
  /\ In (3120%Z, all_failed_log (str "a@b.com") (str "Hi") boom 3)
       (trace (snd r)).
Proof.
  pose proof (@dispatch_all_attempts_fail true the_consumer always_failing
                hello_props (str "a@b.com") (str "Hi") (str "hello")
                ready_world a_transporter 40 40 40 boom boom boom
                hello_is_valid eq_refl eq_refl eq_refl eq_refl eq_refl
                eq_refl eq_refl) as (_ & _ & Hs & Hlog & Hin & _).
  cbv zeta in *. destruct (Hin eq_refl) as [Hr Hc].
  split; [exact Hr|]. split; [exact Hc|]. split; [exact Hs|exact Hlog].
Defined.

(** C7, as the code has it.  The dispatch of a valid request on an
    initialised service whose backend fails the first call and accepts
    the second.  [sendEmail] returns success with the message id of the
    second call and attempt number 2, and there are exactly two
    [sendMail] calls.  The dispatch, [_sendEmailWithTimeout], returns
    that result when the two calls and the wait between them end within
    its timeout; when they end after it, the dispatch is rejected with
    the timeout error at the deadline, the two calls being made all the
    same. *)
Theorem dispatch_succeeds_on_second_attempt
    (tie : bool) (this : Async.NotificationConsumer) (b : backend)
    (props : list (jsstring * value)) (t s m : jsstring) (w : world)
    (tp : transporter) (l1 l2 : N) (e1 : error) (i2 : info) :
  valid_request props t s m ->
  isInitialized (emailService w) = true ->
  svc_transporter (emailService w) = Some tp ->
  retryAttempts (emailService w) = 3%nat ->
  retryDelay (emailService w) = 1000%Z ->
  b 1%nat (emailData_for (env w) t s m) = Replies l1 (inl e1) ->
  b 2%nat (emailData_for (env w) t s m) = Replies l2 (inr i2) ->
  let t2 := (clock w + Z.of_N l1 + 1000 + Z.of_N l2)%Z in
  let deadline := (clock w + messageProcessingTimeout this)%Z in
  let body := sendEmail b (VStr t) (VStr s) (VStr m) w in
  let r := _sendEmailWithTimeout tie this b (VObj props) w in
  fst body = Resolves (Some (mkSent true (messageId i2) 2))
  /\ clock (snd body) = t2
  /\ sends (trace (snd r)) =
       sends (trace w) ++ [(clock w, 1%nat);
                           ((clock w + Z.of_N l1 + 1000)%Z, 2%nat)]
  /\ length (sends (trace (snd r))) = (length (sends (trace w)) + 2)%nat
  /\ ((t2 < deadline)%Z -> r = body)
  /\ ((deadline < t2)%Z ->
      fst r = Rejects (timeout_error this) /\ clock (snd r) = deadline).
Proof.
  intros Hvalid. pose proof (valid_request_params Hvalid) as Hparams.
  destruct w as [c tr e sv n]. cbn [emailService env trace clock].
  intros Hi Ht Hn Hd H1 H2. cbv zeta.
  pose proof (@sendEmail_second_accepted b t s m c tr e sv n tp Hi Ht Hparams
                l1 l2 e1 i2 Hn Hd H1 H2) as Hbody.
  rewrite Hbody. cbn [fst snd clock].
  rewrite <- (dispatch_of_valid_request b _ Hvalid) in Hbody.
  unfold _sendEmailWithTimeout.
  assert (Hs : sends (trace (snd (with_timeout tie
                 (messageProcessingTimeout this) (timeout_error this)
                 (_sendEmailWithTimeout_try b (VObj props))
                 (mkWorld c tr e sv n))))
               = sends tr ++ [(c, 1%nat); ((c + Z.of_N l1 + 1000)%Z, 2%nat)]).
  { unfold with_timeout. rewrite Hbody.
    destruct (settles_before _ _ _); cbn [snd trace set_clock];
      rewrite sends_app; reflexivity. }
  split; [reflexivity|]. split; [reflexivity|].
  split; [exact Hs|]. split; [|split].
  - rewrite Hs, length_app. reflexivity.
  - intros Hlt. apply with_timeout_in_time;
      [exact Hbody | discriminate | cbn [clock]; lia].
  - intros Hlt. erewrite with_timeout_too_late; [| exact Hbody |].
    + split; reflexivity.
    + cbn [clock]. lia.
Qed.

(** C7 as stated fails: the first call of [late_second] fails and the
    second is accepted, 36 seconds after the dispatch began; the
    dispatch of the valid request [hello] does not return a success: it
    was rejected with the timeout error 6 seconds before, although the
    two calls are made and the mail is accepted. *)
Lemma late_success_is_reported_as_timeout :
  let r := _sendEmailWithTimeout true the_consumer late_second hello
             ready_world in
  valid_request hello_props (str "a@b.com") (str "Hi") (str "hello")
  /\ (forall d, late_second 1 d = Replies 20000 (inl boom))
  /\ (forall d, late_second 2 d = Replies 15000 (inr accepted))
  /\ fst r = Rejects (timeout_error the_consumer)
  /\ clock (snd r) = 30000%Z
  /\ sends (trace (snd r)) = [(0%Z, 1%nat); (21000%Z, 2%nat)]
  /\ In (36000%Z, sent_log (str "a@b.com") (str "Hi") accepted 2)
       (trace (snd r)).
Proof.
  cbv zeta. split; [exact hello_is_valid|]. split; [reflexivity|].
  split; [reflexivity|]. split; [reflexivity|]. split; [reflexivity|].
  split; [reflexivity|].
  vm_compute. repeat (first [left; reflexivity | right]).
Qed.

(** [failing_once] on the initialised service: the dispatch returns the
    success of the second call, 1065 ms after it began. *)
Lemma dispatch_succeeds_on_second_attempt_witness :
  let r := _sendEmailWithTimeout true the_consumer failing_once hello
             ready_world in
  r = sendEmail failing_once (VStr (str "a@b.com")) (VStr (str "Hi"))
        (VStr (str "hello")) ready_world
  /\ fst r = Resolves (Some (mkSent true (str "<1@mail>") 2))
  /\ sends (trace (snd r)) = [(0%Z, 1%nat); (1040%Z, 2%nat)]
  /\ length (sends (trace (snd r))) = 2%nat.
Proof.
  pose proof (@dispatch_succeeds_on_second_attempt true the_consumer
                failing_once hello_props (str "a@b.com") (str "Hi")
                (str "hello") ready_world a_transporter 40 25 boom accepted
                hello_is_valid eq_refl eq_refl eq_refl eq_refl eq_refl
                eq_refl) as (Hb & _ & Hs & Hl & Hin & _).
  cbv zeta in *. pose proof (Hin eq_refl) as Hr.
  split; [exact Hr|]. split; [exact (eq_trans (f_equal fst Hr) Hb)|].
  split; [exact Hs|exact Hl].
Defined.

End Retries.

Module Delivery.
Import NotificationConsumer EmailService.
Import RegexFacts ValidationFacts EmailServiceFacts RequestFacts DeliveryFacts.

(** X5. Whatever the backend does, a valid request on an initialised
    service leads to the [sendMail] calls numbered 1, 2, ..., [k], with
    [k] at least 1 and at most [retryAttempts]; the attempts before the
    [k]-th all failed; and [sendEmail] ends on the [k]-th: it returns
    success with that attempt number and the id the backend gave, or it
    throws the error of that attempt, which is then the last one
    allowed, or it pends because the backend never answers that call. *)
Theorem sendEmail_attempts
    (b : backend) (to subject message : value) (t s m : jsstring)
    (w : world) (tp : transporter) :
  isInitialized (emailService w) = true ->
  svc_transporter (emailService w) = Some tp ->
  retryAttempts (emailService w) <> 0%nat ->
  _validateEmailParams to subject message = inr (t, s, m) ->
  let r := sendEmail b to subject message w in
  let d := emailData_for (env w) t s m in
  exists k,
    k <> 0%nat /\ (k <= retryAttempts (emailService w))%nat
    /\ map snd (sends (trace (snd r)))
       = map snd (sends (trace w)) ++ seq 1 k
    /\ failed_before b d 1 k
    /\ ended_on b d (retryAttempts (emailService w)) k (fst r).
Proof.
  destruct w as [c tr e sv n]. cbn [emailService env trace].
  intros Hi Ht Hn Hv. cbv zeta.
  rewrite sendEmail_valid with (t' := t) (s' := s) (m' := m) by assumption.
  destruct (@retry_loop_attempts b t s (emailData_for e t s m) e sv n tp Ht
              (retryAttempts sv) 1%nat c (tr ++ [(c, attempting_log t s m)]))
    as (k & Hk0 & Hk & Hs & Hf & He); [lia|assumption|].
  exists k. replace (1 + k - 1)%nat with k in Hf, He by lia.
  repeat split; try assumption.
  rewrite Hs, sent_attempts_app. cbn [sends attempting_log map].
  now rewrite app_nil_r.
Qed.

(** The request [hello], the backend failing the first call. *)
Lemma sendEmail_attempts_witness :
  exists k,
    k <> 0%nat /\ (k <= 3)%nat
    /\ map snd (sends (trace (snd (sendEmail failing_once
                                     (VStr (str "a@b.com")) (VStr (str "Hi"))
                                     (VStr (str "hello")) ready_world))))
       = seq 1 k.
Proof.
  assert (Hn : retryAttempts (emailService ready_world) <> 0%nat)
    by discriminate.
  destruct (@sendEmail_attempts failing_once (VStr (str "a@b.com"))
              (VStr (str "Hi")) (VStr (str "hello")) (str "a@b.com")
              (str "Hi") (str "hello") ready_world a_transporter
              eq_refl eq_refl Hn eq_refl) as (k & Hk0 & Hk & Hs & _).
  exists k. split; [exact Hk0|]. split; [exact Hk|exact Hs].
Defined.

(** X6. The timeout of a dispatch does not stop its retry loop.  When
    the first call fails and the second is accepted, the dispatch
    delivers if the two calls and the wait between them end before the
    timeout, and is rejected with the timeout error if they end after
    it; in both cases the second call is made and the mail is sent, so
    that a record logged as failed may have been delivered. *)
Theorem timeout_does_not_stop_the_retries
    (tie : bool) (this : Async.NotificationConsumer) (b : backend)
    (props : list (jsstring * value)) (t s m : jsstring) (w : world)
    (tp : transporter) (l1 l2 : N) (e1 : error) (i2 : info) :
  valid_request props t s m ->
  isInitialized (emailService w) = true ->
  svc_transporter (emailService w) = Some tp ->
  retryAttempts (emailService w) = 3%nat ->
  retryDelay (emailService w) = 1000%Z ->
  b 1%nat (emailData_for (env w) t s m) = Replies l1 (inl e1) ->
  b 2%nat (emailData_for (env w) t s m) = Replies l2 (inr i2) ->
  let total := (Z.of_N l1 + 1000 + Z.of_N l2)%Z in
  let r := _sendEmailWithTimeout tie this b (VObj props) w in
  ((total < messageProcessingTimeout this)%Z ->
   fst r = Resolves (Some (mkSent true (messageId i2) 2))
   /\ clock (snd r) = (clock w + total)%Z)
  /\ ((messageProcessingTimeout this < total)%Z ->
      fst r = Rejects (timeout_error this)
      /\ clock (snd r) = (clock w + messageProcessingTimeout this)%Z)
  /\ sends (trace (snd r))
     = sends (trace w)
       ++ [(clock w, 1%nat); ((clock w + Z.of_N l1 + 1000)%Z, 2%nat)]
  /\ In ((clock w + total)%Z, sent_log t s i2 2) (trace (snd r)).
Proof.
  intros Hvalid. pose proof (valid_request_params Hvalid) as Hparams.
  destruct w as [c tr e sv n]. cbn [emailService env trace clock].
  intros Hi Ht Hn Hd H1 H2. cbv zeta.
  pose proof (@sendEmail_second_accepted b t s m c tr e sv n tp Hi Ht Hparams
                l1 l2 e1 i2 Hn Hd H1 H2) as Hbody.
  rewrite <- (dispatch_of_valid_request b _ Hvalid) in Hbody.
  unfold _sendEmailWithTimeout.
  split; [|split; [|split]].
  - intros Hlt. erewrite with_timeout_in_time; [| exact Hbody | discriminate |].
    + cbn [fst snd clock]. split; [reflexivity|lia].
    + cbn [clock]. lia.
  - intros Hlt. erewrite with_timeout_too_late; [| exact Hbody |].
    + split; reflexivity.
    + cbn [clock]. lia.
  - unfold with_timeout. rewrite Hbody.
    destruct (settles_before _ _ _); cbn [snd trace set_clock];
      rewrite sends_app; reflexivity.
  - unfold with_timeout. rewrite Hbody.
    destruct (settles_before _ _ _); cbn [snd trace set_clock];
      apply in_or_app; right; do 4 right; left; f_equal; lia.
Qed.

(** The request [hello], the backend failing the first call: delivered
    by the second call, 1065 ms after the dispatch began. *)
Lemma timeout_does_not_stop_the_retries_witness :
  let r := _sendEmailWithTimeout true the_consumer failing_once hello
             ready_world in
  fst r = Resolves (Some (mkSent true (str "<1@mail>") 2))
  /\ clock (snd r) = (clock ready_world + 1065)%Z
  /\ sends (trace (snd r))
     = [(clock ready_world, 1%nat); ((clock ready_world + 1040)%Z, 2%nat)].
Proof.
  pose proof (@timeout_does_not_stop_the_retries true the_consumer
                failing_once hello_props (str "a@b.com") (str "Hi")
                (str "hello") ready_world a_transporter 40 25 boom accepted
                hello_is_valid eq_refl eq_refl eq_refl eq_refl eq_refl
                eq_refl) as (Hin & _ & Hs & _).
  cbv zeta in *. destruct (Hin eq_refl) as [Hr Hc].
  split; [exact Hr|]. split; [exact Hc|exact Hs].
Defined.

(** X7. From record to delivery.  A record whose payload decodes to a
    valid request, the backend accepting the first call within the
    timeout, is delivered with one [sendMail] call: processing returns
    when the backend answers, the last log entry reports the record as
    processed with the id the backend gave, and no failure is logged. *)
Theorem valid_record_is_delivered
    (JSON_parse : jsstring -> error + value) (tie : bool)
    (this : Async.NotificationConsumer) (b : backend) (tp : jsstring)
    (partition : Z) (message : kafka_message) (c0 : N) (payload : jsstring)
    (props : list (jsstring * value)) (t s m : jsstring) (w : world)
    (tpr : transporter) (latency : N) (i : info) :
  msg_value message = Some (c0 :: payload) ->
  JSON_parse (c0 :: payload) = inr (VObj props) ->
  valid_request props t s m ->
  isInitialized (emailService w) = true ->
  svc_transporter (emailService w) = Some tpr ->
  retryAttempts (emailService w) <> 0%nat ->
  b 1%nat (emailData_for (env w) t s m) = Replies latency (inr i) ->
  (Z.of_N latency < messageProcessingTimeout this)%Z ->
  let r := _processMessage JSON_parse tie this b tp partition message w in
  let messageId := _generateMessageId tp partition (offset message) in
  fst r = Resolves tt
  /\ clock (snd r) = (clock w + Z.of_N latency)%Z
  /\ sends (trace (snd r)) = sends (trace w) ++ [(clock w, 1%nat)]
  /\ (exists before,
        trace (snd r)
        = before
          ++ [((clock w + Z.of_N latency)%Z,
               processed_log messageId t s (Async.messageId i))])
  /\ count_log error_ (str "Failed to process message") (trace (snd r))
     = count_log error_ (str "Failed to process message") (trace w).
Proof.
  intros Hv Hp Hvalid. pose proof (valid_request_params Hvalid) as Hparams.
  destruct w as [c tr e sv n]. cbn [emailService env trace clock].
  intros Hi Ht Hn Hb Hlt. cbv zeta.
  remember (_processMessage JSON_parse tie this b tp partition message
              (mkWorld c tr e sv n)) as r eqn:Hr.
  rewrite ConsumerLoop.processMessage_after_opening in Hr.
  unfold try_catch at 1 in Hr.
  rewrite steps_of_valid_record
    with (c := c0) (payload := payload) (props := props) (t := t) (s := s)
         (m := m) in Hr by assumption.
  unfold opened, set_trace in Hr.
  cbn [clock trace env emailService notificationService] in Hr.
  unfold bind at 1, _sendEmailWithTimeout in Hr.
  erewrite with_timeout_in_time in Hr;
    [| rewrite (dispatch_of_valid_request b _ Hvalid);
       apply sendEmail_first_accepted with (tp := tpr) (latency := latency)
         (i := i); assumption
     | discriminate
     | cbn [clock]; lia ].
  subst r.
  cbn [sent_messageId]. unfold emit, set_trace.
  cbn [fst snd clock trace].
  split; [reflexivity|]. split; [reflexivity|]. split; [|split].
  - rewrite <- !app_assoc, !sends_app. cbn [sends app opening_log parsed_log
      validation_passed_log attempting_log sent_log processed_log].
    reflexivity.
  - eexists. reflexivity.
  - rewrite <- !app_assoc, count_log_app. cbn. lia.
Qed.

(** The record [payload_hello], the backend accepting the first call. *)
Lemma valid_record_is_delivered_witness :
  let r := _processMessage parse_known true the_consumer accepting topic 0
             (record payload_hello "9") ready_world in
  fst r = Resolves tt
  /\ clock (snd r) = (clock ready_world + 25)%Z
  /\ sends (trace (snd r)) = [(clock ready_world, 1%nat)].
Proof.
  assert (Hn : retryAttempts (emailService ready_world) <> 0%nat)
    by discriminate.
  pose proof (@valid_record_is_delivered parse_known true the_consumer
                accepting topic 0%Z (record payload_hello "9") 104%N
                (str "ello.json") hello_props (str "a@b.com") (str "Hi")
                (str "hello") ready_world a_transporter 25 accepted
                eq_refl eq_refl hello_is_valid eq_refl eq_refl Hn eq_refl
                eq_refl) as (Hr & Hc & Hs & _).
  split; [exact Hr|]. split; [exact Hc|exact Hs].
Defined.

(** X8. From record to failure.  A record whose payload decodes to a
    valid request, the backend failing the three calls and the whole
    ending within the timeout, is given up after exactly three
    [sendMail] calls: the error of the third call is caught by
    [_processMessage] and logged, and processing returns at the moment
    of that failure. *)
Theorem failing_record_is_given_up
    (JSON_parse : jsstring -> error + value) (tie : bool)
    (this : Async.NotificationConsumer) (b : backend) (tp : jsstring)
    (partition : Z) (message : kafka_message) (c0 : N) (payload : jsstring)
    (props : list (jsstring * value)) (t s m : jsstring) (w : world)
    (tpr : transporter) (l1 l2 l3 : N) (e1 e2 e3 : error) :
  msg_value message = Some (c0 :: payload) ->
  JSON_parse (c0 :: payload) = inr (VObj props) ->
  valid_request props t s m ->
  isInitialized (emailService w) = true ->
  svc_transporter (emailService w) = Some tpr ->
  retryAttempts (emailService w) = 3%nat ->
  retryDelay (emailService w) = 1000%Z ->
  b 1%nat (emailData_for (env w) t s m) = Replies l1 (inl e1) ->
  b 2%nat (emailData_for (env w) t s m) = Replies l2 (inl e2) ->
  b 3%nat (emailData_for (env w) t s m) = Replies l3 (inl e3) ->
  let total := (Z.of_N l1 + 1000 + Z.of_N l2 + 2000 + Z.of_N l3)%Z in
  (total < messageProcessingTimeout this)%Z ->
  exists wx,
    caught_and_logged JSON_parse tie this b tp partition message w e3 wx
    /\ clock wx = (clock w + total)%Z
    /\ sends (trace wx)
       = sends (trace w)
         ++ [(clock w, 1%nat);
             ((clock w + Z.of_N l1 + 1000)%Z, 2%nat);
             ((clock w + Z.of_N l1 + 1000 + Z.of_N l2 + 2000)%Z, 3%nat)].
Proof.
  intros Hv Hp Hvalid. pose proof (valid_request_params Hvalid) as Hparams.
  destruct w as [c tr e sv n]. cbn [emailService env trace clock].
  intros Hi Ht Hn Hd H1 H2 H3. cbv zeta. intros Hlt.
  eexists. split; [|split].
  - apply ConsumerLoop.steps_rejection_caught.
    rewrite steps_of_valid_record
      with (c := c0) (payload := payload) (props := props) (t := t) (s := s)
           (m := m) by assumption.
    unfold opened, set_trace.
    cbn [clock trace env emailService notificationService].
    unfold bind at 1, _sendEmailWithTimeout.
    erewrite with_timeout_in_time;
      [
      | rewrite (dispatch_of_valid_request b _ Hvalid);
        apply sendEmail_three_failures with (tp := tpr) (l1 := l1) (l2 := l2)
          (l3 := l3) (e1 := e1) (e2 := e2) (e3 := e3); assumption
      | discriminate
      | cbn [clock]; lia ].
    reflexivity.
  - cbn [clock]. lia.
  - cbn [trace]. rewrite <- !app_assoc, !sends_app.
    cbn [sends app opening_log parsed_log validation_passed_log
         attempting_log attempt_failed_log all_failed_log].
    repeat (f_equal; try lia).
Qed.

(** The record [payload_hello], the backend failing every call. *)
Lemma failing_record_is_given_up_witness :
  exists wx,
    caught_and_logged parse_known true the_consumer always_failing topic 0
      (record payload_hello "9") ready_world boom wx
    /\ clock wx = (clock ready_world + 3120)%Z
    /\ map snd (sends (trace wx)) = [1%nat; 2%nat; 3%nat].
Proof.
  destruct (@failing_record_is_given_up parse_known true the_consumer
              always_failing topic 0%Z (record payload_hello "9") 104%N
              (str "ello.json") hello_props (str "a@b.com") (str "Hi")
              (str "hello") ready_world a_transporter 40 40 40 boom boom boom
              eq_refl eq_refl hello_is_valid eq_refl eq_refl eq_refl eq_refl
              eq_refl eq_refl eq_refl eq_refl) as (wx & Hc & Hk & Hs).
  exists wx. split; [exact Hc|]. split; [exact Hk|].
  rewrite Hs. reflexivity.
Defined.

End Delivery.

(* ================================================================= *)
(** ** Life cycle: initialisation, start, stop *)

Module Lifecycle.
Import EmailService.
Import ValidationFacts EmailServiceFacts.

(** X9. [initialize()] returns exactly when the transporter was created
    and its connection verified, and then the service is initialised
    with that transporter.  When the verification fails the error thrown
    is a new one, not the one of the verification; the transporter is
    kept all the same and [isInitialized] is left as it was.  When the
    transporter cannot be created its error is thrown and the service is
    left as it was.  The retry settings are never changed. *)
Theorem initialize_outcomes (g : error + transporter) (w : world) :
  let r := initialize g w in
  (fst r = Resolves tt <-> mail_ready g)
  /\ (forall t,
        g = inr t -> verify t = None ->
        isInitialized (emailService (snd r)) = true
        /\ svc_transporter (emailService (snd r)) = Some t)
  /\ (forall t cause,
        g = inr t -> verify t = Some cause ->
        fst r = Rejects verify_failed
        /\ svc_transporter (emailService (snd r)) = Some t
        /\ isInitialized (emailService (snd r))
           = isInitialized (emailService w))
  /\ (forall cause,
        g = inl cause ->
        fst r = Rejects cause /\ emailService (snd r) = emailService w)
  /\ retryAttempts (emailService (snd r)) = retryAttempts (emailService w)
  /\ retryDelay (emailService (snd r)) = retryDelay (emailService w).
Proof.
  cbv zeta. destruct w as [c tr e [tp0 init ra rd] n].
  destruct g as [cause|[[verr|] cm]].
  - split; [split; [discriminate|intros (t & H & _); discriminate]|].
    split; [discriminate|]. split; [discriminate|].
    split; [|repeat split].
    intros cause' H. injection H as <-. split; reflexivity.
  - split; [split; [discriminate|]|].
    { intros (t & H & Hv). injection H as <-. discriminate. }
    split; [intros t H Hv; injection H as <-; discriminate|].
    split; [|split; [discriminate|repeat split]].
    intros t cause H Hv. injection H as <-. repeat split.
  - split; [split; [intros _; eexists; split; reflexivity|reflexivity]|].
    split; [intros t H _; injection H as <-; split; reflexivity|].
    split; [intros t cause H Hv; injection H as <-; discriminate|].
    split; [discriminate|repeat split].
Qed.

(** X10. [stop()] always returns, whatever closing the transporter does:
    an error of [transporter.close()] is logged by [close()] and goes no
    further.  The consumer is then marked as not running, the transporter
    has been closed once if it has a [close] method, and the email
    service itself is left as it was, still initialised. *)
Theorem stop_always_returns (w : world) :
  let r := NotificationConsumer.stop w in
  fst r = Resolves tt
  /\ NotificationConsumer.isConsumerRunning (snd r)
     = option_map (fun _ => false) (notificationConsumer (notificationService w))
  /\ emailService (snd r) = emailService w
  /\ count_event is_close (trace (snd r))
     = (count_event is_close (trace w) + (if has_close w then 1 else 0))%nat
  /\ count_event is_disconnect (trace (snd r))
     = count_event is_disconnect (trace w).
Proof.
  cbv zeta. destruct w as [c tr e [tp init ra rd] [kc nc flag]].
  destruct nc as [[nck run tmo]|], tp as [[ver [[cerr|]|]]|];
    cbv - [count_event app Nat.add];
    rewrite !count_event_app; cbn; repeat split; lia.
Qed.

(** X11. [start(topic)] of the consumer returns exactly when the mail
    transporter was created and verified and [consumer.run] returned; the
    consumer is then running and the email service initialised.  When the
    initialisation fails its error is thrown and the consumer is not
    marked as running.  When it is [consumer.run] that throws, its error
    is thrown while the consumer is left marked as running. *)
Theorem consumer_start_outcomes
    (g : error + transporter) (consumer_run : option error)
    (topic : option jsstring) (w : world) (nc : Async.NotificationConsumer) :
  notificationConsumer (notificationService w) = Some nc ->
  let r := NotificationConsumer.start g consumer_run topic w in
  (fst r = Resolves tt <-> mail_ready g /\ consumer_run = None)
  /\ (fst r = Resolves tt ->
      NotificationConsumer.isConsumerRunning (snd r) = Some true
      /\ isInitialized (emailService (snd r)) = true)
  /\ (~ mail_ready g ->
      fst r = fst (initialize g w)
      /\ NotificationConsumer.isConsumerRunning (snd r)
         = Some (isRunning nc))
  /\ (forall cause,
        mail_ready g -> consumer_run = Some cause ->
        fst r = Rejects cause
        /\ NotificationConsumer.isConsumerRunning (snd r) = Some true).
Proof.
  destruct w as [c tr e [tp0 init ra rd] [kc nc0 flag]].
  cbn [notificationService notificationConsumer]. intros ->. cbv zeta.
  destruct nc as [nck run tmo].
  destruct g as [cause|[[verr|] cm]].
  - split; [split; [discriminate|intros [(t & H & _) _]; discriminate]|].
    split; [discriminate|]. split; [intros _; split; reflexivity|].
    intros cause' (t & H & _). discriminate.
  - split; [split; [discriminate|]|].
    { intros [(t & H & Hv) _]. injection H as <-. discriminate. }
    split; [discriminate|]. split; [intros _; split; reflexivity|].
    intros cause' (t & H & Hv). injection H as <-. discriminate.
  - destruct consumer_run as [cause|].
    + split; [split; [discriminate|intros [_ H]; discriminate]|].
      split; [discriminate|]. split.
      * intros H. destruct H. eexists. split; reflexivity.
      * intros cause' _ H. injection H as <-. split; reflexivity.
    + split; [split; [intros _; split; [eexists; split|]; reflexivity
                     |reflexivity]|].
      split; [intros _; split; reflexivity|]. split.
      * intros H. destruct H. eexists. split; reflexivity.
      * intros cause' _ H. discriminate.
Qed.

(** The consumer just created, started with a transporter that can be
    verified. *)
Lemma consumer_start_outcomes_witness :
  let r := NotificationConsumer.start (inr a_transporter) None (Some topic)
             created_world in
  fst r = Resolves tt
  /\ NotificationConsumer.isConsumerRunning (snd r) = Some true
  /\ isInitialized (emailService (snd r)) = true.
Proof.
  pose proof (@consumer_start_outcomes (inr a_transporter) None (Some topic)
                created_world the_consumer eq_refl) as (Hiff & Hrun & _).
  cbv zeta in *.
  assert (Hr : fst (NotificationConsumer.start (inr a_transporter) None
                      (Some topic) created_world) = Resolves tt).
  { apply Hiff. split; [|reflexivity].
    exists a_transporter. split; reflexivity. }
  split; [exact Hr|exact (Hrun Hr)].
Defined.

End Lifecycle.

(* ================================================================= *)
(** ** The environment and the start of the service *)

Module EnvFacts.
Import NotificationService.
Import ValidationFacts EmailServiceFacts.

Lemma jsstring_eqb_eq a b : jsstring_eqb a b = true <-> a = b.
Proof.
  unfold jsstring_eqb. destruct (list_eq_dec N.eq_dec a b); split;
    congruence.
Qed.

Lemma all_set_missing e vars : all_set e vars <-> missing_vars e vars = [].
Proof.
  unfold all_set, missing_vars. induction vars as [|v vars IH]; cbn [filter].
  - split; [reflexivity|]. intros _ v [].
  - destruct (env_set e v) eqn:Hv; cbn [negb].
    + rewrite <- IH. split.
      * intros H x Hx. apply H. now right.
      * intros H x [<-|Hx]; auto.
    + split; [|discriminate]. intros H.
      specialize (H v (or_introl eq_refl)). congruence.
Qed.

Lemma require_vars_spec what vars w :
  require_vars what vars w
  = match missing_vars (env w) vars with
    | [] => (Resolves tt, w)
    | _ :: _ =>
        (Rejects (Error (what ++ join (str ", ")
                                 (map str (missing_vars (env w) vars)))), w)
    end.
Proof.
  unfold require_vars, missing_vars. run_async.
  destruct (filter _ vars); reflexivity.
Qed.

Lemma require_vars_ok what vars w :
  all_set (env w) vars -> require_vars what vars w = (Resolves tt, w).
Proof.
  intros H. rewrite require_vars_spec. apply all_set_missing in H.
  now rewrite H.
Qed.

Lemma require_vars_fails what vars w :
  ~ all_set (env w) vars ->
  require_vars what vars w
  = (Rejects (Error (what ++ join (str ", ")
                               (map str (missing_vars (env w) vars)))), w).
Proof.
  intros H. rewrite require_vars_spec.
  destruct (missing_vars (env w) vars) eqn:Hm; [|reflexivity].
  now apply all_set_missing in Hm.
Qed.

Lemma all_set_dec e vars : all_set e vars \/ ~ all_set e vars.
Proof.
  destruct (missing_vars e vars) eqn:Hm.
  - left. now apply all_set_missing.
  - right. intros H. apply all_set_missing in H. congruence.
Qed.

Lemma provider_set e :
  all_set e requiredEnvVars -> exists c p, e "EMAIL_PROVIDER" = Some (c :: p).
Proof.
  intros H. specialize (H "EMAIL_PROVIDER").
  unfold env_set in H. destruct (e "EMAIL_PROVIDER") as [[|c p]|].
  - discriminate H. cbn. auto.
  - eauto.
  - discriminate H. cbn. auto.
Qed.

(** The validation of the environment passes, logging once, on the valid
    environments, and throws without any effect on the others. *)
Lemma validateEnvironment_cases toUpperCase w :
  (env_valid toUpperCase (env w)
   /\ _validateEnvironment toUpperCase w
      = (Resolves tt, set_trace (trace w ++ [(clock w, env_passed_log)]) w))
  \/ (~ env_valid toUpperCase (env w)
      /\ exists e, _validateEnvironment toUpperCase w = (Rejects e, w)).
Proof.
  unfold _validateEnvironment, provider_is, bind, read, ret.
  destruct (all_set_dec (env w) requiredEnvVars) as [Hbase|Hbase].
  2: { right. split; [intros (H & _); contradiction|].
       rewrite (require_vars_fails _ w Hbase). eauto. }
  rewrite (require_vars_ok _ w Hbase).
  destruct (provider_set Hbase) as (c & p & Hp).
  cbv beta iota zeta. rewrite Hp.
  destruct (jsstring_eqb (toUpperCase (c :: p)) (str "SMTP")) eqn:Hsmtp.
  - apply jsstring_eqb_eq in Hsmtp.
    destruct (all_set_dec (env w) smtpRequiredVars) as [Hs|Hs].
    2: { right. split.
         - intros (_ & H & _). apply Hs. exact (H _ Hp Hsmtp).
         - rewrite (require_vars_fails _ w Hs). eauto. }
    rewrite (require_vars_ok _ w Hs).
    cbv beta iota zeta. rewrite Hp.
    destruct (jsstring_eqb (toUpperCase (c :: p)) (str "SES")) eqn:Hses.
    + apply jsstring_eqb_eq in Hses. rewrite Hsmtp in Hses. discriminate.
    + left. split; [|reflexivity].
      split; [exact Hbase|split]; intros q Hq Hu;
        rewrite Hp in Hq; injection Hq as <-; [exact Hs|].
      rewrite Hsmtp in Hu. discriminate.
  - assert (Hnot : toUpperCase (c :: p) <> str "SMTP")
      by (intros H; apply jsstring_eqb_eq in H; congruence).
    cbv beta iota zeta. rewrite Hp.
    destruct (jsstring_eqb (toUpperCase (c :: p)) (str "SES")) eqn:Hses.
    + apply jsstring_eqb_eq in Hses.
      destruct (all_set_dec (env w) sesRequiredVars) as [Hs|Hs].
      2: { right. split.
           - intros (_ & _ & H). apply Hs. exact (H _ Hp Hses).
           - rewrite (require_vars_fails _ w Hs). eauto. }
      rewrite (require_vars_ok _ w Hs).
      left. split; [|reflexivity].
      split; [exact Hbase|split]; intros q Hq Hu;
        rewrite Hp in Hq; injection Hq as <-; [contradiction|exact Hs].
    + assert (Hnot' : toUpperCase (c :: p) <> str "SES")
        by (intros H; apply jsstring_eqb_eq in H; congruence).
      left. split; [|reflexivity].
      split; [exact Hbase|split]; intros q Hq Hu;
        rewrite Hp in Hq; injection Hq as <-; contradiction.
Qed.

End EnvFacts.

Module Environment.
Import NotificationService.
Import ValidationFacts EmailServiceFacts EnvFacts.

(** X12. [_validateEnvironment()] passes exactly on the environments
    where the four variables of the service are set to non-empty strings
    and, when the provider is [SMTP] or [SES] in upper case, the
    variables of that provider as well; it then writes one log entry.
    Otherwise it throws and has no effect; when variables of the service
    are missing, the error lists exactly those, in the order of the
    source, whatever the state of the provider's variables. *)
Theorem validateEnvironment_outcomes
    (toUpperCase : jsstring -> jsstring) (w : world) :
  ((exists w', _validateEnvironment toUpperCase w = (Resolves tt, w'))
   <-> env_valid toUpperCase (env w))
  /\ (env_valid toUpperCase (env w) ->
      _validateEnvironment toUpperCase w
      = (Resolves tt, set_trace (trace w ++ [(clock w, env_passed_log)]) w))
  /\ (~ env_valid toUpperCase (env w) ->
      exists e, _validateEnvironment toUpperCase w = (Rejects e, w))
  /\ (~ all_set (env w) requiredEnvVars ->
      _validateEnvironment toUpperCase w
      = (Rejects
           (Error (str "Missing required environment variables: "
                     ++ join (str ", ")
                          (map str (missing_vars (env w) requiredEnvVars)))),
         w)).
Proof.
  destruct (validateEnvironment_cases toUpperCase w)
    as [[Hv Hr]|[Hv [e Hr]]].
  - split; [split; [auto|eauto]|]. split; [auto|].
    split; [contradiction|].
    intros H. destruct Hv as [Hb _]. contradiction.
  - split; [split; [|contradiction]|].
    { intros [w' H]. rewrite Hr in H. discriminate. }
    split; [contradiction|]. split; [eauto|].
    intros H. unfold _validateEnvironment, bind.
    now rewrite (require_vars_fails _ w H).
Qed.

End Environment.

Module ServiceStart.
Import NotificationService.
Import ValidationFacts EmailServiceFacts EnvFacts.

(** X13. [getMailTransporter()] creates the SES transport exactly when
    [EMAIL_PROVIDER], in upper case, is [SES], and the SMTP transport in
    every other case; it returns the transport created or throws the
    error of its creation.  The fallback is announced by one warning,
    written exactly when the provider is neither [SMTP] nor [SES] (or is
    not set).  An environment with such a provider passes
    [_validateEnvironment()] with the four variables of the service
    alone, and the SMTP transport is then created without any of the
    SMTP variables having been asked for. *)
Theorem provider_selection
    (toUpperCase : jsstring -> jsstring) (smtp ses : error + transporter)
    (w : world) :
  let is_smtp := provider_named toUpperCase (env w) "SMTP" in
  let is_ses := provider_named toUpperCase (env w) "SES" in
  let r := Mail.getMailTransporter toUpperCase smtp ses w in
  fst r = outcome_of (if is_ses then ses else smtp)
  /\ count_log warn (str "Unknown email provider, defaulting to SMTP")
       (trace (snd r))
     = (count_log warn (str "Unknown email provider, defaulting to SMTP")
          (trace w)
        + (if is_smtp || is_ses then 0 else 1))%nat
  /\ (all_set (env w) requiredEnvVars ->
      is_smtp = false -> is_ses = false ->
      (exists w', _validateEnvironment toUpperCase w = (Resolves tt, w'))
      /\ fst r = outcome_of smtp).
Proof.
  intros is_smtp is_ses r.
  assert (Hr : fst r = outcome_of (if is_ses then ses else smtp)
    /\ count_log warn (str "Unknown email provider, defaulting to SMTP")
         (trace (snd r))
       = (count_log warn (str "Unknown email provider, defaulting to SMTP")
            (trace w)
          + (if is_smtp || is_ses then 0 else 1))%nat).
  { subst r is_smtp is_ses.
    unfold Mail.getMailTransporter, provider_named.
    unfold bind, read. cbv beta iota zeta.
    destruct (env w "EMAIL_PROVIDER") as [p|]; cbn [option_map].
    - destruct (jsstring_eqb (toUpperCase p) (str "SMTP")) eqn:Hsmtp;
        destruct (jsstring_eqb (toUpperCase p) (str "SES")) eqn:Hses;
        [apply jsstring_eqb_eq in Hsmtp; apply jsstring_eqb_eq in Hses;
         rewrite Hsmtp in Hses; discriminate Hses| | |];
        clear Hsmtp Hses; destruct smtp, ses;
        cbv - [count_log app Nat.add str];
        rewrite ?count_log_app; cbn; split; (reflexivity || lia).
    - destruct smtp, ses;
        cbv - [count_log app Nat.add str];
        rewrite ?count_log_app; cbn; split; (reflexivity || lia). }
  destruct Hr as [Hr1 Hr2]. split; [exact Hr1|]. split; [exact Hr2|].
  intros Hbase Hsmtp Hses. split.
  - destruct (validateEnvironment_cases toUpperCase w) as [[_ H]|[H _]];
      [eauto|].
    exfalso. apply H. split; [exact Hbase|].
    subst is_smtp is_ses. unfold provider_named in *.
    split; intros p Hp Hu; rewrite Hp in *; cbn [option_map] in *;
      rewrite Hu in *.
    + apply Bool.not_true_iff_false in Hsmtp. exfalso. apply Hsmtp.
      now apply jsstring_eqb_eq.
    + apply Bool.not_true_iff_false in Hses. exfalso. apply Hses.
      now apply jsstring_eqb_eq.
  - rewrite Hr1, Hses. reflexivity.
Qed.


Lemma createKafkaClient_known nk w brokers :
  env w "KAFKA_BROKER" = Some brokers ->
  createKafkaClient nk w
  = try_catch
      (match nk with Some err => throw err | None => ret tt end ;;
       log info_ (str "Kafka client created successfully")
         [("brokers", MVal (VArr (map VStr (split 44 brokers))));
          ("clientId", MStr (str "email-notification-service"))])
      (fun error =>
         log error_ (str "Failed to create Kafka client")
           [("error", MStr (message error))] ;;
         throw error) w.
Proof.
  intros H. unfold createKafkaClient, try_catch.
  unfold bind at 1, read at 1. now rewrite H.
Qed.

Ltac not_ok :=
  let H := fresh in
  let t := fresh in
  intros [_ H]; unfold externals_ok, mail_ready in H; cbn in H;
  destruct H as (? & (? & ?) & ? & ? & (t & ? & ?) & ?);
  try congruence;
  repeat match goal with
         | Hx : inr _ = inr _ |- _ => injection Hx as Hx
         end;
  subst; cbn in *; congruence.

Ltac start_fails no :=
  cbv - [env_valid externals_ok split];
  split; [right; reflexivity|];
  split;
    [split; [discriminate|no]
    |split; [discriminate
            |intros _; repeat split; try reflexivity; discriminate]].

(** X14. [start()] of the service, in a new process, never throws: it
    either returns or ends the process with exit code 1.  It returns
    exactly when the environment is valid and every call into the broker
    client and the mail transport succeeds; the consumer is then running,
    the email service initialised, and nothing has been closed or
    disconnected.  In every other case the failure is followed by a
    shutdown: the service is marked as shutting down, the consumer is
    not running, the broker consumer has been disconnected once if it
    had been created (whether or not it had been connected), and the
    mail transporter closed once if it had been created with a [close]
    method. *)
Theorem service_start_outcomes
    (toUpperCase : jsstring -> jsstring) (x : externals)
    (e : string -> option jsstring) :
  let r := NotificationService.start toUpperCase x (process_start e) in
  let w' := snd r in
  (fst r = Resolves None \/ fst r = Resolves (Some 1%Z))
  /\ (fst r = Resolves None <-> env_valid toUpperCase e /\ externals_ok x)
  /\ (fst r = Resolves None ->
      NotificationConsumer.isConsumerRunning w' = Some true
      /\ isInitialized (emailService w') = true
      /\ isShuttingDown (notificationService w') = false
      /\ count_event is_disconnect (trace w') = 0%nat
      /\ count_event is_close (trace w') = 0%nat)
  /\ (fst r = Resolves (Some 1%Z) ->
      NotificationConsumer.isConsumerRunning w' <> Some true
      /\ isShuttingDown (notificationService w') = true
      /\ count_event is_disconnect (trace w')
         = match ns_consumer (notificationService w') with
           | Some _ => 1%nat
           | None => 0%nat
           end
      /\ count_event is_close (trace w')
         = (if has_close w' then 1 else 0)%nat).
Proof.
  intros r w'. subst w' r.
  pose (w1 := set_trace
                [(0%Z, Log info_ (str "Starting Email Notification Microservice...") [])]
                (process_start e)).
  assert (Hstart :
    NotificationService.start toUpperCase x (process_start e)
    = NotificationService.start toUpperCase x (process_start e)) by reflexivity.
  unfold NotificationService.start at 2 in Hstart.
  unfold try_catch, bind at 1 in Hstart.
  unfold bind at 1, log at 1, emit at 1 in Hstart.
  change (set_trace _ (process_start e)) with w1 in Hstart.
  destruct (validateEnvironment_cases toUpperCase w1)
    as [[Hv Hr]|[Hv [err Hr]]];
    rewrite Hr in Hstart; change (env w1) with e in Hv.
  2: { rewrite Hstart; clear Hstart Hr; subst w1.
       start_fails ltac:(intros [H _]; contradiction). }
  assert (Hb : exists brokers, e "KAFKA_BROKER" = Some brokers).
  { destruct Hv as [Hbase _]. specialize (Hbase "KAFKA_BROKER").
    unfold env_set in Hbase.
    destruct (e "KAFKA_BROKER") as [brokers|]; [eauto|].
    discriminate Hbase. cbn. auto. }
  destruct Hb as (brokers & Hb).
  cbv beta iota zeta in Hstart. unfold bind at 1 in Hstart.
  match type of Hstart with
  | context [createKafkaClient ?n ?W] =>
      rewrite (@createKafkaClient_known n W brokers Hb) in Hstart
  end.
  rewrite Hstart; clear Hstart Hr; subst w1.
  destruct x as [nk ncs cc cs mt cr].
  destruct nk as [e1|]; [start_fails not_ok|].
  destruct ncs as [e1|[[d|]]]; [start_fails not_ok| |].
  all: destruct cc as [e1|]; [start_fails not_ok|].
  all: destruct cs as [e1|]; [start_fails not_ok|].
  all: destruct mt as [e1|[v cl]]; [start_fails not_ok|].
  all: destruct v as [e1|];
    [destruct cl as [[e2|]|]; start_fails not_ok|].
  all: destruct cr as [e1|];
    [destruct cl as [[e2|]|]; start_fails not_ok|].
  all: cbv - [env_valid externals_ok split].
  all: split; [left; reflexivity|].
  all: split; [split; [intros _|reflexivity]
              |split; [intros _; repeat split; reflexivity|discriminate]].
  all: split; [exact Hv|]; unfold externals_ok, mail_ready; cbn;
    repeat split; eauto.
Qed.

End ServiceStart.

(* ================================================================= *)
(** ** The handlers of signals and of uncaught exceptions *)

Module Signals.
Import NotificationService.
Import ValidationFacts EmailServiceFacts.


End Signals.

(* ================================================================= *)
(** ** The bodies of the mails and the identifiers of the records *)

Module TextFacts.
Import EmailService.
Import RegexFacts.

(** A match of a pattern that is not anchored at its end is a prefix in
    the language of the pattern, and its length is what is returned. *)
Lemma match_here_sound r s n :
  anchored_end r = false ->
  match_here r s = Some n ->
  exists u v, s = u ++ v /\ lang (atoms r) u /\ n = length u.
Proof.
  unfold match_here. intros He H. rewrite He in H.
  destruct (match_atoms_sound _ _ _ H) as (u & v & Hs & Hu & Hk).
  exists u, v. repeat split; auto. injection Hk as <-. subst s.
  rewrite length_app. lia.
Qed.

Lemma match_here_complete r u v :
  anchored_end r = false ->
  lang (atoms r) u ->
  exists n, match_here r (u ++ v) = Some n.
Proof.
  unfold match_here. intros -> H.
  eapply match_atoms_complete; [exact H|reflexivity].
Qed.

Lemma search_spec r s :
  search r s = true
  <-> exists pre suf n, s = pre ++ suf /\ match_here r suf = Some n.
Proof.
  induction s as [|c s IH]; cbn [search].
  - destruct (match_here r []) as [n|] eqn:H.
    + split; [intros _; exists [], [], n; auto|auto].
    + split; [discriminate|]. intros (pre & suf & n & Hs & Hm).
      destruct pre; destruct suf; try discriminate. congruence.
  - destruct (match_here r (c :: s)) as [n|] eqn:H.
    + split; auto. intros _. exists [], (c :: s), n. auto.
    + rewrite IH. split.
      * intros (pre & suf & n & -> & Hm). exists (c :: pre), suf, n. auto.
      * intros (pre & suf & n & Hs & Hm). destruct pre as [|c' pre].
        -- simpl in Hs. subst suf. congruence.
        -- injection Hs as <- ->. eauto.
Qed.

(** A pattern without anchors is found in the strings that contain a
    string of its language. *)
Lemma test_unanchored p s :
  test (mkRegex false p false) s = true
  <-> exists pre u v, s = pre ++ u ++ v /\ lang p u.
Proof.
  unfold test. cbn [anchored_start]. rewrite search_spec. split.
  - intros (pre & suf & n & -> & Hm).
    apply match_here_sound in Hm; [|reflexivity].
    destruct Hm as (u & v & -> & Hu & _). eauto.
  - intros (pre & u & v & -> & Hu).
    destruct (@match_here_complete (mkRegex false p false) u v eq_refl Hu)
      as [n Hn].
    eauto.
Qed.

Lemma replace_from_no_match r by_ s :
  search r s = false -> replace_from r by_ 0 s = s.
Proof.
  induction s as [|c s IH]; [reflexivity|]. cbn [search replace_from].
  destruct (match_here r (c :: s)); [discriminate|].
  intros H. now rewrite IH.
Qed.

Lemma replace_from_chars r by_ x s : forall k,
  In x (replace_from r by_ k s) -> In x by_ \/ In x s.
Proof.
  induction s as [|c s IH]; intros k; cbn [replace_from]; [auto|].
  destruct k as [|k].
  - destruct (match_here r (c :: s)) as [[|n]|].
    + intros [->|H]; [right; now left|].
      destruct (IH _ H); [auto|right; now right].
    + intros H. apply in_app_or in H. destruct H as [H|H]; [auto|].
      destruct (IH _ H); [auto|right; now right].
    + intros [->|H]; [right; now left|].
      destruct (IH _ H); [auto|right; now right].
  - intros H. destruct (IH _ H); [auto|right; now right].
Qed.

Lemma first_occurrence (x : N) (l : jsstring) :
  In x l -> exists a b, l = a ++ [x] ++ b /\ ~ In x a.
Proof.
  induction l as [|c l IH]; [intros []|].
  destruct (N.eq_dec c x) as [->|Hne].
  - intros _. exists [], l. split; [reflexivity|intros []].
  - intros [H|H]; [contradiction|].
    destruct (IH H) as (a & b & -> & Ha).
    exists (c :: a), b. split; [reflexivity|].
    intros [H'|H']; auto.
Qed.

(** *** The tag pattern *)

Lemma tag_lang u :
  lang (atoms htmlTagRegex) u
  <-> exists inside, u = [60%N] ++ inside ++ [62%N] /\ ~ In 62%N inside.
Proof.
  unfold htmlTagRegex. cbn [atoms lang accepts quant repeats]. split.
  - intros (a & r1 & -> & Ha & Hal & ins & r2 & -> & Hins & _
            & c & r3 & -> & Hc & Hcl & ->).
    apply singleton_chr in Ha; auto. apply singleton_chr in Hc; auto.
    subst. exists ins. rewrite app_nil_r. split; [reflexivity|].
    intros Hin. rewrite Forall_forall in Hins.
    specialize (Hins _ Hin). discriminate.
  - intros (ins & -> & Hins).
    exists [60%N], (ins ++ [62%N]). repeat split; auto.
    exists ins, [62%N]. repeat split.
    + apply Forall_forall. intros x Hx. unfold nonchr, chr. cbn [existsb].
      rewrite orb_false_r. apply negb_true_iff, N.eqb_neq.
      intros <-. contradiction.
    + exists [62%N], []. repeat split; auto.
Qed.

Lemma tag_here (s : jsstring) :
  In 62%N s -> exists n, match_here htmlTagRegex (60%N :: s) = Some (S n).
Proof.
  intros H. destruct (first_occurrence _ _ H) as (a & b & -> & Ha).
  assert (Hl : lang (atoms htmlTagRegex) ([60%N] ++ a ++ [62%N]))
    by (apply tag_lang; eauto).
  destruct (@match_here_complete htmlTagRegex _ b eq_refl Hl) as [n Hn].
  replace (60%N :: a ++ [62%N] ++ b) with (([60%N] ++ a ++ [62%N]) ++ b)
    by (cbn; now rewrite <- app_assoc).
  rewrite Hn. pose proof Hn as Hn'.
  apply match_here_sound in Hn'; [|reflexivity].
  destruct Hn' as (u & v & _ & Hu & ->).
  apply tag_lang in Hu. destruct Hu as (ins & -> & _).
  cbn [length app]. eauto.
Qed.

Lemma isHtmlContent_has_tag s : _isHtmlContent s = true <-> has_tag s.
Proof.
  unfold _isHtmlContent, htmlTagRegex. rewrite test_unanchored.
  fold (atoms htmlTagRegex). unfold has_tag. split.
  - intros (pre & u & v & -> & Hu). apply tag_lang in Hu.
    destruct Hu as (ins & -> & _). exists pre, ins, v.
    now rewrite <- !app_assoc.
  - intros (before & inside & after & ->).
    assert (Hin : In 62%N (inside ++ [62%N] ++ after))
      by (apply in_or_app; right; now left).
    destruct (first_occurrence _ _ Hin) as (a & b & Hab & Ha).
    exists before, ([60%N] ++ a ++ [62%N]), b. split.
    + rewrite Hab. now rewrite <- !app_assoc.
    + apply tag_lang. eauto.
Qed.

(** What is left of a string once its tags are removed: no [<] of it is
    followed by a [>]. *)
Lemma strip_leaves_no_tag s : forall k pre post,
  replace_from htmlTagRegex [] k s = pre ++ 60%N :: post -> ~ In 62%N post.
Proof.
  induction s as [|c s IH]; intros k pre post; cbn [replace_from].
  - destruct pre; discriminate.
  - destruct k as [|k]; [|apply IH].
    assert (Hkeep :
      (c = 60%N -> ~ In 62%N s) ->
      c :: replace_from htmlTagRegex [] 0 s = pre ++ 60%N :: post ->
      ~ In 62%N post).
    { intros Hc H. destruct pre as [|c' pre].
      - injection H as -> <-. intros Hin.
        apply replace_from_chars in Hin. destruct Hin as [[]|Hin].
        now apply Hc.
      - injection H as _ H. now apply IH in H. }
    destruct (match_here htmlTagRegex (c :: s)) as [[|n]|] eqn:Hm.
    + apply Hkeep. intros -> Hin. destruct (tag_here _ Hin) as [n Hn].
      congruence.
    + cbn [app]. apply IH.
    + apply Hkeep. intros -> Hin. destruct (tag_here _ Hin) as [n Hn].
      congruence.
Qed.

Lemma replace_from_subsequence r s : forall k,
  subsequence (replace_from r [] k s) s.
Proof.
  induction s as [|c s IH]; intros k; cbn [replace_from].
  - constructor.
  - destruct k as [|k]; [|apply subsequence_drop, IH].
    destruct (match_here r (c :: s)) as [[|n]|].
    + apply subsequence_keep, IH.
    + cbn [app]. apply subsequence_drop, IH.
    + apply subsequence_keep, IH.
Qed.

Lemma replace_from_skip r by_ (u v : jsstring) :
  replace_from r by_ (length u) (u ++ v) = replace_from r by_ 0 v.
Proof.
  induction u as [|c u IH]; cbn [length app replace_from]; [|exact IH].
  destruct v; reflexivity.
Qed.

Lemma first_split (x : N) (a a' b b' : jsstring) :
  ~ In x a -> ~ In x a' ->
  a ++ x :: b = a' ++ x :: b' -> a = a' /\ b = b'.
Proof.
  intros Ha Ha'. revert a' Ha'.
  induction a as [|c a IH]; intros [|c' a'] Ha' H; cbn [app] in H.
  - injection H as <-. auto.
  - injection H as <- _. exfalso. apply Ha'. now left.
  - injection H as -> _. exfalso. apply Ha. now left.
  - injection H as <- H.
    destruct (IH (fun Hin => Ha (or_intror Hin)) a'
                (fun Hin => Ha' (or_intror Hin)) H) as [<- <-].
    auto.
Qed.

(** The match that starts at a [<]: it ends at the first [>]. *)
Lemma tag_here_length (inside after : jsstring) :
  ~ In 62%N inside ->
  match_here htmlTagRegex (60%N :: inside ++ 62%N :: after)
  = Some (S (S (length inside))).
Proof.
  intros Hins.
  assert (Hin : In 62%N (inside ++ 62%N :: after))
    by (apply in_or_app; right; now left).
  destruct (tag_here _ Hin) as [n Hn]. rewrite Hn. pose proof Hn as Hn'.
  apply match_here_sound in Hn'; [|reflexivity].
  destruct Hn' as (u & v & Hs & Hu & Hlen).
  apply tag_lang in Hu. destruct Hu as (ins & -> & Hno).
  cbn [app] in Hs. injection Hs as Hs. rewrite <- app_assoc in Hs.
  cbn [app] in Hs.
  apply first_split in Hs; auto. destruct Hs as [-> _].
  rewrite Hlen. cbn [app length]. rewrite length_app. cbn [length].
  f_equal. lia.
Qed.

Lemma no_tag_here c s : c <> 60%N -> match_here htmlTagRegex (c :: s) = None.
Proof.
  intros Hc. destruct (match_here htmlTagRegex (c :: s)) as [n|] eqn:Hm;
    [|reflexivity].
  apply match_here_sound in Hm; [|reflexivity].
  destruct Hm as (u & v & Hs & Hu & _).
  apply tag_lang in Hu. destruct Hu as (ins & -> & _).
  cbn [app] in Hs. injection Hs as -> _. contradiction.
Qed.

(** The text before the first tag is kept, the tag is dropped, and the
    rest is stripped in turn. *)
Lemma strip_first_tag (before inside after : jsstring) :
  ~ In 60%N before -> ~ In 62%N inside ->
  replace_from htmlTagRegex [] 0
    (before ++ [60%N] ++ inside ++ [62%N] ++ after)
  = before ++ replace_from htmlTagRegex [] 0 after.
Proof.
  intros Hb Hins. induction before as [|c before IH]; cbn [app].
  - cbn [replace_from]. rewrite (@tag_here_length inside after Hins). cbn [app].
    replace (inside ++ 62%N :: after) with ((inside ++ [62%N]) ++ after)
      by (now rewrite <- app_assoc).
    replace (S (length inside)) with (length (inside ++ [62%N]))
      by (rewrite length_app; cbn [length]; lia).
    apply replace_from_skip.
  - cbn [replace_from]. rewrite no_tag_here.
    + f_equal. apply IH. intros Hin. apply Hb. now right.
    + intros ->. apply Hb. now left.
Qed.

(** *** The patterns of [_convertToHtml] *)

Lemma newline_lang u : lang (atoms newlineRegex) u <-> u = [10%N].
Proof.
  unfold newlineRegex. cbn [atoms lang accepts quant repeats]. split.
  - intros (a & r1 & -> & Ha & Hal & ->).
    apply singleton_chr in Ha; auto. subst. reflexivity.
  - intros ->. exists [10%N], []. repeat split; auto.
Qed.

Lemma spaces_lang u : lang (atoms twoSpacesRegex) u <-> u = [32%N; 32%N].
Proof.
  unfold twoSpacesRegex. cbn [atoms lang accepts quant repeats]. split.
  - intros (a & r1 & -> & Ha & Hal & b & r2 & -> & Hb & Hbl & ->).
    apply singleton_chr in Ha; auto. apply singleton_chr in Hb; auto.
    subst. reflexivity.
  - intros ->. exists [32%N], [32%N]. repeat split; auto.
    exists [32%N], []. repeat split; auto.
Qed.

Lemma newline_here c s :
  match_here newlineRegex (c :: s)
  = if (c =? 10)%N then Some 1%nat else None.
Proof.
  destruct (N.eqb_spec c 10) as [->|Hne].
  - destruct (@match_here_complete newlineRegex [10%N] s eq_refl
                (proj2 (newline_lang _) eq_refl)) as [n Hn].
    cbn [app] in Hn. rewrite Hn. pose proof Hn as Hn'.
    apply match_here_sound in Hn'; [|reflexivity].
    destruct Hn' as (u & v & _ & Hu & ->).
    apply newline_lang in Hu. now subst.
  - destruct (match_here newlineRegex (c :: s)) as [n|] eqn:Hm;
      [|reflexivity].
    apply match_here_sound in Hm; [|reflexivity].
    destruct Hm as (u & v & Hs & Hu & _).
    apply newline_lang in Hu. subst u. injection Hs as ->. contradiction.
Qed.

Lemma spaces_here s :
  match_here twoSpacesRegex s
  = match s with
    | c1 :: c2 :: _ =>
        if ((c1 =? 32) && (c2 =? 32))%N then Some 2%nat else None
    | _ => None
    end.
Proof.
  destruct (match_here twoSpacesRegex s) as [n|] eqn:Hm.
  - apply match_here_sound in Hm; [|reflexivity].
    destruct Hm as (u & v & -> & Hu & ->).
    apply spaces_lang in Hu. subst u. reflexivity.
  - destruct s as [|c1 [|c2 s]]; try reflexivity.
    destruct (N.eqb_spec c1 32) as [->|H1]; [|reflexivity].
    destruct (N.eqb_spec c2 32) as [->|H2]; [|reflexivity].
    destruct (@match_here_complete twoSpacesRegex [32%N; 32%N] s eq_refl
                (proj2 (spaces_lang _) eq_refl)) as [n Hn].
    cbn [app] in Hn. congruence.
Qed.

Lemma br_has_no_newline s : forall k,
  ~ In 10%N (replace_from newlineRegex (str "<br>") k s).
Proof.
  induction s as [|c s IH]; intros k; cbn [replace_from]; [intros []|].
  destruct k as [|k]; [|apply IH].
  rewrite newline_here. destruct (N.eqb_spec c 10) as [->|Hne].
  - intros H. apply in_app_or in H. destruct H as [H|H].
    + cbn in H. intuition discriminate.
    + now apply IH in H.
  - intros [H|H]; [contradiction|]. now apply IH in H.
Qed.

Lemma space_pair_cons c o :
  has_space_pair (c :: o) ->
  (c = 32%N /\ exists o', o = 32%N :: o') \/ has_space_pair o.
Proof.
  intros (before & after & H). destruct before as [|c' before].
  - injection H as -> ->. left. eauto.
  - injection H as _ ->. right. exists before, after. reflexivity.
Qed.

Lemma space_pair_app by_ o :
  ~ In 32%N by_ -> has_space_pair (by_ ++ o) -> has_space_pair o.
Proof.
  induction by_ as [|b by_ IH]; intros Hb H; [exact H|].
  apply space_pair_cons in H. destruct H as [[-> _]|H].
  - exfalso. apply Hb. now left.
  - apply IH; [|exact H]. intros Hin. apply Hb. now right.
Qed.

Lemma nbsp_has_no_space_pair s : forall k,
  ~ has_space_pair (replace_from twoSpacesRegex (str "&nbsp;&nbsp;") k s).
Proof.
  induction s as [|c s IH]; intros k; cbn [replace_from].
  - intros (before & after & H). destruct before; discriminate.
  - destruct k as [|k]; [|apply IH].
    rewrite spaces_here.
    assert (Hkeep :
      (c = 32%N -> forall s', s <> 32%N :: s') ->
      ~ has_space_pair
          (c :: replace_from twoSpacesRegex (str "&nbsp;&nbsp;") 0 s)).
    { intros Hc H. apply space_pair_cons in H.
      destruct H as [[-> [o' Ho]]|H]; [|now apply IH in H].
      specialize (Hc eq_refl). destruct s as [|d s']; [discriminate|].
      cbn [replace_from] in Ho. rewrite spaces_here in Ho.
      destruct (N.eqb_spec d 32) as [->|Hd]; [now apply (Hc s')|].
      destruct s' as [|d' s']; cbn [andb] in Ho;
        injection Ho as Ho _; contradiction. }
    destruct s as [|d s'].
    + apply Hkeep. intros _ s'. discriminate.
    + destruct (N.eqb_spec c 32) as [->|Hc];
        [destruct (N.eqb_spec d 32) as [->|Hd]|]; cbn [andb].
      * intros H. apply space_pair_app in H; [now apply IH in H|].
        cbn. intuition discriminate.
      * apply Hkeep. intros _ s'' H. injection H as H _. contradiction.
      * apply Hkeep. intros H. contradiction.
Qed.

Lemma no_newline_search s : ~ In 10%N s -> search newlineRegex s = false.
Proof.
  intros H. destruct (search newlineRegex s) eqn:Hs; [|reflexivity].
  exfalso. apply H.
  assert (Ht : test (mkRegex false (atoms newlineRegex) false) s = true)
    by exact Hs.
  apply test_unanchored in Ht. destruct Ht as (pre & u & v & -> & Hu).
  apply newline_lang in Hu. subst u.
  apply in_or_app. right. now left.
Qed.

Lemma no_space_pair_search s :
  ~ has_space_pair s -> search twoSpacesRegex s = false.
Proof.
  intros H. destruct (search twoSpacesRegex s) eqn:Hs; [|reflexivity].
  exfalso. apply H.
  assert (Ht : test (mkRegex false (atoms twoSpacesRegex) false) s = true)
    by exact Hs.
  apply test_unanchored in Ht. destruct Ht as (pre & u & v & -> & Hu).
  apply spaces_lang in Hu. subst u. exists pre, v. reflexivity.
Qed.

(** *** Decimal numerals *)

Lemma str_inj a b : str a = str b -> a = b.
Proof.
  unfold str. intros H.
  rewrite <- (string_of_list_ascii_of_string a),
          <- (string_of_list_ascii_of_string b).
  f_equal. revert H.
  generalize (list_ascii_of_string a) (list_ascii_of_string b).
  induction l as [|x l IH]; intros [|y l']; try discriminate; auto.
  cbn [map]. intros H. injection H as Hxy H. f_equal; auto.
  rewrite <- (ascii_N_embedding x), <- (ascii_N_embedding y).
  now rewrite Hxy.
Qed.

Lemma to_int_proper z : Z.to_int z <> Decimal.Pos Decimal.Nil
                        /\ Z.to_int z <> Decimal.Neg Decimal.Nil.
Proof.
  destruct z as [|p|p]; cbn; split; try discriminate;
    intros H; injection H as H;
    now apply DecimalPos.Unsigned.to_uint_nonnil in H.
Qed.

Lemma num_inj a b : num a = num b -> a = b.
Proof.
  unfold num. intros H. apply str_inj in H.
  apply DecimalZ.to_int_inj.
  destruct (to_int_proper a) as [Ha1 Ha2], (to_int_proper b) as [Hb1 Hb2].
  pose proof (NilZero.isi _ Ha1 Ha2) as Ha.
  pose proof (NilZero.isi _ Hb1 Hb2) as Hb.
  rewrite H in Ha. congruence.
Qed.

Lemma uint_digits d : digits (str (NilEmpty.string_of_uint d)).
Proof.
  unfold digits. induction d; cbn in *; auto.
Qed.

Lemma num_digits z : (0 <= z)%Z -> digits (num z).
Proof.
  unfold num. destruct z as [|p|p]; intros H; [reflexivity| |lia].
  cbn [Z.to_int NilZero.string_of_int]. unfold NilZero.string_of_uint.
  destruct (Pos.to_uint p) eqn:Hp; [reflexivity|..];
    rewrite <- Hp at 1; first [apply uint_digits | idtac].
Qed.

Lemma digits_no_dash d : digits d -> ~ In 45%N d.
Proof.
  unfold digits. intros H Hin. rewrite forallb_forall in H.
  specialize (H _ Hin). discriminate.
Qed.

Lemma last_dash (u u' d d' : jsstring) :
  ~ In 45%N d -> ~ In 45%N d' ->
  u ++ 45%N :: d = u' ++ 45%N :: d' -> u = u' /\ d = d'.
Proof.
  intros Hd Hd'. revert u'.
  induction u as [|c u IH]; intros [|c' u'] H; cbn [app] in H.
  - injection H as <-. auto.
  - injection H as <- ->. exfalso. apply Hd. apply in_or_app. right. now left.
  - injection H as -> <-. exfalso. apply Hd'. apply in_or_app. right. now left.
  - injection H as <- H. destruct (IH _ H) as [<- <-]. auto.
Qed.

End TextFacts.

Module Text.
Import EmailService NotificationConsumer.
Import RegexFacts TextFacts.

(** X16. [_isHtmlContent(content)] is true exactly for the strings that
    contain a [<] and, somewhere after it, a [>]: what lies between them
    does not matter, nor whether the two belong to a tag. *)
Theorem html_content_is_an_angle_pair (content : jsstring) :
  (_isHtmlContent content = true <-> has_tag content)
  /\ (_isHtmlContent content = false <-> ~ has_tag content).
Proof.
  pose proof (isHtmlContent_has_tag content) as H. split; [exact H|].
  destruct (_isHtmlContent content); split; intros Hx;
    try reflexivity; try discriminate.
  - exfalso. apply Hx. now apply H.
  - intros Ht. apply H in Ht. discriminate.
Qed.

(** X17. [_stripHtml(html)] only removes code units: what it returns is
    what is left of [html], in the same order.  It removes the tag
    patterns from left to right: the text before the first [<] that is
    followed by a [>] is kept, that [<] is dropped with everything up to
    the first [>] after it, and the rest is stripped in turn; a string
    that is no HTML content is returned as it is.  What it returns is no
    HTML content any more: no [<] of it is followed by a [>]. *)
Theorem stripped_text_has_no_tag (html : jsstring) :
  subsequence (_stripHtml html) html
  /\ _isHtmlContent (_stripHtml html) = false
  /\ (_isHtmlContent html = false -> _stripHtml html = html)
  /\ (forall before inside after,
        html = before ++ [60%N] ++ inside ++ [62%N] ++ after ->
        ~ In 60%N before -> ~ In 62%N inside ->
        _stripHtml html = before ++ _stripHtml after).
Proof.
  split; [|split; [|split]].
  - apply replace_from_subsequence.
  - destruct (_isHtmlContent (_stripHtml html)) eqn:H; [|reflexivity].
    apply isHtmlContent_has_tag in H.
    destruct H as (before & inside & after & H).
    unfold _stripHtml, replace_all in H.
    apply strip_leaves_no_tag in H. exfalso. apply H.
    apply in_or_app. right. now left.
  - intros H. unfold _stripHtml, replace_all.
    now apply replace_from_no_match.
  - intros before inside after -> Hb Hins. unfold _stripHtml, replace_all.
    now apply strip_first_tag.
Qed.

(** X18. [_convertToHtml(text)] returns a string without line feed and
    without two consecutive spaces, and returns the text as it is when
    the text has neither. *)
Theorem converted_text_has_no_newline (text : jsstring) :
  ~ In 10%N (_convertToHtml text)
  /\ ~ has_space_pair (_convertToHtml text)
  /\ (~ In 10%N text -> ~ has_space_pair text -> _convertToHtml text = text).
Proof.
  unfold _convertToHtml, replace_all. split; [|split].
  - intros H. apply replace_from_chars in H. destruct H as [H|H].
    + cbn in H. intuition discriminate.
    + now apply br_has_no_newline in H.
  - apply nbsp_has_no_space_pair.
  - intros Hn Hp.
    rewrite (@replace_from_no_match _ (str "<br>") _ (@no_newline_search _ Hn)).
    now apply replace_from_no_match, no_space_pair_search.
Qed.

(** X19. [_generateMessageId(topic, partition, offset)] identifies the
    record: for partitions that are not negative and offsets written in
    decimal digits, as the broker client gives them, two identifiers are
    equal only when the topics, the partitions and the offsets are. *)
Theorem message_ids_are_unique
    (topic topic' : jsstring) (partition partition' : Z)
    (offset offset' : jsstring) :
  (0 <= partition)%Z -> (0 <= partition')%Z ->
  digits offset -> digits offset' ->
  (_generateMessageId topic partition offset
   = _generateMessageId topic' partition' offset'
   <-> topic = topic' /\ partition = partition' /\ offset = offset').
Proof.
  intros Hp Hp' Ho Ho'. split; [|now intros (-> & -> & ->)].
  unfold _generateMessageId. intros H.
  change (str "-") with [45%N] in H. cbn [app] in H.
  assert (H' : (topic ++ 45%N :: num partition) ++ 45%N :: offset
               = (topic' ++ 45%N :: num partition') ++ 45%N :: offset').
  { rewrite <- !app_assoc. exact H. }
  apply last_dash in H'; try now apply digits_no_dash.
  destruct H' as [H' ->].
  apply last_dash in H'; try now apply digits_no_dash, num_digits.
  destruct H' as [-> H']. apply num_inj in H'. auto.
Qed.

(** Two records of the same topic, at the same offset of two
    partitions. *)
Lemma message_ids_are_unique_witness :
  _generateMessageId topic 0 (str "9") = _generateMessageId topic 1 (str "9")
  <-> topic = topic /\ 0%Z = 1%Z /\ str "9" = str "9".
Proof.
  apply (@message_ids_are_unique topic topic 0%Z 1%Z (str "9") (str "9"));
    [lia|lia|reflexivity|reflexivity].
Defined.

End Text.
